(** * Product and Project directory protocol support (system.py)

    A shallow embedding of the product index ([Product]), the directory
    scanner ([scan_product_directory]) and the project search path
    ([Context]) of system.py, with the properties of its specification.

    Python values are modelled as follows.
    - [str] is [string]; the characters are the 8-bit [ascii] codes.
    - A [dict] is an association list in insertion order with unique keys
      ([dict_set] replaces in place or appends, as Python does).
    - A [set] is a list of its elements in iteration order.  Python fixes
      no iteration order for a set, so statements about sets quantify over
      the listing or compare listings up to permutation.
    - A raised exception is the [Raise] case of [result].
    - A generator is the list of the values it yields together with the
      way it ends ([Trace]). *)

From Stdlib Require Import List String Ascii Bool Arith NArith Lia Permutation Sorted.
Import ListNotations.
Open Scope string_scope.
Open Scope list_scope.


(* ================================================================== *)
(** ** Exceptions *)

Inductive Exception : Type :=
| RuntimeError_scan_limit   (* RuntimeError("filesystem scan limit exceeded") *)
| IndexError
| KeyError
| ValueError
| FileNotFoundError
| LookupError_no_project    (* LookupError("no such project in context") *)
| OutOfFuel.                (* no Python exception: the fuel of a modelled
                               loop ran out; shown never to happen *)

Inductive result (A : Type) : Type :=
| Ok (a : A)
| Raise (e : Exception).
Arguments Ok {A} a.
Arguments Raise {A} e.

Definition bind {A B} (r : result A) (k : A -> result B) : result B :=
  match r with
  | Ok a => k a
  | Raise e => Raise e
  end.

Notation "'do' x <- r ; k" := (bind r (fun x => k))
  (at level 10, x name, r at level 100, k at level 200).
Notation "'do' ' p <- r ; k" := (bind r (fun x => match x with p => k end))
  (at level 10, p pattern, r at level 100, k at level 200).

(* ================================================================== *)
(** ** Equality of keys (Python's [__eq__] on hashable values) *)

Class EqKey (K : Type) := {
  keq : K -> K -> bool;
  keq_spec : forall x y, reflect (x = y) (keq x y)
}.

#[export] Instance EqKey_string : EqKey string :=
  {| keq := String.eqb; keq_spec := String.eqb_spec |}.

Fixpoint list_eqb {K} `{EqKey K} (l1 l2 : list K) : bool :=
  match l1, l2 with
  | [], [] => true
  | x :: l1', y :: l2' => keq x y && list_eqb l1' l2'
  | _, _ => false
  end.

Lemma list_eqb_spec {K} `{EqKey K} (l1 l2 : list K) :
  reflect (l1 = l2) (list_eqb l1 l2).
Proof.
  revert l2; induction l1 as [|x l1 IH]; intros [|y l2]; simpl;
    try (constructor; congruence).
  destruct (keq_spec x y) as [->|Hne]; simpl.
  - destruct (IH l2) as [->|Hne]; constructor; congruence.
  - constructor; congruence.
Qed.

#[export] Instance EqKey_list {K} `{EqKey K} : EqKey (list K) :=
  {| keq := list_eqb; keq_spec := list_eqb_spec |}.

Lemma keq_refl {K} `{EqKey K} (x : K) : keq x x = true.
Proof. destruct (keq_spec x x); congruence. Qed.

Lemma keq_eq {K} `{EqKey K} (x y : K) : keq x y = true <-> x = y.
Proof. destruct (keq_spec x y); split; congruence. Qed.

Lemma keq_neq {K} `{EqKey K} (x y : K) : keq x y = false <-> x <> y.
Proof. destruct (keq_spec x y); split; congruence. Qed.

(* ================================================================== *)
(** ** Python [str] operations used by system.py *)

Definition dot : ascii := "."%char.
Definition space : ascii := " "%char.
Definition newline : ascii := "010"%char.

(** [c in s] for a one-character [c]. *)
Fixpoint contains (c : ascii) (s : string) : bool :=
  match s with
  | EmptyString => false
  | String a s' => Ascii.eqb a c || contains c s'
  end.

(** [s.count(c)] for a one-character [c]. *)
Fixpoint count_char (c : ascii) (s : string) : nat :=
  match s with
  | EmptyString => 0
  | String a s' => (if Ascii.eqb a c then 1 else 0) + count_char c s'
  end.

(** [s.startswith(p)]. *)
Fixpoint startswith (s p : string) {struct p} : bool :=
  match p with
  | EmptyString => true
  | String c p' =>
      match s with
      | EmptyString => false
      | String d s' => Ascii.eqb d c && startswith s' p'
      end
  end.

(** [s[n:]]. *)
Fixpoint drop (n : nat) (s : string) : string :=
  match n with
  | 0 => s
  | S n' => match s with
            | EmptyString => EmptyString
            | String _ s' => drop n' s'
            end
  end.

(** [s.split(c)] for a one-character separator [c]: never empty. *)
Fixpoint split_on (c : ascii) (s : string) : list string :=
  match s with
  | EmptyString => [EmptyString]
  | String a s' =>
      if Ascii.eqb a c then EmptyString :: split_on c s'
      else match split_on c s' with
           | [] => [String a EmptyString]
           | w :: ws => String a w :: ws
           end
  end.

(** [sep.join(l)]. *)
Fixpoint join (sep : string) (l : list string) : string :=
  match l with
  | [] => EmptyString
  | [x] => x
  | x :: l' => x ++ sep ++ join sep l'
  end.

(* ================================================================== *)
(** ** FactorPath *)

(** Modelled from the spec: [types.FactorPath] (types.py is not part of
    the sources at hand).  "Immutable hierarchical path of segments,
    [.]-joined string form; supports equality/hashing, join/append,
    strict-ancestor enumeration (nearest to farthest) ... and a
    distinguished empty/root value."  A path is the list of its segments;
    [types.factor] is the empty path. *)
Definition FactorPath := list string.

Definition factor : FactorPath := [].

(** Modelled from the spec: [str(fp)], the [.]-joined string form. *)
Definition fp_str (p : FactorPath) : string := join "." p.

(** Modelled from the spec: [types.factor@text], the inverse of the string
    form: the text is cut at every [.]; the empty text is the empty path.
    (The relative forms with leading periods are used by
    [Project.relative] only and are not modelled.) *)
Definition factor_at (text : string) : FactorPath :=
  match text with
  | EmptyString => []
  | _ => split_on dot text
  end.

(** Modelled from the spec: [fp ** 1] and [fp.container], the path without
    its last segment. *)
Definition container (p : FactorPath) : FactorPath := removelast p.

(** Modelled from the spec: [~fp], the path itself followed by its
    containers, nearest first, the empty path excluded.  With
    [fp ** 1] this gives the strict-ancestor enumeration of the spec. *)
Fixpoint ancestry_from (n : nat) (p : FactorPath) : list FactorPath :=
  match n with
  | 0 => []
  | S n' => firstn (S n') p :: ancestry_from n' p
  end.

Definition ancestry (p : FactorPath) : list FactorPath :=
  ancestry_from (List.length p) p.

(** The type invariant of a path: no segment is empty or holds a period,
    so that the string form cuts back into the same segments. *)
Definition segment_ok (seg : string) : bool :=
  negb (String.eqb seg EmptyString) && negb (contains dot seg).

Definition wf_path (p : FactorPath) : bool := forallb segment_ok p.

(* ================================================================== *)
(** ** Python [dict] as an insertion-ordered association list *)

Definition dict (K V : Type) := list (K * V).

Section Dict.
Context {K V : Type} `{EqKey K}.

Fixpoint dict_get (k : K) (d : dict K V) : option V :=
  match d with
  | [] => None
  | (k', v) :: d' => if keq k' k then Some v else dict_get k d'
  end.

Definition dict_mem (k : K) (d : dict K V) : bool :=
  match dict_get k d with Some _ => true | None => false end.

(** [d[k] = v]: an existing key keeps its place, a new one goes last. *)
Fixpoint dict_set (k : K) (v : V) (d : dict K V) : dict K V :=
  match d with
  | [] => [(k, v)]
  | (k', v') :: d' =>
      if keq k' k then (k', v) :: d' else (k', v') :: dict_set k v d'
  end.

(** [dict(items)] and the dict comprehension: items are set in order,
    starting from [d]. *)
Definition dict_update (d : dict K V) (items : list (K * V)) : dict K V :=
  fold_left (fun acc kv => dict_set (fst kv) (snd kv) acc) items d.

Definition dict_of_list (items : list (K * V)) : dict K V :=
  dict_update [] items.

Definition dict_keys (d : dict K V) : list K := map fst d.

(** [d[k]], raising [KeyError]. *)
Definition dict_item (k : K) (d : dict K V) : result V :=
  match dict_get k d with
  | Some v => Ok v
  | None => Raise KeyError
  end.
End Dict.

(** [set(items)]: the distinct elements, first occurrences kept. *)
Fixpoint set_add {K} `{EqKey K} (x : K) (s : list K) : list K :=
  match s with
  | [] => [x]
  | y :: s' => if keq y x then s else y :: set_add x s'
  end.

Definition set_of_list {K} `{EqKey K} (items : list K) : list K :=
  fold_left (fun acc x => set_add x acc) items [].

Definition set_mem {K} `{EqKey K} (x : K) (s : list K) : bool :=
  existsb (keq x) s.

(* ================================================================== *)
(** ** Product: the tables and [Product.split] *)

(** [projects[id] = (path, protocol id, extra fields...)] and
    [local[path] = (id, protocol id, extra fields...)]: tuples whose first
    component is kept apart from the remaining string fields. *)
Abbreviation ProjectEntry := (FactorPath * list string)%type (only parsing).
Abbreviation LocalEntry := (string * list string)%type (only parsing).

Record Product : Type := mkProduct {
  pd_route : string;
  pd_limit : nat;
  pd_local : dict FactorPath LocalEntry;
  pd_projects : dict string ProjectEntry;
  pd_contexts : list FactorPath;
  pd_roots : list FactorPath
}.

(** [Product.clear] on a new instance: [Product(route, limit)]. *)
Definition Product_new (route : string) (limit : nat) : Product :=
  mkProduct route limit [] [] [] [].

(** The argument of [split] is a [FactorPath] for most callers, and a
    [str] in [Context.configure]; a [str] is never a key of [local]. *)
Inductive PathArg : Type :=
| AsPath (p : FactorPath)
| AsText (s : string).

Definition arg_in_local (q : PathArg) (local : dict FactorPath LocalEntry) : bool :=
  match q with
  | AsPath p => dict_mem p local
  | AsText _ => false
  end.

Definition arg_str (q : PathArg) : string :=
  match q with
  | AsPath p => fp_str p
  | AsText s => s
  end.

(** The loop of [Product.split] over the keys of [local]. *)
Fixpoint split_scan (keys : list FactorPath) (suffix : string)
  : option (FactorPath * FactorPath) :=
  match keys with
  | [] => None
  | x :: keys' =>
      let xstr := fp_str x in
      if startswith suffix (xstr ++ ".")
      then Some (x, factor_at (drop (String.length xstr + 1) suffix))
      else split_scan keys' suffix
  end.

(** [Product.split]; [None] is the value returned by falling off the end. *)
Definition Product_split (pd : Product) (fpath : PathArg)
  : option (FactorPath * FactorPath) :=
  match fpath with
  | AsPath p =>
      if dict_mem p (pd_local pd) then Some (p, factor)
      else split_scan (dict_keys (pd_local pd)) (fp_str p)
  | AsText s => split_scan (dict_keys (pd_local pd)) s
  end.

(* ================================================================== *)
(** ** Whitespace-separated fields *)

(** [c.isspace()] on the 8-bit codes: tab to carriage return, the four
    separators 28 to 31, the space, NEL (133) and the no-break space
    (160). *)
Definition is_space (c : ascii) : bool :=
  let n := nat_of_ascii c in
  (Nat.leb 9 n && Nat.leb n 13) || (Nat.leb 28 n && Nat.leb n 32)
  || Nat.eqb n 133 || Nat.eqb n 160.

(** [s.split()]: the maximal runs of characters that are not whitespace. *)
Fixpoint py_split (s : string) : list string :=
  match s with
  | EmptyString => []
  | String c s' =>
      if is_space c then py_split s'
      else match s' with
           | EmptyString => [String c EmptyString]
           | String d _ =>
               if is_space d then String c EmptyString :: py_split s'
               else match py_split s' with
                    | w :: ws => String c w :: ws
                    | [] => [String c EmptyString]
                    end
           end
  end.

Fixpoint lstrip (s : string) : string :=
  match s with
  | EmptyString => EmptyString
  | String c s' => if is_space c then lstrip s' else s
  end.

Fixpoint rstrip (s : string) : string :=
  match s with
  | EmptyString => EmptyString
  | String c s' =>
      match rstrip s' with
      | EmptyString => if is_space c then EmptyString else String c EmptyString
      | r => String c r
      end
  end.

(** [s.strip()]. *)
Definition py_strip (s : string) : string := rstrip (lstrip s).

(** [f.readlines()]: the lines of the text, each with its newline.  (The
    translation of carriage returns by a text-mode file is left out; a
    carriage return is whitespace to [strip] and [split] alike.) *)
Fixpoint readlines (s : string) : list string :=
  match s with
  | EmptyString => []
  | String c s' =>
      if Ascii.eqb c newline then String c EmptyString :: readlines s'
      else match readlines s' with
           | [] => [String c EmptyString]
           | l :: ls => String c l :: ls
           end
  end.

(** [parse_protocol_declaration]. *)
Definition parse_protocol_declaration (text : string) : list string :=
  py_split text.

(* ================================================================== *)
(** ** The filesystem below a product route *)

(** The route primitives are external ([Selector]).  A route below the
    product directory is the list of names leading to it; [route//fp] is
    then [fp] itself, [d.segment(route)] the names of [d] and
    [d.identifier] the last of them.  Nothing ties the three functions
    together, so a directory tree with cycles (links) is a filesystem
    too. *)
Inductive FsType : Type := fs_directory | fs_data | fs_void.

Record Filesystem : Type := mkFilesystem {
  fs_type : list string -> FsType;            (* [route.fs_type()] *)
  fs_text : list string -> string;            (* [route.get_text_content()] *)
  fs_iterfiles : list string -> list string   (* names of [route.fs_iterfiles('directory')] *)
}.

Definition FsType_eqb (a b : FsType) : bool :=
  match a, b with
  | fs_directory, fs_directory | fs_data, fs_data | fs_void, fs_void => true
  | _, _ => false
  end.

Definition protocol_declaration_filenames : list string :=
  [".factor-protocol"; ".protocol"].

(** [Product.read_protocol]: the fields of the first marker file present. *)
Fixpoint read_protocol_in (fs : Filesystem) (filenames : list string)
  (route : list string) : option (list string) :=
  match filenames with
  | [] => None
  | x :: filenames' =>
      if FsType_eqb (fs_type fs (route ++ [x])) fs_data
      then Some (parse_protocol_declaration (fs_text fs (route ++ [x])))
      else read_protocol_in fs filenames' route
  end.

Definition read_protocol (fs : Filesystem) (route : list string)
  : option (list string) :=
  read_protocol_in fs protocol_declaration_filenames route.

(** [Product.check_context_status]. *)
Definition check_context_status (fs : Filesystem) (route : list string) : bool :=
  if FsType_eqb (fs_type fs (route ++ ["context"])) fs_directory
  then match read_protocol fs (route ++ ["context"]) with
       | Some _ => true
       | None => false
       end
  else false.

(* ================================================================== *)
(** ** scan_product_directory *)

(** The pairs yielded by the scan. *)
Inductive Event : Type :=
| Ev_root (fp : FactorPath)
| Ev_context (fp : FactorPath)
| Ev_project (id : string) (entry : ProjectEntry).

(** How a call ends: it returns or it raises. *)
Inductive Ending : Type :=
| Returned
| Raised (e : Exception).

(** A run of the generator: the values it yields, the way it ends and
    the value of its counter [i] at that point. *)
Record Run : Type := mkRun {
  yielded : list Event;
  ending : Ending;
  inspected : nat
}.

Definition yield_then (evs : list Event) (r : Run) : Run :=
  mkRun (evs ++ yielded r) (ending r) (inspected r).

(** A loop of the scan either goes on with the counter [i] and the
    [stack], or raises after yielding. *)
Inductive Loop : Type :=
| Continue (evs : list Event) (i : nat) (stack : list (list string))
| Abort (evs : list Event) (e : Exception) (i : nat).

Definition yield_first (evs : list Event) (l : Loop) : Loop :=
  match l with
  | Continue evs' i stack => Continue (evs ++ evs') i stack
  | Abort evs' e i => Abort (evs ++ evs') e i
  end.

Section Scan.
Variable iscontext : list string -> bool.
Variable read_protocol : list string -> option (list string).
Variable fs : Filesystem.          (* the directories below [route] *)
Variable limit : nat.

(** [('project', (p[0], (fp,) + p[1:]))]; [p[0]] fails on an empty tuple. *)
Definition project_item (fp : FactorPath) (p : list string) : result Event :=
  match p with
  | [] => Raise IndexError
  | id :: rest => Ok (Ev_project id (fp, rest))
  end.

(** The first loop, over the explicit [roots]; [i] stays 0. *)
Fixpoint scan_roots (roots : list FactorPath) (stack : list (list string))
  : Loop :=
  match roots with
  | [] => Continue [] 0 stack
  | fp :: roots' =>
      let d := fp in
      if iscontext d then
        yield_first [Ev_root fp; Ev_context fp]
          (scan_roots roots' (stack ++ [d]))
      else
        match read_protocol d with
        | Some p =>
            match project_item fp p with
            | Ok ev => yield_first [Ev_root fp; ev] (scan_roots roots' stack)
            | Raise e => Abort [Ev_root fp] e 0
            end
        | None => yield_first [Ev_root fp] (scan_roots roots' stack)
        end
  end.

(** The loops over [fs_iterfiles('directory')] of a directory [parent]:
    the discovery loop over the product directory ([as_root], which also
    yields the roots) and the loop over a context taken off the stack. *)
Fixpoint scan_directory (as_root : bool) (parent : list string)
  (names : list string) (i : nat) (stack : list (list string)) : Loop :=
  match names with
  | [] => Continue [] i stack
  | name :: names' =>
      let d := parent ++ [name] in
      let i := i + 1 in
      if Nat.ltb limit i then Abort [] RuntimeError_scan_limit i
      else if contains dot name then
        scan_directory as_root parent names' i stack
      else
        let fp : FactorPath := d in
        let rootev := if as_root then [Ev_root fp] else [] in
        if iscontext d then
          yield_first (rootev ++ [Ev_context fp])
            (scan_directory as_root parent names' i (stack ++ [d]))
        else
          match read_protocol d with
          | Some p =>
              match project_item fp p with
              | Ok ev =>
                  yield_first (rootev ++ [ev])
                    (scan_directory as_root parent names' i stack)
              | Raise e => Abort rootev e i
              end
          | None => scan_directory as_root parent names' i stack
          end
  end.

(** [while stack: current = stack.popleft(); ...]. *)
Fixpoint scan_stack (fuel : nat) (i : nat) (stack : list (list string))
  : Run :=
  match stack with
  | [] => mkRun [] Returned i
  | current :: stack' =>
      match fuel with
      | 0 => mkRun [] (Raised OutOfFuel) i
      | S fuel' =>
          match scan_directory false current (fs_iterfiles fs current) i stack' with
          | Continue evs i' st => yield_then evs (scan_stack fuel' i' st)
          | Abort evs e i' => mkRun evs (Raised e) i'
          end
      end
  end.

(** [scan_product_directory(iscontext, read_protocol, route, roots, limit)].
    Every turn of the [while] loop that does not raise takes one route
    off the stack and adds at most as many as it counts, so
    [length stack + limit] turns are enough. *)
Definition scan_product_directory (roots : list FactorPath) : Run :=
  let first :=
    match roots with
    | _ :: _ => scan_roots roots []
    | [] => scan_directory true [] (fs_iterfiles fs []) 0 []
    end in
  match first with
  | Continue evs i stack =>
      yield_then evs (scan_stack (List.length stack + limit) i stack)
  | Abort evs e i => mkRun evs (Raised e) i
  end.

End Scan.

(* ================================================================== *)
(** ** Product.update *)

(** [slots[k].append(v)] for the three kinds. *)
Definition slot_root (evs : list Event) : list FactorPath :=
  flat_map (fun ev => match ev with Ev_root fp => [fp] | _ => [] end) evs.

Definition slot_context (evs : list Event) : list FactorPath :=
  flat_map (fun ev => match ev with Ev_context fp => [fp] | _ => [] end) evs.

Definition slot_project (evs : list Event) : list (string * ProjectEntry) :=
  flat_map (fun ev => match ev with Ev_project id e => [(id, e)] | _ => [] end) evs.

(** [{v[0]: (k,) + v[1:] for k, v in prj.items()}]. *)
Definition local_of_projects (prj : dict string ProjectEntry)
  : dict FactorPath LocalEntry :=
  dict_of_list (map (fun kv => (fst (snd kv), (fst kv, snd (snd kv)))) prj).

(** [Product.update]: the product after the call and the way the call
    ends.  The tables are assigned after the scan has ended, so an
    exception of the scan leaves the product as it was. *)
Definition Product_update (fs : Filesystem) (pd : Product) : Product * Ending :=
  let run := scan_product_directory (check_context_status fs) (read_protocol fs)
               fs (pd_limit pd) (pd_roots pd) in
  match ending run with
  | Returned =>
      let evs := yielded run in
      let projects := dict_of_list (slot_project evs) in
      let local := local_of_projects projects in
      (mkProduct (pd_route pd) (pd_limit pd) local projects
         (set_of_list (slot_context evs)) (set_of_list (slot_root evs)),
       Returned)
  | Raised e => (pd, Raised e)
  end.

(** The counter of a loop when it goes on or raises, and whether it
    raised the scan limit error. *)
Definition loop_counter (l : Loop) : nat :=
  match l with
  | Continue _ i _ => i
  | Abort _ _ i => i
  end.

Definition loop_limit_abort (l : Loop) : bool :=
  match l with
  | Abort _ RuntimeError_scan_limit _ => true
  | _ => false
  end.

(** The values a loop yields, and what the scan knows of a project it
    yields: the marker of its directory holds the identifier and the
    further fields. *)
Definition loop_events (l : Loop) : list Event :=
  match l with
  | Continue evs _ _ => evs
  | Abort evs _ _ => evs
  end.

Definition project_read (read_protocol : list string -> option (list string))
  (ev : Event) : Prop :=
  match ev with
  | Ev_project id (fp, rest) => read_protocol fp = Some (id :: rest)
  | _ => True
  end.

(* ================================================================== *)
(** ** The index files and Product.load *)

(** The files of the cache directory ([.product]) that [load] reads and
    [store] writes, each with its text; [None] is an absent file, which
    [fs_open('tr')] answers with [FileNotFoundError]. *)
Record Cache : Type := mkCache {
  PROJECTS : option string;
  CONTEXTS : option string;
  ROOTS : option string
}.

Definition fs_open_read (file : option string) : result string :=
  match file with
  | Some text => Ok text
  | None => Raise FileNotFoundError
  end.

(** One turn of [parse_project_index]:
    [l = l.strip().split(); yield (l[0], (types.factor@l[1],) + tuple(l[2:]))]. *)
Definition parse_project_line (l : string) : result (string * ProjectEntry) :=
  match py_split (py_strip l) with
  | id :: path :: rest => Ok (id, (factor_at path, rest))
  | _ => Raise IndexError
  end.

(** [parse_project_index], consumed whole by [dict]. *)
Fixpoint parse_project_index (lines : list string)
  : result (list (string * ProjectEntry)) :=
  match lines with
  | [] => Ok []
  | l :: lines' =>
      do item <- parse_project_line l;
      do items <- parse_project_index lines';
      Ok (item :: items)
  end.

(** [parse_context_index]. *)
Definition parse_context_index (lines : list string) : list FactorPath :=
  map (fun l => factor_at (py_strip l)) lines.

Definition nonempty (s : string) : bool := negb (String.eqb s EmptyString).

(** [Product.load]: the product after the call and the way the call ends.
    The four tables are assigned after the three files have been read. *)
Definition Product_load (cache : Cache) (pd : Product) : Product * Ending :=
  let loaded :=
    do text <- fs_open_read (PROJECTS cache);
    do items <- parse_project_index (readlines text);
    let prj := dict_of_list items in
    do text <- fs_open_read (CONTEXTS cache);
    let ctx := set_of_list (parse_context_index (readlines text)) in
    do text <- fs_open_read (ROOTS cache);
    let roots := set_of_list (map factor_at (filter nonempty (py_split text))) in
    let local := local_of_projects prj in
    Ok (mkProduct (pd_route pd) (pd_limit pd) local prj ctx roots)
  in
  match loaded with
  | Ok pd' => (pd', Returned)
  | Raise e => (pd, Raised e)
  end.

(* ================================================================== *)
(** ** Product.store *)

(** [list.sort]: a stable sort; an element stays in front of the later
    elements that are not smaller. *)
Fixpoint sort_insert {A} (le : A -> A -> bool) (x : A) (l : list A) : list A :=
  match l with
  | [] => [x]
  | y :: l' => if le x y then x :: l else y :: sort_insert le x l'
  end.

Definition py_sort {A} (le : A -> A -> bool) (l : list A) : list A :=
  fold_right (sort_insert le) [] l.

(** [SortKey = operator.itemgetter(0)] on the tuples [(k,) + v]: the
    identifier. *)
Definition project_le (x y : string * ProjectEntry) : bool :=
  String.leb (fst x) (fst y).

(** [SortKey] on a path: [x[0]], its first segment; the empty path has
    none ([IndexError]). *)
Definition first_segment (p : FactorPath) : string := hd EmptyString p.

Definition context_le (x y : FactorPath) : bool :=
  String.leb (first_segment x) (first_segment y).

Definition is_nil {A} (l : list A) : bool :=
  match l with [] => true | _ => false end.

Definition sort_contexts (ctxseq : list FactorPath) : result (list FactorPath) :=
  if existsb is_nil ctxseq then Raise IndexError
  else Ok (py_sort context_le ctxseq).

(** Modelled from the spec: the order of two paths, used by
    [rootseq.sort()] ("roots sorted naturally"): segment by segment, a
    path before its extensions. *)
Fixpoint path_le (p q : FactorPath) : bool :=
  match p, q with
  | [], _ => true
  | _ :: _, [] => false
  | a :: p', b :: q' =>
      if String.eqb a b then path_le p' q' else String.leb a b
  end.

(** [s + '\n']. *)
Definition line (s : string) : string := (s ++ String newline EmptyString)%string.

(** [' '.join(map(str, x)) + '\n'] for [x = (k,) + v]. *)
Definition project_line (x : string * ProjectEntry) : string :=
  line (join " " (fst x :: fp_str (fst (snd x)) :: snd (snd x))).

(** [f.writelines(lines)]. *)
Definition writelines (lines : list string) : string :=
  String.concat EmptyString lines.

(** [Product.store]: the files after the call and the way the call ends.
    (The cache directory is made when it is missing.) *)
Definition Product_store (pd : Product) (cache : Cache) : Cache * Ending :=
  let prjseq := py_sort project_le (pd_projects pd) in
  let cache1 :=
    mkCache (Some (writelines (map project_line prjseq)))
      (CONTEXTS cache) (ROOTS cache) in
  match sort_contexts (pd_contexts pd) with
  | Raise e => (cache1, Raised e)
  | Ok ctxseq =>
      let cache2 :=
        mkCache (PROJECTS cache1)
          (Some (writelines (map (fun x => line (fp_str x)) ctxseq)))
          (ROOTS cache1) in
      let rootseq := py_sort path_le (pd_roots pd) in
      (mkCache (PROJECTS cache2) (CONTEXTS cache2)
         (Some (join (String newline EmptyString) (map fp_str rootseq))),
       Returned)
  end.

(** The directory without index files, and the tables compared as maps
    and sets. *)
Definition Cache_empty : Cache := mkCache None None None.

Definition dict_equiv {K V} `{EqKey K} (d1 d2 : dict K V) : Prop :=
  forall k, dict_get k d1 = dict_get k d2.

Definition set_equiv {A} (s1 s2 : list A) : Prop :=
  forall x, In x s1 <-> In x s2.

Definition tables_equiv (pd1 pd2 : Product) : Prop :=
  dict_equiv (pd_projects pd1) (pd_projects pd2) /\
  dict_equiv (pd_local pd1) (pd_local pd2) /\
  set_equiv (pd_contexts pd1) (pd_contexts pd2) /\
  set_equiv (pd_roots pd1) (pd_roots pd2).

(** Text without whitespace, and the paths whose string form is one
    non-empty field of an index line. *)
Fixpoint no_space (s : string) : bool :=
  match s with
  | EmptyString => true
  | String c s' => negb (is_space c) && no_space s'
  end.

Definition path_storable (p : FactorPath) : bool :=
  negb (is_nil p) && wf_path p && forallb no_space p.

Definition paths_storable (pd : Product) : bool :=
  forallb (fun kv => path_storable (fst (snd kv))) (pd_projects pd)
  && forallb path_storable (pd_contexts pd)
  && forallb path_storable (pd_roots pd).

(** A field of an index line: not empty and free of whitespace. *)
Definition word (w : string) : bool := nonempty w && no_space w.

(** An entry of [projects] whose line reads back as it was written. *)
Definition entry_storable (kv : string * ProjectEntry) : bool :=
  word (fst kv) && path_storable (fst (snd kv)) && forallb word (snd (snd kv)).

(* ================================================================== *)
(** ** Protocols and projects *)

(** [protocols], the registry of the module; [__package__] is the name of
    the package that holds system.py. *)
Definition package : string := "project".

Definition protocols : dict string (string * string) :=
  [("factors/polynomial-1", ((package ++ ".polynomial")%string, "V1"))].

(** [import_protocol] of [Product] and of [Context]: the class named by
    the registry; an identifier that is not registered is a [KeyError]. *)
Definition import_protocol (identifier : string) : result (string * string) :=
  dict_item identifier protocols.

(** [Product.identifier_by_factor]: [ids, proto = self.local[factor]]
    takes a tuple of two. *)
Definition identifier_by_factor (pd : Product) (fp : FactorPath)
  : result (string * (string * string)) :=
  do entry <- dict_item fp (pd_local pd);
  match entry with
  | (ids, [proto]) =>
      do cls <- import_protocol proto;
      Ok (ids, cls)
  | _ => Raise ValueError
  end.

(** A [Project]: its product, identifier and path, and its protocol
    instance [proto({})], an instance of its own of the class [proto]. *)
Record Project : Type := mkProject {
  pj_product : Product;
  pj_identifier : string;
  pj_factor : FactorPath;
  pj_protocol : string * string
}.

(** [Project.itercontexts]: [x/'context'] for [x] in
    [~(self.factor ** 1)], near to far. *)
Definition Project_itercontexts (pj : Project) : list FactorPath :=
  map (fun x => x ++ ["context"]) (ancestry (container (pj_factor pj))).

(* ================================================================== *)
(** ** Context *)

(** [instance_cache] is kept as its two kinds of keys, [('product', route)]
    and [('project', id)], each in insertion order. *)
Record Context : Type := mkContext {
  product_sequence : list Product;
  cached_products : dict string Product;
  cached_projects : dict string Project
}.

Definition Context_new : Context := mkContext [] [] [].

(** [Context.connect]; [disk] gives the index files of the product
    directory at a route. *)
Definition Context_connect (disk : string -> Cache) (ctx : Context)
  (route : string) : Context * result Product :=
  match dict_get route (cached_products ctx) with
  | Some pd => (ctx, Ok pd)
  | None =>
      match Product_load (disk route) (Product_new route 4096) with
      | (pd, Returned) =>
          (mkContext (product_sequence ctx ++ [pd])
             (dict_set route pd (cached_products ctx))
             (cached_projects ctx),
           Ok pd)
      | (_, Raised e) => (ctx, Raise e)
      end
  end.

(** [Context.project]. *)
Definition Context_project (ctx : Context) (id : string) : result Project :=
  dict_item id (cached_projects ctx).

(** A generator of values that may raise while it computes the next one:
    the list of its steps.  [list(g)] runs all of them, a [for] loop that
    breaks at once runs the first. *)
Fixpoint consume {A} (g : list (result A)) : result (list A) :=
  match g with
  | [] => Ok []
  | r :: g' =>
      do a <- r;
      do l <- consume g';
      Ok (a :: l)
  end.

Definition first_of {A} (g : list (result A)) : result (option A) :=
  match g with
  | [] => Ok None
  | r :: _ => do a <- r; Ok (Some a)
  end.

(** [Context.itercontexts]. *)
Definition Context_itercontexts (ctx : Context) (pj : Project)
  : list (result Project) :=
  let pd := pj_product pj in
  map (fun pj_ctx_path =>
         do found <- identifier_by_factor pd pj_ctx_path;
         Context_project ctx (fst found))
      (Project_itercontexts pj).

(** [Context.load]: the context after the call and the way the call
    ends.  The inner loop takes the items [id, (fp, proto_id)] of one
    product. *)
Fixpoint load_projects (pd : Product) (items : list (string * ProjectEntry))
  (cache : dict string Project) : dict string Project * Ending :=
  match items with
  | [] => (cache, Returned)
  | (id, (fp, [proto_id])) :: items' =>
      match import_protocol proto_id with
      | Ok proto =>
          load_projects pd items' (dict_set id (mkProject pd id fp proto) cache)
      | Raise e => (cache, Raised e)
      end
  | _ :: _ => (cache, Raised ValueError)
  end.

Fixpoint load_products (pds : list Product) (cache : dict string Project)
  : dict string Project * Ending :=
  match pds with
  | [] => (cache, Returned)
  | pd :: pds' =>
      match load_projects pd (pd_projects pd) cache with
      | (cache', Returned) => load_products pds' cache'
      | (cache', Raised e) => (cache', Raised e)
      end
  end.

Definition Context_load (ctx : Context) : Context * Ending :=
  let (cache, e) :=
    load_products (rev (product_sequence ctx)) (cached_projects ctx) in
  (mkContext (product_sequence ctx) (cached_products ctx) cache, e).

(** [Context.split]. *)
Fixpoint first_split (pds : list Product) (qpath : PathArg)
  : option (Product * (FactorPath * FactorPath)) :=
  match pds with
  | [] => None
  | pd :: pds' =>
      match Product_split pd qpath with
      | Some parts => Some (pd, parts)
      | None => first_split pds' qpath
      end
  end.

Definition Context_split (ctx : Context) (qpath : PathArg)
  : result (Product * Project * FactorPath) :=
  match first_split (product_sequence ctx) qpath with
  | None => Raise LookupError_no_project
  | Some (pd, (pj, fp)) =>
      do iid <- identifier_by_factor pd pj;
      do pj <- Context_project ctx (fst iid);
      Ok (pd, pj, fp)
  end.

Section Infrastructure.
(** [Project.infrastructure] is read by the protocol of the project (an
    external collaborator) and kept; here it is a function of the
    project. *)
Variable Value : Type.
Variable infrastructure : Project -> dict string Value.

(** [collections.ChainMap] over the given maps: a lookup asks the maps in turn, the
    first that has the key answers. *)
Fixpoint ChainMap_get (maps : list (dict string Value)) (key : string)
  : option Value :=
  match maps with
  | [] => None
  | m :: maps' =>
      match dict_get key m with
      | Some v => Some v
      | None => ChainMap_get maps' key
      end
  end.

(** [Context.symbols]: the maps of the [ChainMap] it returns. *)
Definition Context_symbols (ctx : Context) (pj : Project)
  : result (list (dict string Value)) :=
  do projects <- consume (Context_itercontexts ctx pj);
  let projects := rev projects ++ [pj] in
  Ok (map infrastructure projects).

(** A call [pj.protocol.inherit(ctxproto, pj.infrastructure.items())]:
    the project whose protocol instance inherits, the project whose
    protocol instance is handed over ([None] for [None]) and the items;
    for the first loop of [configure] also the context path at hand. *)
Record InheritCall : Type := mkInheritCall {
  call_ctxname : option FactorPath;
  call_target : Project;
  call_parent : option Project;
  call_items : dict string Value
}.

(** [for ascending in self.itercontexts(pj): ...; break / else: ...],
    then the call of [inherit]. *)
Definition inherit_leading (ctx : Context) (ctxname : option FactorPath)
  (pj : Project) : result InheritCall :=
  do ascending <- first_of (Context_itercontexts ctx pj);
  Ok (mkInheritCall ctxname pj ascending (infrastructure pj)).

(** The first loop of [Context.configure], over the sorted [ctxlist]. *)
Fixpoint configure_contexts (ctx : Context) (ctxlist : list FactorPath)
  : list InheritCall * Ending :=
  match ctxlist with
  | [] => ([], Returned)
  | ctxname :: ctxlist' =>
      let qpath := fp_str (ctxname ++ ["context"] ++ ["factor-placeholder"]) in
      match Context_split ctx (AsText qpath) with
      | Raise e => ([], Raised e)
      | Ok (_, pj, _) =>
          match inherit_leading ctx (Some ctxname) pj with
          | Raise e => ([], Raised e)
          | Ok call =>
              let (calls, e) := configure_contexts ctx ctxlist' in
              (call :: calls, e)
          end
      end
  end.

(** The second loop, over the cached projects. *)
Fixpoint configure_projects (ctx : Context) (pjs : list Project)
  : list InheritCall * Ending :=
  match pjs with
  | [] => ([], Returned)
  | pj :: pjs' =>
      match inherit_leading ctx None pj with
      | Raise e => ([], Raised e)
      | Ok call =>
          let (calls, e) := configure_projects ctx pjs' in
          (call :: calls, e)
      end
  end.

(** [ctxlist] before and after [ctxlist.sort(key=...)]. *)
Definition context_depth (k : FactorPath) : nat := count_char dot (fp_str k).

Definition depth_le (x y : FactorPath) : bool :=
  Nat.leb (context_depth x) (context_depth y).

Definition configure_ctxlist (ctx : Context) : list FactorPath :=
  py_sort depth_le (flat_map pd_contexts (rev (product_sequence ctx))).

(** [Context.configure]: the calls of [inherit] in order and the way the
    call ends. *)
Definition Context_configure (ctx : Context) : list InheritCall * Ending :=
  match configure_contexts ctx (configure_ctxlist ctx) with
  | (calls, Raised e) => (calls, Raised e)
  | (calls, Returned) =>
      let (calls', e) :=
        configure_projects ctx (map snd (cached_projects ctx)) in
      (calls ++ calls', e)
  end.

End Infrastructure.

Arguments ChainMap_get {Value} maps key.
Arguments Context_symbols {Value} infrastructure ctx pj.
Arguments mkInheritCall {Value} call_ctxname call_target call_parent call_items.
Arguments call_ctxname {Value} i.
Arguments call_target {Value} i.
Arguments call_parent {Value} i.
Arguments call_items {Value} i.
Arguments inherit_leading {Value} infrastructure ctx ctxname pj.
Arguments configure_contexts {Value} infrastructure ctx ctxlist.
Arguments configure_projects {Value} infrastructure ctx pjs.
Arguments Context_configure {Value} infrastructure ctx.

(** A product declares an identifier when [projects] has it as a key. *)
Definition declares (id : string) (pd : Product) : bool :=
  dict_mem id (pd_projects pd).

(** The project that [Context.load] builds from an item of [projects]. *)
Definition project_of_item (pd : Product) (kv : string * ProjectEntry)
  : option (string * Project) :=
  match kv with
  | (id, (fp, [proto_id])) =>
      match import_protocol proto_id with
      | Ok proto => Some (id, mkProject pd id fp proto)
      | Raise _ => None
      end
  | _ => None
  end.

(** The contexts that calls of [connect] and [load] make from a new one. *)
Inductive Connected (disk : string -> Cache) : Context -> Prop :=
| Connected_new : Connected disk Context_new
| Connected_connect ctx route :
    Connected disk ctx -> Connected disk (fst (Context_connect disk ctx route))
| Connected_load ctx :
    Connected disk ctx -> Connected disk (fst (Context_load ctx)).

(** The tables of a product that [load] filled. *)
Definition Product_coherent (pd : Product) : Prop :=
  NoDup (dict_keys (pd_projects pd)) /\
  pd_local pd = local_of_projects (pd_projects pd).


(* ================================================================== *)
(** ** Example directories and index files *)

(** A product directory with the two plain directories [x] and [y]. *)
Definition fs_two_plain : Filesystem :=
  mkFilesystem (fun _ => fs_void) (fun _ => EmptyString)
    (fun route => match route with [] => ["x"; "y"] | _ => [] end).

(** A product directory with the project [p] (marker [.protocol]). *)
Definition fs_one_project : Filesystem :=
  mkFilesystem
    (fun route => match route with
                  | ["p"; ".protocol"] => fs_data
                  | _ => fs_void
                  end)
    (fun route => match route with
                  | ["p"; ".protocol"] => "http://fault.io/p factors/polynomial-1"
                  | _ => EmptyString
                  end)
    (fun route => match route with [] => ["p"; "q"; "r"] | _ => [] end).

(** A PROJECTS file that registers one path under two identifiers. *)
Definition cache_shared_path : Cache :=
  mkCache (Some "id1 a factors/polynomial-1
id2 a factors/polynomial-1
") (Some EmptyString) (Some EmptyString).

(** A product directory whose one project directory is named
    [my project]. *)
Definition fs_spaced_name : Filesystem :=
  mkFilesystem
    (fun route => match route with
                  | ["my project"; ".protocol"] => fs_data
                  | _ => fs_void
                  end)
    (fun route => match route with
                  | ["my project"; ".protocol"] =>
                      "http://fault.io/mine factors/polynomial-1"
                  | _ => EmptyString
                  end)
    (fun route => match route with [] => ["my project"] | _ => [] end).


(** Two listings of the set of contexts [{a.b, a.c}]. *)
Definition pd_contexts_cb : Product :=
  mkProduct "/pd" 4096 [] [] [["a"; "c"]; ["a"; "b"]] [].

Definition pd_contexts_bc : Product :=
  mkProduct "/pd" 4096 [] [] [["a"; "b"]; ["a"; "c"]] [].

(** The index files of three product directories: [/x] and [/y] both
    declare the identifier [dup], at the paths [x] and [y]; [/n] holds
    the context [a] with the project [a.p]. *)
Definition disk_example (route : string) : Cache :=
  if String.eqb route "/x" then
    mkCache (Some "dup x factors/polynomial-1
") (Some EmptyString) (Some "x")
  else if String.eqb route "/y" then
    mkCache (Some "dup y factors/polynomial-1
") (Some EmptyString) (Some "y")
  else if String.eqb route "/n" then
    mkCache (Some "ctx-a a.context factors/polynomial-1
prj a.p factors/polynomial-1
") (Some "a
") (Some "a")
  else Cache_empty.

(** [connect("/x")], [connect("/y")], [load()]. *)
Definition ctx_xy_connected : Context :=
  fst (Context_connect disk_example
         (fst (Context_connect disk_example Context_new "/x")) "/y").

Definition ctx_xy : Context := fst (Context_load ctx_xy_connected).

Definition product_x : Product :=
  fst (Product_load (disk_example "/x") (Product_new "/x" 4096)).

Definition product_y : Product :=
  fst (Product_load (disk_example "/y") (Product_new "/y" 4096)).

(** [connect("/n")], [load()]. *)
Definition ctx_nested : Context :=
  fst (Context_load (fst (Context_connect disk_example Context_new "/n"))).

(** The symbol [sym] as the context project [a.context] and the project
    [a.p] define it. *)
Definition infrastructure_example (pj : Project) : dict string string :=
  if String.eqb (pj_identifier pj) "ctx-a" then [("sym", "of a.context")]
  else if String.eqb (pj_identifier pj) "prj" then [("sym", "of a.p")]
  else [].

(** The product [/n] and its two projects as [load] builds them. *)
Definition product_n : Product :=
  fst (Product_load (disk_example "/n") (Product_new "/n" 4096)).

Definition project_a_context : Project :=
  mkProject product_n "ctx-a" ["a"; "context"] ("project.polynomial", "V1").

Definition project_a_p : Project :=
  mkProject product_n "prj" ["a"; "p"] ("project.polynomial", "V1").

(** A product directory whose project [p] has a marker of four fields. *)
Definition fs_extra_fields : Filesystem :=
  mkFilesystem
    (fun route => match route with
                  | ["p"; ".protocol"] => fs_data
                  | _ => fs_void
                  end)
    (fun route => match route with
                  | ["p"; ".protocol"] =>
                      "http://fault.io/p factors/polynomial-1 more fields"
                  | _ => EmptyString
                  end)
    (fun route => match route with [] => ["p"] | _ => [] end).

(* ================================================================== *)
(** ** Further methods of Product, Project and Context *)

(** [Product.select]: the project paths with the prefix [constraint]. *)
Definition Product_select (pd : Product) (constraint : FactorPath)
  : list FactorPath :=
  if set_mem constraint (pd_contexts pd) then
    let prefix := (fp_str constraint ++ ".")%string in
    filter (fun p => startswith (fp_str p) prefix) (dict_keys (pd_local pd))
  else if dict_mem constraint (pd_local pd) then [constraint]
  else if Nat.eqb (List.length constraint) 0 then dict_keys (pd_local pd)
  else [].

(** [Product.factor_by_identifier]: [ids, proto = self.projects[identifier]]
    takes a tuple of two. *)
Definition factor_by_identifier (pd : Product) (identifier : string)
  : result (FactorPath * (string * string)) :=
  do entry <- dict_item identifier (pd_projects pd);
  match entry with
  | (ids, [proto]) =>
      do cls <- import_protocol proto;
      Ok (ids, cls)
  | _ => Raise ValueError
  end.

(** [s.rstrip(c)] for a one-character [c]. *)
Fixpoint rstrip_char (c : ascii) (s : string) : string :=
  match s with
  | EmptyString => EmptyString
  | String a s' =>
      match rstrip_char c s' with
      | EmptyString => if Ascii.eqb a c then EmptyString else String a EmptyString
      | r => String a r
      end
  end.

(** [s.rsplit(c, 1)] for a one-character [c]: the text cut at the last
    [c], or [None] for the one-element list when there is no [c]. *)
Fixpoint rsplit_once (c : ascii) (s : string) : option (string * string) :=
  match s with
  | EmptyString => None
  | String a s' =>
      match rsplit_once c s' with
      | Some (h, t) => Some (String a h, t)
      | None => if Ascii.eqb a c then Some (EmptyString, s') else None
      end
  end.

Definition slash : ascii := "/"%char.

(** [Project._iid_corpus_name_pair]: without a [/] the name stands alone
    and the corpus is empty. *)
Definition iid_corpus_name_pair (identifier : string) : string * string :=
  match rsplit_once slash (rstrip_char slash identifier) with
  | Some (corpus, name) => (corpus, name)
  | None => (EmptyString, rstrip_char slash identifier)
  end.

(** [Project.corpus] and [Project.name]. *)
Definition Project_corpus (pj : Project) : string :=
  fst (iid_corpus_name_pair (pj_identifier pj)).

Definition Project_name (pj : Project) : string :=
  snd (iid_corpus_name_pair (pj_identifier pj)).

(** [Context.index]: the position of the first product with the route,
    [None] when the loop ends without one. *)
Fixpoint index_from (i : nat) (pds : list Product) (product : string)
  : option nat :=
  match pds with
  | [] => None
  | x :: pds' =>
      if String.eqb (pd_route x) product then Some i
      else index_from (S i) pds' product
  end.

Definition Context_index (ctx : Context) (product : string) : option nat :=
  index_from 0 (product_sequence ctx) product.

(** [Context.iterprojects]: the cached projects in the order of their
    keys. *)
Definition Context_iterprojects (ctx : Context) : list Project :=
  map snd (cached_projects ctx).

(** The context paths of the calls of [inherit] made by the first loop of
    [configure], in the order of the calls. *)
Definition call_names {Value} (calls : list (InheritCall Value))
  : list FactorPath :=
  flat_map (fun c => match call_ctxname c with
                     | Some name => [name]
                     | None => []
                     end) calls.

(** A path encloses another when the other continues it by at least one
    segment. *)
Definition encloses (a b : FactorPath) : Prop :=
  exists r, r <> [] /\ b = a ++ r.

(** The path of a yielded pair, and the pairs that stand for a
    directory classified as context or project. *)
Definition event_path (ev : Event) : FactorPath :=
  match ev with
  | Ev_root fp => fp
  | Ev_context fp => fp
  | Ev_project _ (fp, _) => fp
  end.

Definition is_root_event (ev : Event) : bool :=
  match ev with Ev_root _ => true | _ => false end.

(** A path without a period inside a segment. *)
Definition period_free (p : FactorPath) : bool :=
  forallb (fun seg => negb (contains dot seg)) p.

(** What one classification of a directory [d] yields and pushes, for a
    property [P] of the yielded pairs and a property [Q] of the routes on
    the stack. *)
Definition classified (iscontext : list string -> bool)
  (read_protocol : list string -> option (list string))
  (P : Event -> Prop) (Q : list string -> Prop)
  (as_root : bool) (d : list string) : Prop :=
  (as_root = true -> iscontext d = true \/ read_protocol d <> None ->
   P (Ev_root d)) /\
  (iscontext d = true -> P (Ev_context d) /\ Q d) /\
  (iscontext d = false -> forall id rest,
      read_protocol d = Some (id :: rest) -> P (Ev_project id (d, rest))).

Definition loop_stack_all (Q : list string -> Prop) (l : Loop) : Prop :=
  match l with
  | Continue _ _ stack => Forall Q stack
  | Abort _ _ _ => True
  end.

(** What the scan establishes of a pair before it yields it: a context
    has the context status, a project has not and carries the fields of
    its marker; a root is an explicit root or a classified directory of
    the product; and what is no root lies directly inside a context. *)
Definition event_classified (iscontext : list string -> bool)
  (read_protocol : list string -> option (list string))
  (roots : list FactorPath) (ev : Event) : Prop :=
  match ev with
  | Ev_root fp =>
      In fp roots \/
      (roots = [] /\ List.length fp = 1 /\
       (iscontext fp = true \/ read_protocol fp <> None))
  | Ev_context fp =>
      iscontext fp = true /\
      (In fp roots \/ (roots = [] /\ List.length fp = 1) \/
       iscontext (removelast fp) = true)
  | Ev_project id (fp, rest) =>
      iscontext fp = false /\ read_protocol fp = Some (id :: rest) /\
      (In fp roots \/ (roots = [] /\ List.length fp = 1) \/
       iscontext (removelast fp) = true)
  end.

(** [c * n]: the text of [n] characters [c]. *)
Fixpoint repeat_char (c : ascii) (n : nat) : string :=
  match n with
  | 0 => EmptyString
  | S n' => String c (repeat_char c n')
  end.

(* ================================================================== *)
(** ** Project.select and Project.split *)

Section Factors.
(** [protocol.iterfactors(route, factor)] belongs to the protocol of the
    project (an external collaborator): a sequence of
    [((path, type), data)]. *)
Variable FactorType : Type.
Variable FactorData : Type.
Variable iterfactors :
  Project -> FactorPath -> list ((FactorPath * FactorType) * FactorData).

(** [Project.select]: [((factor//fp[0], fp[1]), fd)]. *)
Definition Project_select (pj : Project) (factor_path : FactorPath)
  : list ((FactorPath * FactorType) * FactorData) :=
  map (fun item => ((factor_path ++ fst (fst item), snd (fst item)), snd item))
      (iterfactors pj factor_path).

(** The loop of [Project.split] over [chain(~fp.container, (types.factor,))],
    with [last] as the loop carries it. *)
Fixpoint split_levels (pj : Project) (xstr : string) (ps : list FactorPath)
  (last : FactorPath) : option (FactorPath * string) :=
  match ps with
  | [] => None
  | p :: ps' =>
      match find (fun item => keq (fst (fst item)) last) (Project_select pj p) with
      | Some ((f, _), _) => Some (f, drop (String.length (fp_str f) + 1) xstr)
      | None => split_levels pj xstr ps' p
      end
  end.

(** [Project.split]. *)
Definition Project_split (pj : Project) (fp : FactorPath)
  : option (FactorPath * string) :=
  split_levels pj (fp_str fp) (ancestry (container fp) ++ [factor]) fp.

(** A path is listed when the protocol gives it among the factors of its
    container. *)
Definition listed (pj : Project) (f : FactorPath) : Prop :=
  exists item, In item (iterfactors pj (container f)) /\
               container f ++ fst (fst item) = f.

End Factors.

Arguments Project_select {FactorType FactorData} iterfactors pj factor_path.
Arguments split_levels {FactorType FactorData} iterfactors pj xstr ps last.
Arguments Project_split {FactorType FactorData} iterfactors pj fp.
Arguments listed {FactorType FactorData} iterfactors pj f.

(* ================================================================== *)
(** ** Product.itercontexts and Product.iterprojects *)

(** How one of the two live scans ends: it returns, it raises the scan
    limit error (or the model runs out of fuel), or the tuple of a
    directory without protocol cannot be built ([None + (d,)], a
    [TypeError]). *)
Inductive LiveEnding : Type :=
| Live_returned
| Live_raised (e : Exception)
| Live_TypeError.

(** A loop of a live scan over the directories of one directory. *)
Inductive Walk (A : Type) : Type :=
| Walk_on (yields : list A) (i : nat) (stack : list (list string))
| Walk_raise (yields : list A) (e : LiveEnding).
Arguments Walk_on {A} yields i stack.
Arguments Walk_raise {A} yields e.

Definition walk_first {A} (ys : list A) (w : Walk A) : Walk A :=
  match w with
  | Walk_on ys' i stack => Walk_on (ys ++ ys') i stack
  | Walk_raise ys' e => Walk_raise (ys ++ ys') e
  end.

Section LiveScans.
Variable fs : Filesystem.
Variable limit : nat.




(** The inner loop of [Product.iterprojects]: a directory without
    protocol that is a context is put on the stack; of any other the
    tuple [p + (d,)] is yielded, which needs a protocol. *)
Fixpoint projects_directory (parent : list string) (names : list string)
  (i : nat) (stack : list (list string))
  : Walk (list string * list string) :=
  match names with
  | [] => Walk_on [] i stack
  | name :: names' =>
      let d := parent ++ [name] in
      let i := i + 1 in
      if Nat.ltb limit i then Walk_raise [] (Live_raised RuntimeError_scan_limit)
      else
        match read_protocol fs d with
        | None =>
            if check_context_status fs d
            then projects_directory parent names' i (stack ++ [d])
            else Walk_raise [] Live_TypeError
        | Some p =>
            walk_first [(p, d)] (projects_directory parent names' i stack)
        end
  end.

Fixpoint projects_stack (fuel : nat) (i : nat) (stack : list (list string))
  : list (list string * list string) * LiveEnding :=
  match stack with
  | [] => ([], Live_returned)
  | current :: stack' =>
      match fuel with
      | 0 => ([], Live_raised OutOfFuel)
      | S fuel' =>
          match projects_directory current (fs_iterfiles fs current) i stack' with
          | Walk_on ys i' st =>
              let (ys', e) := projects_stack fuel' i' st in (ys ++ ys', e)
          | Walk_raise ys e => (ys, e)
          end
      end
  end.

(** [Product.iterprojects(limit, prefix)]: with a protocol in the start
    directory the generator returns at once. *)
Definition Product_iterprojects (prefix : FactorPath)
  : list (list string * list string) * LiveEnding :=
  match read_protocol fs prefix with
  | Some _ => ([], Live_returned)
  | None => projects_stack (1 + limit) 0 [prefix]
  end.

End LiveScans.

(** A cached project is registered in a search path when the product it
    names is one of the path's products and holds the identifier with the
    project's factor path and the name of its protocol. *)
Definition project_registered (seq : list Product) (id : string)
  (pj : Project) : Prop :=
  pj_identifier pj = id /\
  In (pj_product pj) seq /\
  exists proto_id,
    dict_get id (pd_projects (pj_product pj))
      = Some (pj_factor pj, [proto_id]) /\
    import_protocol proto_id = Ok (pj_protocol pj).

(* ================================================================== *)
(** * Properties *)

(** ** Strings and paths *)

#[local] Arguments Ascii.eqb : simpl never.
#[local] Arguments String.eqb : simpl never.

Lemma startswith_app (p t : string) : startswith (p ++ t) p = true.
Proof.
  induction p as [|c p IH]; simpl; [reflexivity|].
  now rewrite Ascii.eqb_refl, IH.
Qed.

Lemma startswith_inv (s p : string) :
  startswith s p = true -> exists t, s = (p ++ t)%string.
Proof.
  revert s; induction p as [|c p IH]; intros s Hs; simpl in *.
  - now exists s.
  - destruct s as [|d s]; [discriminate|].
    apply andb_true_iff in Hs as [Hc Hs].
    apply Ascii.eqb_eq in Hc as ->.
    destruct (IH _ Hs) as [t ->]. now exists t.
Qed.

Lemma string_app_assoc (a b c : string) : ((a ++ b) ++ c = a ++ b ++ c)%string.
Proof. induction a as [|x a IH]; simpl; [reflexivity | now rewrite IH]. Qed.

Lemma string_app_nil_r (a : string) : (a ++ "")%string = a.
Proof. induction a as [|x a IH]; simpl; [reflexivity | now rewrite IH]. Qed.

Lemma string_length_app (a b : string) :
  String.length (a ++ b) = String.length a + String.length b.
Proof. induction a as [|x a IH]; simpl; [reflexivity | now rewrite IH]. Qed.

Lemma drop_app (a b : string) : drop (String.length a) (a ++ b) = b.
Proof. induction a as [|x a IH]; simpl; [reflexivity | exact IH]. Qed.

Lemma segment_ok_inv (seg : string) :
  segment_ok seg = true -> seg <> "" /\ contains dot seg = false.
Proof.
  unfold segment_ok; intros H.
  apply andb_true_iff in H as [H1 H2].
  apply negb_true_iff in H1, H2.
  split; [now apply String.eqb_neq | assumption].
Qed.

Lemma join_cons (sep x : string) (l : list string) :
  l <> [] -> join sep (x :: l) = (x ++ sep ++ join sep l)%string.
Proof. destruct l; [congruence | reflexivity]. Qed.

Lemma join_app (sep : string) (l1 l2 : list string) :
  l1 <> [] -> l2 <> [] ->
  join sep (l1 ++ l2) = (join sep l1 ++ sep ++ join sep l2)%string.
Proof.
  induction l1 as [|x l1 IH]; intros H1 H2; [congruence|].
  destruct l1 as [|y l1].
  - simpl app. now rewrite join_cons.
  - change ((x :: y :: l1) ++ l2) with (x :: (y :: l1) ++ l2).
    rewrite !join_cons by (simpl; congruence).
    rewrite IH by congruence.
    now rewrite !string_app_assoc.
Qed.

(** A period-free segment in front of a period is cut off whole. *)
Lemma split_on_segment (c : ascii) (a s : string) :
  contains c a = false ->
  split_on c (a ++ String c s) = a :: split_on c s.
Proof.
  induction a as [|x a IH]; simpl; intros Ha.
  - now rewrite Ascii.eqb_refl.
  - apply orb_false_iff in Ha as [Hx Ha].
    rewrite Hx, (IH Ha). reflexivity.
Qed.

Lemma split_on_single (c : ascii) (a : string) :
  contains c a = false -> split_on c a = [a].
Proof.
  induction a as [|x a IH]; simpl; intros Ha; [reflexivity|].
  apply orb_false_iff in Ha as [Hx Ha].
  now rewrite Hx, (IH Ha).
Qed.

Lemma fp_str_nonempty (p : FactorPath) :
  wf_path p = true -> p <> [] -> fp_str p <> "".
Proof.
  destruct p as [|a p]; [congruence|]; intros Hwf _.
  simpl in Hwf. apply andb_true_iff in Hwf as [Ha _].
  apply segment_ok_inv in Ha as [Ha _].
  unfold fp_str. destruct p; simpl; destruct a; simpl; congruence.
Qed.

(** The string form round-trips: [types.factor@str(p) == p]. *)
Lemma factor_at_fp_str (p : FactorPath) :
  wf_path p = true -> factor_at (fp_str p) = p.
Proof.
  intros Hwf. destruct p as [|a p]; [reflexivity|].
  assert (Hne : fp_str (a :: p) <> "") by (apply fp_str_nonempty; congruence).
  unfold factor_at. destruct (fp_str (a :: p)) eqn:E; [congruence|].
  rewrite <- E. clear E Hne.
  revert a Hwf; induction p as [|b p IH]; intros a Hwf;
    simpl in Hwf; apply andb_true_iff in Hwf as [Ha Hwf];
    apply segment_ok_inv in Ha as [_ Ha].
  - now apply split_on_single.
  - unfold fp_str. rewrite join_cons by congruence.
    change ("." ++ join "." (b :: p))%string with (String dot (join "." (b :: p))).
    rewrite split_on_segment by assumption.
    f_equal. now apply IH.
Qed.

(** Two period-free segments that start the same dotted text are equal. *)
Lemma segment_prefix_eq (a b t u : string) :
  contains dot a = false -> contains dot b = false ->
  (t = "" \/ exists t', t = String dot t') ->
  startswith (b ++ t) (a ++ String dot u) = true ->
  a = b /\ exists t', t = String dot t' /\ startswith t' u = true.
Proof.
  revert b; induction a as [|x a IH]; intros b Ha Hb Ht Hs.
  - destruct b as [|y b]; simpl in *.
    + destruct Ht as [-> | [t' ->]]; simpl in Hs; [discriminate|].
      split; [reflexivity|]. exists t'. split; [reflexivity|].
      exact Hs.
    + apply andb_true_iff in Hs as [Hy _].
      apply orb_false_iff in Hb as [Hb _]. congruence.
  - simpl in Ha. apply orb_false_iff in Ha as [Hx Ha].
    destruct b as [|y b]; simpl in Hs.
    + destruct Ht as [-> | [t' ->]]; simpl in Hs; [discriminate|].
      apply andb_true_iff in Hs as [Hy _].
      apply Ascii.eqb_eq in Hy. subst x.
      now rewrite Ascii.eqb_refl in Hx.
    + apply andb_true_iff in Hs as [Hy Hs].
      apply Ascii.eqb_eq in Hy as ->.
      simpl in Hb. apply orb_false_iff in Hb as [_ Hb].
      destruct (IH b Ha Hb Ht Hs) as [-> Hr]. split; [reflexivity | exact Hr].
Qed.

(** On well-formed paths the textual test of [Product.split] holds only
    at a segment boundary. *)
Lemma startswith_dotted_inv (x f : FactorPath) :
  wf_path x = true -> wf_path f = true ->
  startswith (fp_str f) (fp_str x ++ ".") = true ->
  exists r, r <> [] /\ f = x ++ r /\ x <> [] /\
            drop (String.length (fp_str x) + 1) (fp_str f) = fp_str r.
Proof.
  revert f; induction x as [|a x IH]; intros f Hx Hf Hs.
  - (* the empty path: the text would start with a period *)
    exfalso. destruct f as [|b f]; [discriminate|].
    simpl in Hf. apply andb_true_iff in Hf as [Hb _].
    apply segment_ok_inv in Hb as [Hb1 Hb2].
    destruct b as [|c b]; [congruence|].
    simpl in Hb2. apply orb_false_iff in Hb2 as [Hc _].
    unfold fp_str in Hs. destruct f; simpl in Hs;
      apply andb_true_iff in Hs as [Hs _]; unfold dot in Hc; congruence.
  - simpl in Hx. apply andb_true_iff in Hx as [Ha Hx].
    apply segment_ok_inv in Ha as [_ Ha].
    destruct f as [|b f]; [destruct a, x; simpl in Hs; discriminate|].
    simpl in Hf. apply andb_true_iff in Hf as [Hb Hf].
    apply segment_ok_inv in Hb as [_ Hb].
    assert (Hform : exists t, fp_str (b :: f) = (b ++ t)%string /\
              (t = "" /\ f = [] \/ f <> [] /\ t = String dot (fp_str f))).
    { destruct f as [|c f].
      - exists "". split; [unfold fp_str; simpl; now rewrite string_app_nil_r|].
        now left.
      - exists (String dot (fp_str (c :: f))). split; [reflexivity|].
        right. split; [congruence | reflexivity]. }
    destruct Hform as [t [Ef Ht]]. rewrite Ef in Hs |- *.
    destruct x as [|a' x].
    + change (fp_str [a] ++ ".")%string with (a ++ ".")%string in Hs.
      change (fp_str [a]) with a.
      change (a ++ ".")%string with (a ++ String dot "")%string in Hs.
      apply segment_prefix_eq in Hs; try assumption.
      2:{ destruct Ht as [[-> _]|[_ ->]]; [now left | right; eauto]. }
      destruct Hs as [-> [t' [-> _]]].
      destruct Ht as [[Ht _]|[Hne Ht]]; [discriminate|].
      injection Ht as ->.
      exists f. repeat split; try congruence.
      replace (String.length b + 1) with (String.length (b ++ ".")%string).
      * change (String dot (fp_str f)) with ("." ++ fp_str f)%string.
        rewrite <- string_app_assoc. apply drop_app.
      * rewrite string_length_app. reflexivity.
    + assert (Ex : fp_str (a :: a' :: x) = (a ++ String dot (fp_str (a' :: x)))%string)
        by reflexivity.
      rewrite Ex in Hs |- *.
      rewrite string_app_assoc in Hs.
      change (String dot (fp_str (a' :: x)) ++ ".")%string
        with (String dot (fp_str (a' :: x) ++ ".")%string) in Hs.
      apply segment_prefix_eq in Hs; try assumption.
      2:{ destruct Ht as [[-> _]|[_ ->]]; [now left | right; eauto]. }
      destruct Hs as [-> [t' [-> Hs]]].
      destruct Ht as [[Ht _]|[Hne Ht]]; [discriminate|].
      injection Ht as ->.
      destruct (IH f Hx Hf Hs) as [r [Hr [-> [_ Hd]]]].
      exists r. repeat split; try congruence.
      rewrite string_length_app. simpl String.length.
      replace (String.length b + S (String.length (fp_str (a' :: x))) + 1)
        with (String.length b + S (String.length (fp_str (a' :: x)) + 1)) by lia.
      rewrite <- Hd.
      generalize (String.length (fp_str (a' :: x)) + 1) as n.
      generalize (fp_str ((a' :: x) ++ r)) as s.
      clear. induction b as [|c b IHb]; intros s n; simpl; [reflexivity | apply IHb].
Qed.

Lemma startswith_dotted_intro (x r : FactorPath) :
  x <> [] -> r <> [] ->
  startswith (fp_str (x ++ r)) (fp_str x ++ ".") = true.
Proof.
  intros Hx Hr. unfold fp_str. rewrite join_app by assumption.
  rewrite <- string_app_assoc. apply startswith_app.
Qed.

(** ** Product.split *)

Lemma dict_mem_keys {K V} `{EqKey K} (k : K) (d : dict K V) :
  dict_mem k d = true <-> In k (dict_keys d).
Proof.
  unfold dict_mem. induction d as [|[k' v] d IH]; simpl.
  - split; [discriminate | tauto].
  - destruct (keq_spec k' k) as [->|Hne].
    + split; auto.
    + rewrite IH. split; [auto | intros [E|E]; [congruence | exact E]].
Qed.

Lemma split_scan_some (keys : list FactorPath) (suffix : string) x r :
  split_scan keys suffix = Some (x, r) ->
  In x keys /\ startswith suffix (fp_str x ++ ".") = true /\
  r = factor_at (drop (String.length (fp_str x) + 1) suffix).
Proof.
  induction keys as [|y keys IH]; simpl; [discriminate|].
  destruct (startswith suffix (fp_str y ++ ".")) eqn:E.
  - intros [= <- <-]. auto.
  - intros Hs. destruct (IH Hs) as [Hin Hrest]. auto.
Qed.

Lemma split_scan_none (keys : list FactorPath) (suffix : string) :
  split_scan keys suffix = None <->
  forall x, In x keys -> startswith suffix (fp_str x ++ ".") = false.
Proof.
  induction keys as [|y keys IH]; simpl.
  - split; [intros _ x [] | reflexivity].
  - destruct (startswith suffix (fp_str y ++ ".")) eqn:E.
    + split; [discriminate|]. intros Hall.
      specialize (Hall y (or_introl eq_refl)). congruence.
    + rewrite IH. split.
      * intros Hall x [<-|Hin]; auto.
      * intros Hall x Hin. auto.
Qed.

(** C5. [Product.split] returns a registered project path [x] and a
    remainder [r] only when the queried path is [x] followed by [r] as
    segments: equal to [x] (the remainder is then the empty path) or an
    extension of [x] at a segment boundary.  It returns [None], the
    no-match value, exactly when no registered path is equal to the query
    or a proper segment prefix of it.  So [a.bc] is not matched under a
    registered [a.b], and [a.b.c] is matched there with remainder [c]. *)
Theorem Product_split_segment_boundary (pd : Product) (fpath : FactorPath) :
  wf_path fpath = true ->
  forallb wf_path (dict_keys (pd_local pd)) = true ->
  (forall x r, Product_split pd (AsPath fpath) = Some (x, r) ->
     In x (dict_keys (pd_local pd)) /\ fpath = x ++ r /\
     (r = factor <-> fpath = x))
  /\ (Product_split pd (AsPath fpath) = None <->
      forall x, In x (dict_keys (pd_local pd)) ->
        fpath <> x /\ (x <> [] -> forall r, r <> [] -> fpath <> x ++ r))
  /\ (forall route limit entry projects contexts roots,
        let pd0 := mkProduct route limit [(["a"; "b"], entry)]
                     projects contexts roots in
        Product_split pd0 (AsPath ["a"; "bc"]) = None /\
        Product_split pd0 (AsPath ["a"; "b"; "c"]) = Some (["a"; "b"], ["c"]) /\
        Product_split pd0 (AsPath ["a"; "b"]) = Some (["a"; "b"], factor)).
Proof.
  intros Hf Hkeys.
  assert (Hwf : forall x, In x (dict_keys (pd_local pd)) -> wf_path x = true).
  { intros x Hx. rewrite forallb_forall in Hkeys. auto. }
  split; [|split].
  - intros x r. simpl.
    destruct (dict_mem fpath (pd_local pd)) eqn:Em.
    + intros [= <- <-]. apply dict_mem_keys in Em.
      rewrite app_nil_r. repeat split; auto.
    + intros Hs. apply split_scan_some in Hs as [Hin [Hs ->]].
      destruct (startswith_dotted_inv x fpath (Hwf x Hin) Hf Hs)
        as [r [Hr [-> [Hx Hd]]]].
      rewrite Hd, factor_at_fp_str.
      * repeat split; auto.
        -- intros ->. now rewrite app_nil_r.
        -- intros E. rewrite <- (app_nil_r x) in E at 2.
           now apply app_inv_head in E.
      * unfold wf_path in Hf. rewrite forallb_app in Hf.
        now apply andb_true_iff in Hf as [_ Hf].
  - simpl. destruct (dict_mem fpath (pd_local pd)) eqn:Em.
    + split; [discriminate|]. intros Hall.
      apply dict_mem_keys in Em. destruct (Hall _ Em) as [Hne _]. congruence.
    + rewrite split_scan_none. split.
      * intros Hall x Hin. split.
        -- intros ->. apply dict_mem_keys in Hin. congruence.
        -- intros Hx r Hr ->.
           pose proof (Hall x Hin) as Hs.
           rewrite startswith_dotted_intro in Hs by assumption.
           discriminate Hs.
      * intros Hall x Hin.
        destruct (startswith (fp_str fpath) (fp_str x ++ ".")) eqn:Es;
          [|reflexivity].
        destruct (startswith_dotted_inv x fpath (Hwf x Hin) Hf Es)
          as [r [Hr [-> [Hx _]]]].
        destruct (Hall x Hin) as [_ Hno]. now destruct (Hno Hx r Hr).
  - intros; subst pd0. repeat split; reflexivity.
Qed.

Lemma Product_split_segment_boundary_witness :
  let pd := mkProduct "/pd" 4096
              [(["a"; "b"], ("id", ["factors/polynomial-1"]))]
              [("id", (["a"; "b"], ["factors/polynomial-1"]))] [] [] in
  wf_path ["a"; "b"; "c"] = true /\
  forallb wf_path (dict_keys (pd_local pd)) = true /\
  Product_split pd (AsPath ["a"; "b"; "c"]) <> None.
Proof.
  intros pd.
  assert (Hf : wf_path ["a"; "b"; "c"] = true) by reflexivity.
  assert (Hk : forallb wf_path (dict_keys (pd_local pd)) = true) by reflexivity.
  split; [exact Hf | split; [exact Hk|]].
  destruct (Product_split_segment_boundary pd ["a"; "b"; "c"] Hf Hk)
    as [_ [Hnone _]].
  intros Hn. destruct Hnone as [Hnone _].
  destruct (Hnone Hn ["a"; "b"] (or_introl eq_refl)) as [_ Hno].
  apply (Hno ltac:(discriminate) ["c"] ltac:(discriminate)). reflexivity.
Defined.

(** ** The scan and its limit *)

Section ScanProps.
Variable iscontext : list string -> bool.
Variable read_protocol : list string -> option (list string).
Variable fs : Filesystem.

Lemma yield_first_counter evs l :
  loop_counter (yield_first evs l) = loop_counter l.
Proof. now destruct l. Qed.

Lemma yield_first_limit_abort evs l :
  loop_limit_abort (yield_first evs l) = loop_limit_abort l.
Proof. now destruct l. Qed.

Lemma project_item_raise fp p e :
  project_item fp p = Raise e -> e = IndexError.
Proof. destruct p; simpl; congruence. Qed.

Lemma scan_directory_counter_ge L as_root parent names :
  forall i stack,
    i <= loop_counter
           (scan_directory iscontext read_protocol L as_root parent names i stack).
Proof.
  induction names as [|name names IH]; intros i stack; simpl; [lia|].
  destruct (Nat.ltb L (i + 1)); simpl; [lia|].
  destruct (contains dot name); [specialize (IH (i + 1) stack); lia|].
  destruct (iscontext (parent ++ [name])).
  - rewrite yield_first_counter.
    specialize (IH (i + 1) (stack ++ [parent ++ [name]])); lia.
  - destruct (read_protocol (parent ++ [name])) as [p|].
    + destruct (project_item (parent ++ [name]) p); simpl; [|lia].
      rewrite yield_first_counter. specialize (IH (i + 1) stack); lia.
    + specialize (IH (i + 1) stack); lia.
Qed.

(** A loop that goes on has counted every directory it pushed. *)
Lemma scan_directory_continue L as_root parent names :
  forall i stack evs i' st,
    scan_directory iscontext read_protocol L as_root parent names i stack
      = Continue evs i' st ->
    i <= L -> i' <= L /\ List.length st + i <= List.length stack + i'.
Proof.
  induction names as [|name names IH]; intros i stack evs i' st; simpl.
  - intros [= _ <- <-] Hi. lia.
  - destruct (Nat.ltb L (i + 1)) eqn:El; [discriminate|].
    apply Nat.ltb_ge in El.
    destruct (contains dot name).
    { intros Hc _. destruct (IH _ _ _ _ _ Hc El). lia. }
    destruct (iscontext (parent ++ [name])).
    { destruct (scan_directory _ _ _ _ _ names (i + 1) _) eqn:Hc;
        simpl; [|discriminate].
      intros [= _ <- <-] _. destruct (IH _ _ _ _ _ Hc El) as [H1 H2].
      rewrite length_app in H2. simpl in H2. lia. }
    destruct (read_protocol (parent ++ [name])) as [p|].
    + destruct (project_item (parent ++ [name]) p); [|discriminate].
      destruct (scan_directory _ _ _ _ _ names (i + 1) _) eqn:Hc;
        simpl; [|discriminate].
      intros [= _ <- <-] _. destruct (IH _ _ _ _ _ Hc El). lia.
    + intros Hc _. destruct (IH _ _ _ _ _ Hc El). lia.
Qed.

Lemma scan_directory_abort L as_root parent names :
  forall i stack evs e c,
    scan_directory iscontext read_protocol L as_root parent names i stack
      = Abort evs e c ->
    e = RuntimeError_scan_limit \/ e = IndexError.
Proof.
  induction names as [|name names IH]; intros i stack evs e c; simpl;
    [discriminate|].
  destruct (Nat.ltb L (i + 1)); [intros [= _ <- _]; now left|].
  destruct (contains dot name); [apply IH|].
  destruct (iscontext (parent ++ [name])).
  { destruct (scan_directory _ _ _ _ _ names (i + 1) _) eqn:Hc;
      simpl; [discriminate|].
    intros [= _ <- _]. eapply IH; eassumption. }
  destruct (read_protocol (parent ++ [name])) as [p|]; [|apply IH].
  destruct (project_item (parent ++ [name]) p) eqn:Ep.
  - destruct (scan_directory _ _ _ _ _ names (i + 1) _) eqn:Hc;
      simpl; [discriminate|].
    intros [= _ <- _]. eapply IH; eassumption.
  - intros [= _ <- _]. right. eapply project_item_raise; eassumption.
Qed.

(** The same loop under two limits: below the count of the first run the
    second raises the limit error; from that count on, and unless the
    first run raised the limit error itself, both runs are the same. *)
Lemma scan_directory_limits L L' as_root parent names :
  forall i stack, i <= L' ->
    let r := scan_directory iscontext read_protocol L as_root parent names i stack in
    let r' := scan_directory iscontext read_protocol L' as_root parent names i stack in
    (L' < loop_counter r ->
       loop_limit_abort r' = true /\ loop_counter r' = L' + 1)
    /\ (loop_counter r <= L' -> loop_limit_abort r = false -> r' = r).
Proof.
  induction names as [|name names IH]; intros i stack Hi; simpl.
  - split; [lia | reflexivity].
  - destruct (Nat.ltb L (i + 1)) eqn:El, (Nat.ltb L' (i + 1)) eqn:El'; simpl.
    + apply Nat.ltb_lt in El'. split; [intros _; split; [reflexivity | lia]|].
      intros _ Habs; discriminate.
    + apply Nat.ltb_ge in El'. split; [lia | intros _ Habs; discriminate].
    + apply Nat.ltb_lt in El'. split; [intros _; split; [reflexivity | lia]|].
      intros Hc _. exfalso. revert Hc.
      match goal with |- loop_counter ?r <= _ -> _ =>
        assert (Hge : i + 1 <= loop_counter r) end.
      { destruct (contains dot name); [apply scan_directory_counter_ge|].
        destruct (iscontext (parent ++ [name]));
          [rewrite yield_first_counter; apply scan_directory_counter_ge|].
        destruct (read_protocol (parent ++ [name])) as [p|];
          [|apply scan_directory_counter_ge].
        destruct (project_item (parent ++ [name]) p); simpl; [|lia].
        rewrite yield_first_counter; apply scan_directory_counter_ge. }
      lia.
    + apply Nat.ltb_ge in El'.
      destruct (contains dot name); [apply IH; exact El'|].
      destruct (iscontext (parent ++ [name])).
      { rewrite !yield_first_counter, !yield_first_limit_abort.
        destruct (IH (i + 1) (stack ++ [parent ++ [name]]) El') as [H1 H2].
        split; [exact H1|]. intros Hc Hl. now rewrite (H2 Hc Hl). }
      destruct (read_protocol (parent ++ [name])) as [p|];
        [|apply IH; exact El'].
      destruct (project_item (parent ++ [name]) p); simpl.
      * rewrite !yield_first_counter, !yield_first_limit_abort.
        destruct (IH (i + 1) stack El') as [H1 H2].
        split; [exact H1|]. intros Hc Hl. now rewrite (H2 Hc Hl).
      * split; [lia | reflexivity].
Qed.

Lemma scan_roots_counter roots :
  forall stack, loop_counter (scan_roots iscontext read_protocol roots stack) = 0.
Proof.
  induction roots as [|fp roots IH]; intros stack; simpl; [reflexivity|].
  destruct (iscontext fp); [now rewrite yield_first_counter|].
  destruct (read_protocol fp) as [p|]; [|now rewrite yield_first_counter].
  destruct (project_item fp p); [now rewrite yield_first_counter | reflexivity].
Qed.

Lemma scan_roots_abort roots :
  forall stack evs e c,
    scan_roots iscontext read_protocol roots stack = Abort evs e c ->
    e = IndexError.
Proof.
  induction roots as [|fp roots IH]; intros stack evs e c; simpl;
    [discriminate|].
  destruct (iscontext fp).
  { destruct (scan_roots _ _ roots _) eqn:Hc; simpl; [discriminate|].
    intros [= _ <- _]. eapply IH; eassumption. }
  destruct (read_protocol fp) as [p|].
  - destruct (project_item fp p) eqn:Ep.
    + destruct (scan_roots _ _ roots _) eqn:Hc; simpl; [discriminate|].
      intros [= _ <- _]. eapply IH; eassumption.
    + intros [= _ <- _]. eapply project_item_raise; eassumption.
  - destruct (scan_roots _ _ roots _) eqn:Hc; simpl; [discriminate|].
    intros [= _ <- _]. eapply IH; eassumption.
Qed.

(** *** Fuel *)

Lemma scan_stack_nil L fuel i :
  scan_stack iscontext read_protocol fs L fuel i [] = mkRun [] Returned i.
Proof. now destruct fuel. Qed.

Lemma scan_stack_fuel_enough L :
  forall fuel i stack,
    i <= L -> List.length stack + (L - i) <= fuel ->
    ending (scan_stack iscontext read_protocol fs L fuel i stack)
      <> Raised OutOfFuel.
Proof.
  induction fuel as [|fuel IH]; intros i stack Hi Hf.
  - destruct stack; simpl in *; [discriminate | lia].
  - destruct stack as [|current stack]; simpl; [discriminate|].
    destruct (scan_directory _ _ _ _ _ _ _ _) as [evs i' st|evs e c] eqn:Hd;
      simpl.
    + destruct (scan_directory_continue _ _ _ _ _ _ _ _ _ Hd Hi) as [H1 H2].
      apply IH; [exact H1|]. simpl in Hf. lia.
    + destruct (scan_directory_abort _ _ _ _ _ _ _ _ _ Hd) as [-> | ->]; discriminate.
Qed.

Lemma scan_stack_fuel_mono L :
  forall fuel fuel' i stack,
    ending (scan_stack iscontext read_protocol fs L fuel i stack)
      <> Raised OutOfFuel ->
    fuel <= fuel' ->
    scan_stack iscontext read_protocol fs L fuel' i stack
    = scan_stack iscontext read_protocol fs L fuel i stack.
Proof.
  induction fuel as [|fuel IH]; intros fuel' i stack Hne Hle.
  - destruct stack; simpl in *; [now destruct fuel' | congruence].
  - destruct fuel' as [|fuel']; [lia|].
    destruct stack as [|current stack]; simpl in *; [reflexivity|].
    destruct (scan_directory _ _ _ _ _ _ _ _) as [evs i' st|evs e c];
      [|reflexivity].
    simpl in Hne. rewrite (IH fuel' i' st Hne); [reflexivity | lia].
Qed.

(** The [while] loop under two limits and the same fuel. *)
Lemma scan_stack_limits L L' :
  forall fuel i stack,
    i <= L' ->
    L' < inspected (scan_stack iscontext read_protocol fs L fuel i stack) ->
    ending (scan_stack iscontext read_protocol fs L' fuel i stack)
      = Raised RuntimeError_scan_limit.
Proof.
  induction fuel as [|fuel IH]; intros i stack Hi Hlt.
  - destruct stack; simpl in *; lia.
  - destruct stack as [|current stack]; simpl in *; [lia|].
    destruct (scan_directory_limits L L' false current
                (fs_iterfiles fs current) i stack Hi) as [H1 H2].
    destruct (scan_directory _ _ L _ _ _ _ _) as [evs i' st|evs e c] eqn:Hd;
      simpl in *.
    + destruct (Nat.lt_ge_cases L' i') as [Hc|Hc].
      * destruct (H1 Hc) as [Ha _].
        destruct (scan_directory _ _ L' _ _ _ _ _) as [|evs' e' c'];
          [discriminate|].
        simpl. destruct e'; try discriminate. reflexivity.
      * rewrite (H2 Hc eq_refl). simpl. apply IH; assumption.
    + destruct (H1 Hlt) as [Ha _].
      destruct (scan_directory _ _ L' _ _ _ _ _) as [|evs' e' c'];
        [discriminate|].
      simpl. destruct e'; try discriminate. reflexivity.
Qed.

(** The scan always ends: the fuel of the model never runs out. *)
Lemma scan_product_directory_total L roots :
  ending (scan_product_directory iscontext read_protocol fs L roots)
    <> Raised OutOfFuel.
Proof.
  unfold scan_product_directory.
  destruct roots as [|fp roots].
  - destruct (scan_directory _ _ _ _ _ _ _ _) as [evs i st|evs e c] eqn:Hd.
    + destruct (scan_directory_continue _ _ _ _ _ _ _ _ _ Hd (Nat.le_0_l L)).
      simpl. apply scan_stack_fuel_enough; [assumption | lia].
    + destruct (scan_directory_abort _ _ _ _ _ _ _ _ _ Hd) as [-> | ->]; discriminate.
  - pose proof (scan_roots_counter (fp :: roots) []) as Hc.
    destruct (scan_roots _ _ _ _) as [evs i st|evs e c] eqn:Hd.
    + simpl in Hc. subst i.
      simpl. apply scan_stack_fuel_enough; lia.
    + apply scan_roots_abort in Hd as ->. discriminate.
Qed.

(** A scan that counts more than [L'] directories under some limit [L]
    raises the limit error under the limit [L']. *)
Lemma scan_product_directory_limits L L' roots :
  L' < inspected (scan_product_directory iscontext read_protocol fs L roots) ->
  ending (scan_product_directory iscontext read_protocol fs L' roots)
    = Raised RuntimeError_scan_limit.
Proof.
  assert (Hstack : forall i st,
    i <= L -> i <= L' ->
    L' < inspected (scan_stack iscontext read_protocol fs L
                      (List.length st + L) i st) ->
    ending (scan_stack iscontext read_protocol fs L'
              (List.length st + L') i st) = Raised RuntimeError_scan_limit).
  { intros i st HiL HiL' Hlt.
    set (F := List.length st + L + L').
    rewrite <- (scan_stack_fuel_mono L' (List.length st + L') F i st);
      [|apply scan_stack_fuel_enough; [assumption | lia] | unfold F; lia].
    apply scan_stack_limits with (L := L); [assumption|].
    rewrite (scan_stack_fuel_mono L (List.length st + L) F i st);
      [assumption | apply scan_stack_fuel_enough; [assumption | lia]
      | unfold F; lia]. }
  unfold scan_product_directory.
  destruct roots as [|fp roots].
  - destruct (scan_directory_limits L L' true [] (fs_iterfiles fs []) 0 []
                (Nat.le_0_l L')) as [H1 H2].
    destruct (scan_directory _ _ L _ _ _ _ _) as [evs i st|evs e c] eqn:Hd;
      simpl in *.
    + intros Hlt.
      destruct (scan_directory_continue _ _ _ _ _ _ _ _ _ Hd (Nat.le_0_l L)) as [HiL _].
      destruct (Nat.lt_ge_cases L' i) as [Hc|Hc].
      * destruct (H1 Hc) as [Ha _].
        destruct (scan_directory _ _ L' _ _ _ _ _) as [|evs' e' c'];
          [discriminate|].
        simpl. destruct e'; try discriminate. reflexivity.
      * rewrite (H2 Hc eq_refl). simpl. now apply Hstack.
    + intros Hlt. destruct (H1 Hlt) as [Ha _].
      destruct (scan_directory _ _ L' _ _ _ _ _) as [|evs' e' c'];
        [discriminate|].
      simpl. destruct e'; try discriminate. reflexivity.
  - pose proof (scan_roots_counter (fp :: roots) []) as Hc.
    destruct (scan_roots _ _ _ _) as [evs i st|evs e c] eqn:Hd;
      simpl in Hc; subst; simpl.
    + intros Hlt. apply Hstack; [lia | lia | assumption].
    + lia.
Qed.

End ScanProps.

(** ** Dictionaries and sets *)

Section DictProps.
Context {K V : Type} `{EqKey K}.

Lemma dict_get_in (k : K) (v : V) (d : dict K V) :
  dict_get k d = Some v -> In (k, v) d.
Proof.
  induction d as [|[k' v'] d IH]; simpl; [discriminate|].
  destruct (keq_spec k' k) as [->|Hne].
  - intros [= ->]. now left.
  - intros Hg. right. auto.
Qed.

Lemma dict_get_none (k : K) (d : dict K V) :
  dict_get k d = None <-> ~ In k (dict_keys d).
Proof.
  induction d as [|[k' v'] d IH]; simpl; [tauto|].
  destruct (keq_spec k' k) as [->|Hne].
  - split; [discriminate | intros Hn; exfalso; auto].
  - rewrite IH. tauto.
Qed.

Lemma dict_in_get (k : K) (v : V) (d : dict K V) :
  NoDup (dict_keys d) -> In (k, v) d -> dict_get k d = Some v.
Proof.
  induction d as [|[k' v'] d IH]; simpl; [tauto|].
  intros Hnd Hin. inversion Hnd as [|? ? Hk Hnd']; subst.
  destruct Hin as [[= -> ->]|Hin].
  - now rewrite keq_refl.
  - destruct (keq_spec k' k) as [->|Hne]; [|auto].
    exfalso. apply Hk. apply (in_map fst) in Hin. exact Hin.
Qed.

Lemma dict_get_set (k k0 : K) (v0 : V) (d : dict K V) :
  dict_get k (dict_set k0 v0 d) = if keq k0 k then Some v0 else dict_get k d.
Proof.
  induction d as [|[k' v'] d IH]; simpl.
  - reflexivity.
  - destruct (keq_spec k' k0) as [->|Hne]; simpl.
    + destruct (keq k0 k); reflexivity.
    + destruct (keq_spec k' k) as [->|Hne'].
      * destruct (keq_spec k0 k) as [->|_]; congruence.
      * exact IH.
Qed.

Lemma dict_keys_set (k0 : K) (v0 : V) (d : dict K V) :
  dict_keys (dict_set k0 v0 d)
  = if dict_mem k0 d then dict_keys d else dict_keys d ++ [k0].
Proof.
  unfold dict_mem. induction d as [|[k' v'] d IH]; simpl; [reflexivity|].
  destruct (keq_spec k' k0) as [->|Hne]; simpl; [reflexivity|].
  rewrite IH. now destruct (dict_get k0 d).
Qed.

Lemma dict_set_nodup (k0 : K) (v0 : V) (d : dict K V) :
  NoDup (dict_keys d) -> NoDup (dict_keys (dict_set k0 v0 d)).
Proof.
  intros Hnd. rewrite dict_keys_set. unfold dict_mem.
  destruct (dict_get k0 d) eqn:E; [exact Hnd|].
  apply dict_get_none in E.
  apply NoDup_app; [exact Hnd | repeat constructor; simpl; tauto|].
  intros x Hx [<-|[]]. contradiction.
Qed.

Lemma dict_update_nodup (items : list (K * V)) :
  forall d, NoDup (dict_keys d) -> NoDup (dict_keys (dict_update d items)).
Proof.
  induction items as [|[k v] items IH]; intros d Hnd; simpl; [exact Hnd|].
  apply IH. now apply dict_set_nodup.
Qed.

Lemma dict_of_list_nodup (items : list (K * V)) :
  NoDup (dict_keys (dict_of_list items)).
Proof. apply dict_update_nodup. constructor. Qed.

(** The value of a key after [dict(items)] is that of its last item. *)
Lemma dict_get_update (k : K) (items : list (K * V)) :
  forall d,
    dict_get k (dict_update d items)
    = match dict_get k (rev items) with
      | Some v => Some v
      | None => dict_get k d
      end.
Proof.
  induction items as [|[k0 v0] items IH]; intros d; simpl; [reflexivity|].
  unfold dict_update in IH |- *. simpl. rewrite IH, dict_get_set.
  assert (Happ : forall l : dict K V,
             dict_get k (l ++ [(k0, v0)])
             = match dict_get k l with
               | Some v => Some v
               | None => if keq k0 k then Some v0 else None
               end).
  { induction l as [|[k1 v1] l IHl]; simpl; [reflexivity|].
    destruct (keq k1 k); [reflexivity | exact IHl]. }
  rewrite Happ. destruct (dict_get k (rev items)); [reflexivity|].
  destruct (keq k0 k); reflexivity.
Qed.

Lemma dict_get_of_list (k : K) (items : list (K * V)) :
  dict_get k (dict_of_list items) = dict_get k (rev items).
Proof.
  unfold dict_of_list. rewrite dict_get_update.
  now destruct (dict_get k (rev items)).
Qed.

Lemma dict_of_list_get_in (k : K) (v : V) (items : list (K * V)) :
  dict_get k (dict_of_list items) = Some v -> In (k, v) items.
Proof.
  rewrite dict_get_of_list. intros Hg.
  apply dict_get_in in Hg. now apply in_rev.
Qed.

(** A key whose items all carry one value gets that value. *)
Lemma dict_of_list_functional (k : K) (v : V) (items : list (K * V)) :
  In (k, v) items ->
  (forall v', In (k, v') items -> v' = v) ->
  dict_get k (dict_of_list items) = Some v.
Proof.
  intros Hin Hfun. rewrite dict_get_of_list.
  destruct (dict_get k (rev items)) as [v'|] eqn:E.
  - apply dict_get_in, in_rev, Hfun in E. now subst.
  - apply dict_get_none in E. exfalso. apply E.
    apply in_rev in Hin. apply (in_map fst) in Hin. exact Hin.
Qed.

Lemma dict_equiv_perm (d1 d2 : dict K V) :
  NoDup (dict_keys d1) -> Permutation d1 d2 -> dict_equiv d1 d2.
Proof.
  intros Hnd Hp k.
  assert (Hnd2 : NoDup (dict_keys d2)).
  { eapply Permutation_NoDup; [|exact Hnd]. now apply Permutation_map. }
  destruct (dict_get k d1) as [v|] eqn:E1.
  - symmetry. apply dict_in_get; [exact Hnd2|].
    eapply Permutation_in; [exact Hp|]. now apply dict_get_in.
  - destruct (dict_get k d2) as [v|] eqn:E2; [|reflexivity].
    apply dict_get_in in E2. apply Permutation_sym in Hp.
    apply (Permutation_in _ Hp) in E2.
    apply dict_in_get in E2; [congruence | exact Hnd].
Qed.

Lemma dict_of_list_nodup_id (items : list (K * V)) :
  NoDup (map fst items) -> dict_equiv (dict_of_list items) items.
Proof.
  intros Hnd k. rewrite dict_get_of_list.
  apply dict_equiv_perm.
  - unfold dict_keys. rewrite map_rev.
    eapply Permutation_NoDup; [apply Permutation_rev | exact Hnd].
  - apply Permutation_sym, Permutation_rev.
Qed.

End DictProps.

Lemma set_add_in {K} `{EqKey K} (x y : K) (s : list K) :
  In y (set_add x s) <-> y = x \/ In y s.
Proof.
  induction s as [|z s IH]; simpl; [intuition|].
  destruct (keq_spec z x) as [->|Hne]; simpl; [intuition|].
  rewrite IH. intuition.
Qed.

Lemma set_of_list_in {K} `{EqKey K} (y : K) (items : list K) :
  In y (set_of_list items) <-> In y items.
Proof.
  unfold set_of_list.
  assert (Hgen : forall acc,
             In y (fold_left (fun acc x => set_add x acc) items acc)
             <-> In y acc \/ In y items).
  { induction items as [|x items IH]; intros acc; simpl; [tauto|].
    rewrite IH, set_add_in. intuition. }
  rewrite Hgen. simpl. tauto.
Qed.

(** ** Sorting *)

Lemma sort_insert_perm {A} (le : A -> A -> bool) (x : A) (l : list A) :
  Permutation (sort_insert le x l) (x :: l).
Proof.
  induction l as [|y l IH]; simpl; [reflexivity|].
  destruct (le x y); [reflexivity|].
  rewrite IH. apply perm_swap.
Qed.

Lemma py_sort_perm {A} (le : A -> A -> bool) (l : list A) :
  Permutation (py_sort le l) l.
Proof.
  induction l as [|x l IH]; simpl; [reflexivity|].
  rewrite sort_insert_perm. now constructor.
Qed.

(** ** Product.update *)

Section ScanEvents.
Variable iscontext : list string -> bool.
Variable read_protocol : list string -> option (list string).
Variable fs : Filesystem.

Lemma loop_events_yield_first evs l :
  loop_events (yield_first evs l) = evs ++ loop_events l.
Proof. now destruct l. Qed.

Lemma project_item_read fp p ev :
  read_protocol fp = Some p -> project_item fp p = Ok ev ->
  project_read read_protocol ev.
Proof.
  destruct p as [|id rest]; simpl; [discriminate|].
  intros Hr [= <-]. exact Hr.
Qed.

Lemma scan_roots_read roots :
  forall stack,
    Forall (project_read read_protocol)
      (loop_events (scan_roots iscontext read_protocol roots stack)).
Proof.
  induction roots as [|fp roots IH]; intros stack; simpl; [constructor|].
  destruct (iscontext fp).
  { rewrite loop_events_yield_first. repeat constructor. apply IH. }
  destruct (read_protocol fp) as [p|] eqn:Er.
  - destruct (project_item fp p) eqn:Ep; simpl.
    + rewrite loop_events_yield_first. repeat constructor.
      * eapply project_item_read; eassumption.
      * apply IH.
    + repeat constructor.
  - rewrite loop_events_yield_first. repeat constructor. apply IH.
Qed.

Lemma scan_directory_read L as_root parent names :
  forall i stack,
    Forall (project_read read_protocol)
      (loop_events
         (scan_directory iscontext read_protocol L as_root parent names i stack)).
Proof.
  induction names as [|name names IH]; intros i stack; simpl; [constructor|].
  destruct (Nat.ltb L (i + 1)); [constructor|].
  destruct (contains dot name); [apply IH|].
  assert (Hroot : Forall (project_read read_protocol)
            (if as_root then [Ev_root (parent ++ [name])] else [])).
  { destruct as_root; repeat constructor. }
  destruct (iscontext (parent ++ [name])).
  { rewrite loop_events_yield_first. rewrite !Forall_app.
    repeat split; [exact Hroot | repeat constructor | apply IH]. }
  destruct (read_protocol (parent ++ [name])) as [p|] eqn:Er; [|apply IH].
  destruct (project_item (parent ++ [name]) p) eqn:Ep; simpl; [|exact Hroot].
  rewrite loop_events_yield_first. rewrite !Forall_app.
  repeat split; [exact Hroot | | apply IH].
  repeat constructor. eapply project_item_read; eassumption.
Qed.

Lemma scan_stack_read L :
  forall fuel i stack,
    Forall (project_read read_protocol)
      (yielded (scan_stack iscontext read_protocol fs L fuel i stack)).
Proof.
  induction fuel as [|fuel IH]; intros i stack.
  - destruct stack; constructor.
  - destruct stack as [|current stack]; simpl; [constructor|].
    pose proof (scan_directory_read L false current
                  (fs_iterfiles fs current) i stack) as Hd.
    destruct (scan_directory _ _ _ _ _ _ _ _) as [evs i' st|evs e c];
      simpl in *; [|exact Hd].
    rewrite Forall_app. split; [exact Hd | apply IH].
Qed.

(** Every project the scan yields was read from the marker of its path. *)
Lemma scan_product_directory_read L roots :
  Forall (project_read read_protocol)
    (yielded (scan_product_directory iscontext read_protocol fs L roots)).
Proof.
  unfold scan_product_directory.
  destruct roots as [|fp roots].
  - pose proof (scan_directory_read L true [] (fs_iterfiles fs []) 0 []) as Hd.
    destruct (scan_directory _ _ _ _ _ _ _ _) as [evs i st|evs e c];
      simpl in *; [|exact Hd].
    rewrite Forall_app. split; [exact Hd | apply scan_stack_read].
  - pose proof (scan_roots_read (fp :: roots) []) as Hd.
    destruct (scan_roots _ _ _ _) as [evs i st|evs e c];
      simpl in *; [|exact Hd].
    rewrite Forall_app. split; [exact Hd | apply scan_stack_read].
Qed.

End ScanEvents.

Lemma slot_project_in evs id entry :
  In (id, entry) (slot_project evs) <-> In (Ev_project id entry) evs.
Proof.
  unfold slot_project. rewrite in_flat_map. split.
  - intros [ev [Hin Hev]]. destruct ev; simpl in Hev; try tauto.
    destruct Hev as [[= <- <-]|[]]. exact Hin.
  - intros Hin. exists (Ev_project id entry). split; [exact Hin | now left].
Qed.

(** *** The local table as the inverse of the projects table *)

Lemma local_items_in (prj : dict string ProjectEntry) path id rest :
  In (path, (id, rest))
     (map (fun kv => (fst (snd kv), (fst kv, snd (snd kv)))) prj)
  <-> In (id, (path, rest)) prj.
Proof.
  rewrite in_map_iff. split.
  - intros [[id' [path' rest']] [[= <- <- <-] Hin]]. exact Hin.
  - intros Hin. exists (id, (path, rest)). split; [reflexivity | exact Hin].
Qed.

Lemma local_entry_registered (prj : dict string ProjectEntry) path id rest :
  NoDup (dict_keys prj) ->
  dict_get path (local_of_projects prj) = Some (id, rest) ->
  dict_get id prj = Some (path, rest).
Proof.
  intros Hnd Hg. unfold local_of_projects in Hg.
  apply dict_of_list_get_in, local_items_in in Hg.
  now apply dict_in_get.
Qed.

Lemma projects_entry_local (prj : dict string ProjectEntry) path id rest :
  dict_get id prj = Some (path, rest) ->
  (forall id' rest', dict_get id' prj = Some (path, rest') -> id' = id) ->
  NoDup (dict_keys prj) ->
  dict_get path (local_of_projects prj) = Some (id, rest).
Proof.
  intros Hg Huniq Hnd. unfold local_of_projects.
  apply dict_of_list_functional.
  - apply local_items_in. now apply dict_get_in.
  - intros [id' rest'] Hin. apply local_items_in in Hin.
    apply dict_in_get in Hin; [|exact Hnd].
    assert (E : id' = id) by (eapply Huniq; eassumption).
    subst id'. rewrite Hg in Hin. now injection Hin as <-.
Qed.

(** What [update] leaves in the tables when it returns. *)
Lemma Product_update_tables fs pd pd' :
  Product_update fs pd = (pd', Returned) ->
  exists evs,
    Forall (project_read (read_protocol fs)) evs /\
    pd_projects pd' = dict_of_list (slot_project evs) /\
    pd_local pd' = local_of_projects (pd_projects pd') /\
    pd_contexts pd' = set_of_list (slot_context evs) /\
    pd_roots pd' = set_of_list (slot_root evs).
Proof.
  unfold Product_update.
  pose proof (scan_product_directory_read (check_context_status fs)
                (read_protocol fs) fs (pd_limit pd) (pd_roots pd)) as Hread.
  destruct (scan_product_directory _ _ _ _ _) as [evs e n]; simpl in *.
  destruct e; [|discriminate].
  intros [= <-]. exists evs. simpl. auto.
Qed.

Lemma Product_update_path_unique fs pd pd' path id id' rest rest' :
  Product_update fs pd = (pd', Returned) ->
  dict_get id (pd_projects pd') = Some (path, rest) ->
  dict_get id' (pd_projects pd') = Some (path, rest') ->
  id' = id /\ rest' = rest.
Proof.
  intros Hu Hg Hg'.
  destruct (Product_update_tables _ _ _ Hu) as [evs [Hread [Hp _]]].
  rewrite Hp in Hg, Hg'.
  apply dict_of_list_get_in, slot_project_in in Hg, Hg'.
  rewrite Forall_forall in Hread.
  apply Hread in Hg, Hg'. simpl in Hg, Hg'. split; congruence.
Qed.

Lemma Product_load_tables cache pd pd' :
  Product_load cache pd = (pd', Returned) ->
  exists items,
    pd_projects pd' = dict_of_list items /\
    pd_local pd' = local_of_projects (pd_projects pd').
Proof.
  unfold Product_load.
  destruct (fs_open_read (PROJECTS cache)) as [t1|]; simpl; [|discriminate].
  destruct (parse_project_index (readlines t1)) as [items|]; simpl;
    [|discriminate].
  destruct (fs_open_read (CONTEXTS cache)) as [t2|]; simpl; [|discriminate].
  destruct (fs_open_read (ROOTS cache)) as [t3|]; simpl; [|discriminate].
  intros [= <-]. exists items. simpl. auto.
Qed.

(** ** Fields, lines and the index files *)

Lemma word_inv (w : string) :
  word w = true -> w <> "" /\ no_space w = true.
Proof.
  unfold word, nonempty. intros Hw.
  apply andb_true_iff in Hw as [Hn Hs].
  apply negb_true_iff, String.eqb_neq in Hn. auto.
Qed.

Lemma no_space_app (a b : string) :
  no_space (a ++ b) = no_space a && no_space b.
Proof.
  induction a as [|c a IH]; simpl; [reflexivity|].
  now rewrite IH, andb_assoc.
Qed.

(** A word in front of the end or of whitespace is one field. *)
Lemma py_split_word (w t : string) :
  word w = true ->
  (t = "" \/ exists d t', t = String d t' /\ is_space d = true) ->
  py_split (w ++ t) = w :: py_split t.
Proof.
  intros Hw Ht. apply word_inv in Hw as [Hne Hs].
  induction w as [|c w IH]; [congruence|]. clear Hne.
  simpl in Hs. apply andb_true_iff in Hs as [Hc Hs].
  apply negb_true_iff in Hc.
  change (String c w ++ t)%string with (String c (w ++ t)).
  cbn [py_split]. rewrite Hc.
  destruct w as [|c' w].
  - simpl. destruct Ht as [->|[d [t' [-> Hd]]]]; [reflexivity|].
    now rewrite Hd.
  - change (String c' w ++ t)%string with (String c' (w ++ t)) in *.
    pose proof Hs as Hs'. simpl in Hs'.
    apply andb_true_iff in Hs' as [Hc' _]. apply negb_true_iff in Hc'.
    rewrite Hc'. rewrite IH by (congruence || assumption). reflexivity.
Qed.

Lemma py_split_join (c : ascii) (fields : list string) :
  is_space c = true ->
  forallb word fields = true ->
  py_split (join (String c "") fields) = fields.
Proof.
  intros Hc. induction fields as [|w fields IH]; intros Hw; [reflexivity|].
  simpl in Hw. apply andb_true_iff in Hw as [Hw Hws].
  destruct fields as [|w' fields].
  - simpl. rewrite <- (string_app_nil_r w) at 1.
    rewrite py_split_word; auto.
  - rewrite join_cons by congruence.
    rewrite py_split_word; [|exact Hw | right; simpl; eauto].
    change (String c "" ++ join (String c "") (w' :: fields))%string
      with (String c (join (String c "") (w' :: fields))).
    cbn [py_split]. rewrite Hc. now rewrite IH.
Qed.

(** Every field that [split] returns is a word. *)
Lemma py_split_words (s : string) : forallb word (py_split s) = true.
Proof.
  induction s as [|c s IH]; [reflexivity|].
  cbn [py_split]. destruct (is_space c) eqn:Hc; [exact IH|].
  destruct s as [|d s].
  - simpl. unfold word. simpl. now rewrite Hc.
  - destruct (is_space d) eqn:Hd.
    + cbn [forallb]. rewrite IH. unfold word. simpl. now rewrite Hc.
    + destruct (py_split (String d s)) as [|w ws].
      * unfold word. simpl. now rewrite Hc.
      * cbn [forallb] in *. apply andb_true_iff in IH as [Hw Hws].
        rewrite Hws, andb_true_r.
        apply word_inv in Hw as [_ Hw].
        unfold word. simpl. now rewrite Hc, Hw.
Qed.

Lemma lstrip_word_head (w t : string) :
  word w = true -> lstrip (w ++ t) = (w ++ t)%string.
Proof.
  intros Hw. apply word_inv in Hw as [Hne Hs].
  destruct w as [|c w]; [congruence|].
  simpl in *. apply andb_true_iff in Hs as [Hc _].
  apply negb_true_iff in Hc. now rewrite Hc.
Qed.

Lemma rstrip_word (w : string) : no_space w = true -> rstrip w = w.
Proof.
  induction w as [|c w IH]; simpl; [reflexivity|].
  intros Hs. apply andb_true_iff in Hs as [Hc Hs].
  apply negb_true_iff in Hc. rewrite (IH Hs), Hc. now destruct w.
Qed.

Lemma rstrip_app (a b : string) :
  rstrip b <> "" -> rstrip (a ++ b) = (a ++ rstrip b)%string.
Proof.
  intros Hb. induction a as [|c a IH]; simpl; [reflexivity|].
  rewrite IH. destruct (a ++ rstrip b)%string eqn:E; [|reflexivity].
  destruct a; simpl in E; [congruence | discriminate].
Qed.

(** The newline of a line is stripped, and nothing else of a text that
    [rstrip] leaves alone. *)
Lemma rstrip_line (t : string) : rstrip t = t -> rstrip (line t) = t.
Proof.
  unfold line. induction t as [|c t IH]; [reflexivity|].
  simpl. destruct (rstrip t) as [|r0 r] eqn:Er.
  - destruct (is_space c); [discriminate|].
    intros [= <-]. simpl. destruct (is_space c); congruence.
  - intros [= Et]. rewrite IH by now rewrite Et.
    rewrite <- Et. reflexivity.
Qed.

Lemma rstrip_join_words (fields : list string) :
  forallb word fields = true ->
  rstrip (join " " fields) = join " " fields.
Proof.
  induction fields as [|w fields IH]; intros Hw; [reflexivity|].
  simpl in Hw. apply andb_true_iff in Hw as [Hw Hws].
  destruct fields as [|w' fields].
  - simpl. apply rstrip_word. now apply word_inv in Hw.
  - rewrite join_cons by congruence.
    assert (Hne : join " " (w' :: fields) <> "").
    { simpl in Hws. apply andb_true_iff in Hws as [Hw' _].
      apply word_inv in Hw' as [Hne' _].
      destruct fields; simpl; destruct w'; simpl; congruence. }
    rewrite rstrip_app; rewrite rstrip_app; rewrite (IH Hws);
      try reflexivity; try assumption.
    destruct (join " " (w' :: fields)); simpl; congruence.
Qed.

(** [l.strip()] of a written line is the joined fields. *)
Lemma py_strip_line (fields : list string) :
  fields <> [] -> forallb word fields = true ->
  py_strip (line (join " " fields)) = join " " fields.
Proof.
  intros Hne Hw. unfold py_strip.
  assert (Hl : lstrip (line (join " " fields)) = line (join " " fields)).
  { destruct fields as [|w fields]; [congruence|].
    simpl in Hw. apply andb_true_iff in Hw as [Hw _].
    unfold line. destruct fields as [|w' fields].
    - simpl. now apply lstrip_word_head.
    - rewrite join_cons by congruence. rewrite !string_app_assoc.
      now apply lstrip_word_head. }
  rewrite Hl. apply rstrip_line. now apply rstrip_join_words.
Qed.

Lemma contains_app (c : ascii) (a b : string) :
  contains c (a ++ b) = contains c a || contains c b.
Proof.
  induction a as [|x a IH]; simpl; [reflexivity|].
  now rewrite IH, orb_assoc.
Qed.

(** [readlines] gives back the lines that [writelines] wrote. *)
Lemma readlines_line (t rest : string) :
  contains newline t = false ->
  readlines (line t ++ rest) = line t :: readlines rest.
Proof.
  unfold line. induction t as [|c t IH]; simpl; intros Hc.
  - reflexivity.
  - apply orb_false_iff in Hc as [Hc Ht].
    rewrite Hc, (IH Ht). reflexivity.
Qed.

Lemma readlines_writelines (texts : list string) :
  forallb (fun t => negb (contains newline t)) texts = true ->
  readlines (writelines (map line texts)) = map line texts.
Proof.
  unfold writelines.
  induction texts as [|t texts IH]; intros Hall; [reflexivity|].
  simpl in Hall. apply andb_true_iff in Hall as [Ht Hall].
  apply negb_true_iff in Ht.
  assert (Hcat : String.concat "" (map line (t :: texts))
                 = (line t ++ String.concat "" (map line texts))%string).
  { simpl. destruct (map line texts) eqn:E; simpl.
    - now rewrite string_app_nil_r.
    - reflexivity. }
  rewrite Hcat, readlines_line by assumption.
  simpl. now rewrite IH.
Qed.

(** ** store and load *)

Lemma no_space_no_newline (s : string) :
  no_space s = true -> contains newline s = false.
Proof.
  induction s as [|c s IH]; simpl; [reflexivity|].
  intros Hs. apply andb_true_iff in Hs as [Hc Hs].
  rewrite (IH Hs), orb_false_r.
  destruct (Ascii.eqb_spec c newline) as [->|]; [discriminate | reflexivity].
Qed.

Lemma no_space_join_dot (p : list string) :
  forallb no_space p = true -> no_space (join "." p) = true.
Proof.
  induction p as [|a p IH]; intros Hp; [reflexivity|].
  simpl in Hp. apply andb_true_iff in Hp as [Ha Hp].
  destruct p as [|b p]; [exact Ha|].
  rewrite join_cons by congruence.
  rewrite !no_space_app, Ha, (IH Hp). reflexivity.
Qed.

Lemma path_storable_inv (p : FactorPath) :
  path_storable p = true ->
  p <> [] /\ wf_path p = true /\ forallb no_space p = true.
Proof.
  unfold path_storable. intros H.
  apply andb_true_iff in H as [H H3]. apply andb_true_iff in H as [H1 H2].
  repeat split; try assumption. destruct p; [discriminate | congruence].
Qed.

(** The string form of a storable path is one field. *)
Lemma fp_str_word (p : FactorPath) :
  path_storable p = true -> word (fp_str p) = true.
Proof.
  intros Hp. apply path_storable_inv in Hp as [Hne [Hwf Hs]].
  unfold word, nonempty. apply andb_true_iff. split.
  - apply negb_true_iff, String.eqb_neq. now apply fp_str_nonempty.
  - now apply no_space_join_dot.
Qed.

Lemma words_no_newline (fields : list string) :
  forallb word fields = true -> contains newline (join " " fields) = false.
Proof.
  induction fields as [|w fields IH]; intros Hw; [reflexivity|].
  simpl in Hw. apply andb_true_iff in Hw as [Hw Hws].
  apply word_inv in Hw as [_ Hw].
  destruct fields as [|w' fields].
  - simpl. now apply no_space_no_newline.
  - rewrite join_cons by congruence.
    rewrite !contains_app, (no_space_no_newline _ Hw), (IH Hws). reflexivity.
Qed.

Lemma entry_fields_words (kv : string * ProjectEntry) :
  entry_storable kv = true ->
  forallb word (fst kv :: fp_str (fst (snd kv)) :: snd (snd kv)) = true.
Proof.
  unfold entry_storable. intros H.
  apply andb_true_iff in H as [H H3]. apply andb_true_iff in H as [H1 H2].
  simpl. now rewrite H1, (fp_str_word _ H2), H3.
Qed.

Lemma parse_project_line_written (kv : string * ProjectEntry) :
  entry_storable kv = true ->
  parse_project_line (project_line kv) = Ok kv.
Proof.
  intros Hok. pose proof (entry_fields_words _ Hok) as Hw.
  unfold parse_project_line, project_line.
  rewrite py_strip_line by (congruence || assumption).
  rewrite (py_split_join space) by (reflexivity || assumption).
  rewrite factor_at_fp_str.
  - now destruct kv as [id [path rest]].
  - unfold entry_storable in Hok.
    apply andb_true_iff in Hok as [Hok _].
    apply andb_true_iff in Hok as [_ Hp].
    now apply path_storable_inv in Hp.
Qed.

Lemma parse_project_index_written (prjseq : list (string * ProjectEntry)) :
  forallb entry_storable prjseq = true ->
  parse_project_index (readlines (writelines (map project_line prjseq)))
  = Ok prjseq.
Proof.
  intros Hall.
  assert (Hlines : map project_line prjseq
            = map line (map (fun kv => join " "
                (fst kv :: fp_str (fst (snd kv)) :: snd (snd kv))) prjseq)).
  { now rewrite map_map. }
  rewrite Hlines, readlines_writelines, <- Hlines.
  - induction prjseq as [|kv prjseq IH]; [reflexivity|].
    simpl in Hall. apply andb_true_iff in Hall as [Hkv Hall].
    simpl. rewrite (parse_project_line_written _ Hkv). simpl.
    rewrite (IH Hall). reflexivity.
    rewrite map_map. reflexivity.
  - rewrite forallb_forall. intros t Ht.
    apply in_map_iff in Ht as [kv [<- Hin]].
    rewrite forallb_forall in Hall.
    apply negb_true_iff, words_no_newline, entry_fields_words. auto.
Qed.

Lemma parse_context_index_written (ctxseq : list FactorPath) :
  forallb path_storable ctxseq = true ->
  parse_context_index
    (readlines (writelines (map (fun x => line (fp_str x)) ctxseq)))
  = ctxseq.
Proof.
  intros Hall.
  rewrite <- (map_map fp_str line), readlines_writelines.
  - unfold parse_context_index. rewrite !map_map.
    rewrite <- (map_id ctxseq) at 2. apply map_ext_in.
    intros p Hp. rewrite forallb_forall in Hall. specialize (Hall p Hp).
    pose proof (fp_str_word _ Hall) as Hw.
    change (line (fp_str p)) with (line (join " " [fp_str p])).
    rewrite py_strip_line; [|congruence | simpl; now rewrite Hw].
    simpl. apply factor_at_fp_str. now apply path_storable_inv in Hall.
  - rewrite forallb_forall. intros t Ht.
    apply in_map_iff in Ht as [p [<- Hin]].
    rewrite forallb_forall in Hall.
    apply negb_true_iff, no_space_no_newline.
    pose proof (fp_str_word _ (Hall p Hin)) as Hw.
    now apply word_inv in Hw.
Qed.

Lemma roots_written (rootseq : list FactorPath) :
  forallb path_storable rootseq = true ->
  map factor_at
    (filter nonempty (py_split (join (String newline "") (map fp_str rootseq))))
  = rootseq.
Proof.
  intros Hall.
  assert (Hw : forallb word (map fp_str rootseq) = true).
  { rewrite forallb_forall. intros t Ht.
    apply in_map_iff in Ht as [p [<- Hin]].
    rewrite forallb_forall in Hall. apply fp_str_word. auto. }
  rewrite py_split_join by (reflexivity || assumption).
  assert (Hf : filter nonempty (map fp_str rootseq) = map fp_str rootseq).
  { apply forallb_filter_id. rewrite forallb_forall in Hw |- *.
    intros t Ht. specialize (Hw t Ht). unfold word in Hw.
    now apply andb_true_iff in Hw as [Hn _]. }
  rewrite Hf, map_map. rewrite <- (map_id rootseq) at 2.
  apply map_ext_in. intros p Hp. rewrite forallb_forall in Hall.
  specialize (Hall p Hp).
  apply factor_at_fp_str. now apply path_storable_inv in Hall.
Qed.

(** ** Context.load and Context.split *)

Lemma find_app {A} (f : A -> bool) (l1 l2 : list A) :
  find f (l1 ++ l2)
  = match find f l1 with Some x => Some x | None => find f l2 end.
Proof.
  induction l1 as [|x l1 IH]; simpl; [reflexivity|].
  destruct (f x); [reflexivity | exact IH].
Qed.

(** What the inner loop of [load] leaves in the cache when it returns. *)
Lemma load_projects_returned pd items :
  forall cache cache',
    load_projects pd items cache = (cache', Returned) ->
    exists built,
      map (project_of_item pd) items = map Some built /\
      cache' = dict_update cache built.
Proof.
  induction items as [|[id [fp rest]] items IH]; intros cache cache'; simpl.
  - intros [= <-]. exists []. auto.
  - destruct rest as [|proto_id [|more rest]]; try discriminate.
    destruct (import_protocol proto_id) as [proto|e] eqn:Ei; [|discriminate].
    intros Hl. destruct (IH _ _ Hl) as [built [Hb ->]].
    exists ((id, mkProject pd id fp proto) :: built). split.
    + simpl. now rewrite Hb.
    + reflexivity.
Qed.

Lemma built_get pd items built id :
  map (project_of_item pd) items = map Some built ->
  NoDup (dict_keys items) ->
  match dict_get id items with
  | Some (fp, rest) =>
      exists proto cls,
        rest = [proto] /\ import_protocol proto = Ok cls /\
        dict_get id (rev built) = Some (mkProject pd id fp cls)
  | None => dict_get id (rev built) = None
  end.
Proof.
  intros Hb Hnd.
  assert (Hin : forall k pj, In (k, pj) built ->
            exists fp proto cls,
              In (k, (fp, [proto])) items /\ import_protocol proto = Ok cls /\
              pj = mkProject pd k fp cls).
  { intros k pj Hk. apply (in_map Some) in Hk. rewrite <- Hb in Hk.
    apply in_map_iff in Hk as [[k' [fp rest]] [Hp Hk]]. simpl in Hp.
    destruct rest as [|proto [|more rest]]; try discriminate.
    destruct (import_protocol proto) as [cls|] eqn:Ei; [|discriminate].
    injection Hp as <- <-. eauto 7. }
  destruct (dict_get id items) as [[fp rest]|] eqn:Eg.
  - apply dict_get_in in Eg.
    pose proof (in_map (project_of_item pd) _ _ Eg) as Hm.
    rewrite Hb in Hm. apply in_map_iff in Hm as [[k pj] [Hp Hk]].
    simpl in Hp. destruct rest as [|proto [|more rest]]; try discriminate.
    destruct (import_protocol proto) as [cls|] eqn:Ei; [|discriminate].
    injection Hp as -> ->. exists proto, cls. repeat split; [exact Ei|].
    destruct (dict_get id (rev built)) as [pj|] eqn:Er.
    + apply dict_get_in, in_rev, Hin in Er
        as [fp' [proto' [cls' [Hi [Hc ->]]]]].
      apply dict_in_get in Hi, Eg; try exact Hnd.
      rewrite Eg in Hi. injection Hi as <- <-. congruence.
    + apply dict_get_none in Er. exfalso. apply Er.
      apply in_rev in Hk. apply (in_map fst) in Hk. exact Hk.
  - destruct (dict_get id (rev built)) as [pj|] eqn:Er; [|reflexivity].
    apply dict_get_in, in_rev, Hin in Er as [fp [proto [cls [Hi _]]]].
    apply dict_in_get in Hi; [congruence | exact Hnd].
Qed.

(** After the loops of [load] the slot of an identifier holds the project
    of the last product of the list that declares it. *)
Lemma load_products_returned pds :
  Forall (fun pd => NoDup (dict_keys (pd_projects pd))) pds ->
  forall cache cache',
    load_products pds cache = (cache', Returned) ->
    forall id,
      match find (declares id) (rev pds) with
      | Some pd =>
          exists fp proto cls,
            dict_get id (pd_projects pd) = Some (fp, [proto]) /\
            import_protocol proto = Ok cls /\
            dict_get id cache' = Some (mkProject pd id fp cls)
      | None => dict_get id cache' = dict_get id cache
      end.
Proof.
  induction pds as [|pd pds IH]; intros Hnd cache cache'; simpl.
  - intros [= <-] id. reflexivity.
  - inversion Hnd as [|? ? Hpd Hnd']; subst.
    destruct (load_projects pd (pd_projects pd) cache) as [cache1 e] eqn:El.
    destruct e; [|discriminate].
    intros Hl id. specialize (IH Hnd' _ _ Hl id).
    rewrite find_app. destruct (find (declares id) (rev pds)); [exact IH|].
    simpl. rewrite IH.
    destruct (load_projects_returned _ _ _ _ El) as [built [Hb ->]].
    pose proof (built_get pd _ built id Hb Hpd) as Hg.
    rewrite dict_get_update. unfold declares, dict_mem.
    destruct (dict_get id (pd_projects pd)) as [[fp rest]|] eqn:Eg.
    + destruct Hg as [proto [cls [-> [Hi Hg]]]]. rewrite Hg.
      exists fp, proto, cls. auto.
    + now rewrite Hg.
Qed.

(** Every item of every product that [load] went through has one further
    field, the identifier of a registered protocol. *)
Lemma load_products_items pds :
  forall cache cache',
    load_products pds cache = (cache', Returned) ->
    forall pd id fp rest,
      In pd pds -> In (id, (fp, rest)) (pd_projects pd) ->
      exists proto cls, rest = [proto] /\ import_protocol proto = Ok cls.
Proof.
  induction pds as [|pd0 pds IH]; intros cache cache'; simpl.
  - intros _ pd id fp rest [].
  - destruct (load_projects pd0 (pd_projects pd0) cache) as [cache1 e] eqn:El.
    destruct e; [|discriminate].
    intros Hl pd id fp rest [<-|Hin] Hitem; [|eapply IH; eassumption].
    destruct (load_projects_returned _ _ _ _ El) as [built [Hb _]].
    apply (in_map (project_of_item pd0)) in Hitem. rewrite Hb in Hitem.
    apply in_map_iff in Hitem as [b [Hp _]]. simpl in Hp.
    destruct rest as [|proto [|more rest]]; try discriminate.
    destruct (import_protocol proto) as [cls|] eqn:Ei; [|discriminate]. eauto.
Qed.

Lemma first_split_app before Y after qpath parts :
  (forall pd, In pd before -> Product_split pd qpath = None) ->
  Product_split Y qpath = Some parts ->
  first_split (before ++ Y :: after) qpath = Some (Y, parts).
Proof.
  intros Hnone HY. induction before as [|pd before IH]; simpl.
  - now rewrite HY.
  - rewrite (Hnone pd (or_introl eq_refl)). apply IH.
    intros pd' Hin. apply Hnone. now right.
Qed.

Lemma Product_split_registered pd qpath pj fp :
  Product_split pd qpath = Some (pj, fp) -> In pj (dict_keys (pd_local pd)).
Proof.
  destruct qpath as [p|s]; simpl.
  - destruct (dict_mem p (pd_local pd)) eqn:Em.
    + intros [= <- _]. now apply dict_mem_keys.
    + intros Hs. now apply split_scan_some in Hs.
  - intros Hs. now apply split_scan_some in Hs.
Qed.

Lemma Product_load_coherent cache pd0 pd :
  Product_load cache pd0 = (pd, Returned) -> Product_coherent pd.
Proof.
  intros Hl. destruct (Product_load_tables _ _ _ Hl) as [items [Hp Hloc]].
  split; [rewrite Hp; apply dict_of_list_nodup | exact Hloc].
Qed.

Lemma Connected_coherent disk ctx :
  Connected disk ctx -> Forall Product_coherent (product_sequence ctx).
Proof.
  induction 1 as [|ctx route Hc IH|ctx Hc IH].
  - constructor.
  - unfold Context_connect.
    destruct (dict_get route (cached_products ctx)); [exact IH|].
    destruct (Product_load (disk route) (Product_new route 4096))
      as [pd e] eqn:El.
    destruct e; [|exact IH].
    simpl. apply Forall_app. split; [exact IH|].
    constructor; [|constructor]. eapply Product_load_coherent; eassumption.
  - unfold Context_load.
    destruct (load_products _ _). exact IH.
Qed.

(** ** The tables after load and update *)

(** C4, as the code has it.  After [load] or [update] every entry of
    [local] is the mirror of its entry of [projects]; an entry of
    [projects] is mirrored in [local] when no other identifier is
    registered with its path; and after [update], where a path is read
    from one marker, [local] is the exact inverse of [projects]. *)
Theorem local_mirrors_projects (fs : Filesystem) (cache : Cache)
  (pd pd' : Product) :
  Product_update fs pd = (pd', Returned) \/
  Product_load cache pd = (pd', Returned) ->
  (forall path id rest,
      dict_get path (pd_local pd') = Some (id, rest) ->
      dict_get id (pd_projects pd') = Some (path, rest))
  /\ (forall path id rest,
      dict_get id (pd_projects pd') = Some (path, rest) ->
      (forall id' rest',
          dict_get id' (pd_projects pd') = Some (path, rest') -> id' = id) ->
      dict_get path (pd_local pd') = Some (id, rest))
  /\ (Product_update fs pd = (pd', Returned) ->
      forall path id rest,
        dict_get path (pd_local pd') = Some (id, rest) <->
        dict_get id (pd_projects pd') = Some (path, rest)).
Proof.
  intros Hpop.
  assert (Htab : exists items,
             pd_projects pd' = dict_of_list items /\
             pd_local pd' = local_of_projects (pd_projects pd')).
  { destruct Hpop as [Hu|Hl].
    - destruct (Product_update_tables _ _ _ Hu) as [evs [_ [Hp [Hloc _]]]].
      eauto.
    - exact (Product_load_tables _ _ _ Hl). }
  destruct Htab as [items [Hp Hloc]].
  assert (Hnd : NoDup (dict_keys (pd_projects pd')))
    by (rewrite Hp; apply dict_of_list_nodup).
  assert (Hfwd : forall path id rest,
             dict_get path (pd_local pd') = Some (id, rest) ->
             dict_get id (pd_projects pd') = Some (path, rest)).
  { intros path id rest Hg. rewrite Hloc in Hg.
    now apply local_entry_registered. }
  assert (Hbwd : forall path id rest,
             dict_get id (pd_projects pd') = Some (path, rest) ->
             (forall id' rest',
                 dict_get id' (pd_projects pd') = Some (path, rest') ->
                 id' = id) ->
             dict_get path (pd_local pd') = Some (id, rest)).
  { intros path id rest Hg Huniq. rewrite Hloc.
    now apply projects_entry_local. }
  split; [exact Hfwd | split; [exact Hbwd|]].
  intros Hu path id rest. split; [apply Hfwd|].
  intros Hg. apply Hbwd; [exact Hg|].
  intros id' rest' Hg'.
  now destruct (Product_update_path_unique _ _ _ _ _ _ _ _ Hu Hg Hg').
Qed.

Lemma local_mirrors_projects_witness :
  let pd := Product_new "/pd" 4096 in
  let pd' := fst (Product_update fs_one_project pd) in
  Product_update fs_one_project pd = (pd', Returned) /\
  (dict_get ["p"] (pd_local pd')
     = Some ("http://fault.io/p", ["factors/polynomial-1"]) <->
   dict_get "http://fault.io/p" (pd_projects pd')
     = Some (["p"], ["factors/polynomial-1"])).
Proof.
  intros pd pd'.
  assert (Hu : Product_update fs_one_project pd = (pd', Returned))
    by (vm_compute; reflexivity).
  split; [exact Hu|].
  destruct (local_mirrors_projects fs_one_project Cache_empty pd pd'
              (or_introl Hu)) as [_ [_ Hinv]].
  apply (Hinv Hu).
Defined.

(** C4 as stated fails for [load]: with a PROJECTS file that registers
    the path [a] under [id1] and under [id2], [projects] maps [id1] to
    [a] while [local] maps [a] to [id2]. *)
Lemma local_inverse_fails_after_load :
  let pd' := fst (Product_load cache_shared_path (Product_new "/pd" 4096)) in
  snd (Product_load cache_shared_path (Product_new "/pd" 4096)) = Returned /\
  ~ (forall path id rest,
        dict_get path (pd_local pd') = Some (id, rest) <->
        dict_get id (pd_projects pd') = Some (path, rest)).
Proof.
  intros pd'. split; [reflexivity|].
  intros Hinv.
  assert (Hg : dict_get "id1" (pd_projects pd')
               = Some (["a"], ["factors/polynomial-1"])) by reflexivity.
  apply Hinv in Hg. vm_compute in Hg. discriminate Hg.
Qed.

(** ** The scan limit *)

(** C6.  When the scan counts more directories than the limit of the
    product (the count of a run under any limit [L], the product's own
    included), the scan under the product's limit ends by raising the
    scan limit error, and [update] raises it and leaves the product, its
    four tables included, as it was. *)
Theorem update_scan_limit_fatal (fs : Filesystem) (pd : Product) (L : nat) :
  pd_limit pd
  < inspected (scan_product_directory (check_context_status fs)
                 (read_protocol fs) fs L (pd_roots pd)) ->
  ending (scan_product_directory (check_context_status fs)
            (read_protocol fs) fs (pd_limit pd) (pd_roots pd))
    = Raised RuntimeError_scan_limit
  /\ Product_update fs pd = (pd, Raised RuntimeError_scan_limit).
Proof.
  intros Hlt.
  apply scan_product_directory_limits in Hlt.
  split; [exact Hlt|].
  unfold Product_update. now rewrite Hlt.
Qed.

Lemma update_scan_limit_fatal_witness :
  let pd := mkProduct "/pd" 1 [] [("id", (["p"], ["factors/polynomial-1"]))]
              [] [] in
  Product_update fs_two_plain pd = (pd, Raised RuntimeError_scan_limit).
Proof.
  intros pd.
  apply (update_scan_limit_fatal fs_two_plain pd 4096).
  vm_compute. lia.
Defined.

(** C10.  The loop over explicit roots leaves the counter at 0 whatever
    the roots are; and a scan whose explicit roots are all projects
    (none a context, each with a marker that names an identifier)
    returns under every limit, zero included, having counted nothing and
    yielded each root with its project. *)
Theorem scan_explicit_roots_uncounted
  (iscontext : list string -> bool)
  (read_protocol : list string -> option (list string))
  (fs : Filesystem) (limit : nat) (roots : list FactorPath) :
  roots <> [] ->
  (forall fp, In fp roots ->
     iscontext fp = false /\
     exists id rest, read_protocol fp = Some (id :: rest)) ->
  (forall roots' stack,
     loop_counter (scan_roots iscontext read_protocol roots' stack) = 0)
  /\ ending (scan_product_directory iscontext read_protocol fs limit roots)
     = Returned
  /\ inspected (scan_product_directory iscontext read_protocol fs limit roots)
     = 0
  /\ scan_product_directory iscontext read_protocol fs limit roots
     = scan_product_directory iscontext read_protocol fs 0 roots
  /\ slot_root
       (yielded (scan_product_directory iscontext read_protocol fs limit roots))
     = roots.
Proof.
  intros Hne Hall.
  split; [intros; apply scan_roots_counter|].
  assert (Hroots : forall stack,
    exists evs,
      scan_roots iscontext read_protocol roots stack = Continue evs 0 stack /\
      slot_root evs = roots).
  { clear Hne. induction roots as [|fp roots IH]; intros stack; simpl.
    - exists []. auto.
    - destruct (Hall fp (or_introl eq_refl)) as [Hc [id [rest Hp]]].
      rewrite Hc, Hp. simpl.
      destruct (IH (fun fp' Hin => Hall fp' (or_intror Hin)) stack)
        as [evs [-> Hs]].
      simpl. eexists. split; [reflexivity|]. simpl. now rewrite Hs. }
  destruct (Hroots []) as [evs [Hr Hs]].
  assert (Hscan : forall L,
    scan_product_directory iscontext read_protocol fs L roots
    = mkRun (evs ++ []) Returned 0).
  { intros L. unfold scan_product_directory.
    destruct roots as [|fp roots']; [congruence|].
    rewrite Hr, scan_stack_nil. reflexivity. }
  rewrite (Hscan limit), (Hscan 0). simpl.
  rewrite app_nil_r. auto.
Qed.

Lemma scan_explicit_roots_uncounted_witness :
  ending (scan_product_directory (check_context_status fs_one_project)
            (read_protocol fs_one_project) fs_one_project 0 [["p"]])
  = Returned.
Proof.
  apply (scan_explicit_roots_uncounted (check_context_status fs_one_project)
           (read_protocol fs_one_project) fs_one_project 0 [["p"]]).
  - discriminate.
  - intros fp [<-|[]]. split; [reflexivity|].
    exists "http://fault.io/p", ["factors/polynomial-1"]. reflexivity.
Defined.

Lemma forallb_perm {A} (f : A -> bool) (l l' : list A) :
  Permutation l l' -> forallb f l = true -> forallb f l' = true.
Proof.
  intros Hp. rewrite !forallb_forall. intros Hall x Hx.
  apply Hall. eapply Permutation_in; [apply Permutation_sym|]; eassumption.
Qed.

Lemma read_protocol_words fs route p :
  read_protocol fs route = Some p -> forallb word p = true.
Proof.
  unfold read_protocol.
  induction protocol_declaration_filenames as [|x names IH]; simpl;
    [discriminate|].
  destruct (FsType_eqb _ _); [|exact IH].
  intros [= <-]. apply py_split_words.
Qed.

Lemma Product_update_entries fs pd pd' :
  Product_update fs pd = (pd', Returned) ->
  paths_storable pd' = true ->
  forallb entry_storable (pd_projects pd') = true.
Proof.
  intros Hu Hst.
  destruct (Product_update_tables _ _ _ Hu) as [evs [Hread [Hp _]]].
  unfold paths_storable in Hst.
  apply andb_true_iff in Hst as [Hst _]. apply andb_true_iff in Hst as [Hst _].
  rewrite forallb_forall in Hst |- *. intros [id [path rest]] Hin.
  specialize (Hst _ Hin). simpl in Hst.
  apply dict_in_get in Hin; [|rewrite Hp; apply dict_of_list_nodup].
  rewrite Hp in Hin. apply dict_of_list_get_in, slot_project_in in Hin.
  rewrite Forall_forall in Hread. apply Hread in Hin. simpl in Hin.
  apply read_protocol_words in Hin. simpl in Hin.
  apply andb_true_iff in Hin as [Hid Hrest].
  unfold entry_storable. simpl. now rewrite Hid, Hst, Hrest.
Qed.

(** The tables that [load] reads from what [store] wrote. *)
Lemma store_then_load (pd : Product) (cache : Cache) :
  forallb entry_storable (pd_projects pd) = true ->
  forallb path_storable (pd_contexts pd) = true ->
  forallb path_storable (pd_roots pd) = true ->
  exists cache',
    Product_store pd cache = (cache', Returned) /\
    forall pd0,
      Product_load cache' pd0
      = (let prj := dict_of_list (py_sort project_le (pd_projects pd)) in
         mkProduct (pd_route pd0) (pd_limit pd0) (local_of_projects prj) prj
           (set_of_list (py_sort context_le (pd_contexts pd)))
           (set_of_list (py_sort path_le (pd_roots pd))),
         Returned).
Proof.
  intros Hprj Hctx Hroots. unfold Product_store.
  assert (Hnil : existsb is_nil (pd_contexts pd) = false).
  { apply not_true_iff_false. intros Hex.
    apply existsb_exists in Hex as [p [Hin Hp]].
    rewrite forallb_forall in Hctx. specialize (Hctx p Hin).
    apply path_storable_inv in Hctx as [Hne _]. now destruct p. }
  unfold sort_contexts. rewrite Hnil. cbn [PROJECTS CONTEXTS ROOTS].
  eexists. split; [reflexivity|].
  intros pd0. unfold Product_load. cbn [PROJECTS CONTEXTS ROOTS fs_open_read bind].
  rewrite parse_project_index_written
    by (eapply forallb_perm; [apply Permutation_sym, py_sort_perm | exact Hprj]).
  cbn [bind].
  rewrite parse_context_index_written
    by (eapply forallb_perm; [apply Permutation_sym, py_sort_perm | exact Hctx]).
  rewrite roots_written
    by (eapply forallb_perm; [apply Permutation_sym, py_sort_perm | exact Hroots]).
  reflexivity.
Qed.

Lemma local_of_projects_equiv (prj1 prj2 : dict string ProjectEntry) :
  NoDup (dict_keys prj1) -> NoDup (dict_keys prj2) ->
  dict_equiv prj1 prj2 ->
  (forall path id id' rest rest',
      dict_get id prj1 = Some (path, rest) ->
      dict_get id' prj1 = Some (path, rest') -> id' = id) ->
  dict_equiv (local_of_projects prj1) (local_of_projects prj2).
Proof.
  intros Hnd1 Hnd2 Heq Huniq path.
  destruct (dict_get path (local_of_projects prj1)) as [[id rest]|] eqn:E1.
  - apply local_entry_registered in E1; [|exact Hnd1].
    symmetry. apply projects_entry_local; [now rewrite <- Heq | | exact Hnd2].
    intros id' rest' Hg'. rewrite <- Heq in Hg'. eauto.
  - destruct (dict_get path (local_of_projects prj2)) as [[id rest]|] eqn:E2;
      [|reflexivity].
    apply local_entry_registered in E2; [|exact Hnd2].
    rewrite <- Heq in E2.
    apply projects_entry_local in E2; [congruence | | exact Hnd1].
    intros id' rest' Hg'. eauto.
Qed.

(** C3, as the code has it.  For a state that [update] produced and
    whose paths are storable (not empty, segments well formed and free of
    whitespace), [store] and then [load] on a fresh product give tables
    equal to the original ones as maps and sets; the further fields of a
    project entry are kept. *)
Theorem store_load_round_trip (fs : Filesystem) (pd pd' : Product)
  (cache : Cache) :
  Product_update fs pd = (pd', Returned) ->
  paths_storable pd' = true ->
  exists cache' pd'',
    Product_store pd' cache = (cache', Returned) /\
    Product_load cache' (Product_new (pd_route pd') (pd_limit pd'))
      = (pd'', Returned) /\
    tables_equiv pd'' pd'.
Proof.
  intros Hu Hst.
  pose proof (Product_update_entries _ _ _ Hu Hst) as Hent.
  pose proof Hst as Hst'. unfold paths_storable in Hst'.
  apply andb_true_iff in Hst' as [Hst' Hroots].
  apply andb_true_iff in Hst' as [_ Hctx].
  destruct (store_then_load pd' cache Hent Hctx Hroots) as [cache' [Hs Hl]].
  exists cache'. eexists. split; [exact Hs|]. split; [apply Hl|].
  destruct (Product_update_tables _ _ _ Hu) as [evs [_ [Hp [Hloc _]]]].
  assert (Hnd : NoDup (dict_keys (pd_projects pd')))
    by (rewrite Hp; apply dict_of_list_nodup).
  assert (Heq : dict_equiv
                  (dict_of_list (py_sort project_le (pd_projects pd')))
                  (pd_projects pd')).
  { intros k. rewrite dict_of_list_nodup_id.
    - symmetry. apply dict_equiv_perm; [exact Hnd|].
      apply Permutation_sym, py_sort_perm.
    - eapply Permutation_NoDup; [|exact Hnd].
      apply Permutation_map, Permutation_sym, py_sort_perm. }
  unfold tables_equiv. cbn -[dict_of_list py_sort set_of_list local_of_projects].
  repeat split.
  - exact Heq.
  - rewrite Hloc. intros k. symmetry. revert k.
    apply local_of_projects_equiv;
      [exact Hnd | apply dict_of_list_nodup | |].
    + intros k. symmetry. apply Heq.
    + intros path id id' rest rest' Hg Hg'.
      now destruct (Product_update_path_unique _ _ _ _ _ _ _ _ Hu Hg Hg').
  - rewrite set_of_list_in. apply Permutation_in, py_sort_perm.
  - rewrite set_of_list_in. intros Hin.
    eapply Permutation_in; [apply Permutation_sym, py_sort_perm | exact Hin].
  - rewrite set_of_list_in. apply Permutation_in, py_sort_perm.
  - rewrite set_of_list_in. intros Hin.
    eapply Permutation_in; [apply Permutation_sym, py_sort_perm | exact Hin].
Qed.

Lemma store_load_round_trip_witness :
  let pd := Product_new "/pd" 4096 in
  let pd' := fst (Product_update fs_one_project pd) in
  Product_update fs_one_project pd = (pd', Returned) /\
  paths_storable pd' = true /\
  exists cache' pd'',
    Product_store pd' Cache_empty = (cache', Returned) /\
    Product_load cache' (Product_new (pd_route pd') (pd_limit pd'))
      = (pd'', Returned) /\
    tables_equiv pd'' pd'.
Proof.
  intros pd pd'.
  assert (Hu : Product_update fs_one_project pd = (pd', Returned))
    by (vm_compute; reflexivity).
  assert (Hst : paths_storable pd' = true) by (vm_compute; reflexivity).
  split; [exact Hu | split; [exact Hst|]].
  exact (store_load_round_trip fs_one_project pd pd' Cache_empty Hu Hst).
Defined.

(** C3 as stated fails: the project directory [my project] is stored as
    the line [id my project proto], which loads as the path [my] with the
    further fields [project] and [proto]. *)
Lemma round_trip_fails_with_space :
  let pd := Product_new "/pd" 4096 in
  let pd' := fst (Product_update fs_spaced_name pd) in
  let cache' := fst (Product_store pd' Cache_empty) in
  let pd'' := fst (Product_load cache' pd) in
  snd (Product_update fs_spaced_name pd) = Returned /\
  snd (Product_store pd' Cache_empty) = Returned /\
  snd (Product_load cache' pd) = Returned /\
  ~ tables_equiv pd'' pd'.
Proof.
  intros pd pd' cache' pd''. repeat split.
  intros [Hprj _]. specialize (Hprj "http://fault.io/mine").
  vm_compute in Hprj. discriminate Hprj.
Qed.

(** ** Product.load and absent files *)




(** ** Product.store and the order of the lines *)

(** C9 at the failing input: the set of contexts [{a.b, a.c}], listed in
    its two orders, is written as two different CONTEXTS files; the sort
    compares first segments only, so [a.c] stays in front of [a.b] when
    the set lists it first. *)
Theorem store_contexts_follow_listing :
  Permutation (pd_contexts pd_contexts_cb) (pd_contexts pd_contexts_bc) /\
  Product_store pd_contexts_cb Cache_empty
    = (mkCache (Some "") (Some "a.c
a.b
") (Some ""), Returned) /\
  Product_store pd_contexts_bc Cache_empty
    = (mkCache (Some "") (Some "a.b
a.c
") (Some ""), Returned).
Proof.
  split; [apply perm_swap | split; reflexivity].
Qed.

(** ** The search path of a Context *)

Lemma Context_load_returned ctx ctx' :
  Context_load ctx = (ctx', Returned) ->
  exists cache,
    load_products (rev (product_sequence ctx)) (cached_projects ctx)
      = (cache, Returned) /\
    ctx' = mkContext (product_sequence ctx) (cached_products ctx) cache.
Proof.
  unfold Context_load.
  destruct (load_products _ _) as [cache e].
  intros [= <- ->]. eauto.
Qed.

Lemma find_exists {A} (f : A -> bool) (l : list A) (x : A) :
  In x l -> f x = true -> exists y, find f l = Some y.
Proof.
  intros Hin Hf. destruct (find f l) as [y|] eqn:E; [eauto|].
  pose proof (find_none f l E x Hin). congruence.
Qed.

(** C2, as the code has it.  On a context made by calls of [connect] on
    which [load] returned, the slot of an identifier holds the project
    built from the earliest connected product that declares it.
    [Context.split] on a path that no product before [Y] in the search
    path matches and that [Y] matches returns the product [Y] and the
    cached project of the identifier that [Y] registers for the matched
    path: the project of [Y] when [Y] is the earliest product that
    declares that identifier. *)
Theorem Context_precedence (disk : string -> Cache) (ctx ctx' : Context) :
  Connected disk ctx ->
  Context_load ctx = (ctx', Returned) ->
  (forall id pd,
      find (declares id) (product_sequence ctx) = Some pd ->
      exists fp proto cls,
        dict_get id (pd_projects pd) = Some (fp, [proto]) /\
        import_protocol proto = Ok cls /\
        Context_project ctx' id = Ok (mkProject pd id fp cls))
  /\ (forall before Y after qpath pj fp,
      product_sequence ctx = before ++ Y :: after ->
      (forall pd, In pd before -> Product_split pd qpath = None) ->
      Product_split Y qpath = Some (pj, fp) ->
      exists id proto cls cached,
        dict_get pj (pd_local Y) = Some (id, [proto]) /\
        import_protocol proto = Ok cls /\
        Context_project ctx' id = Ok cached /\
        Context_split ctx' qpath = Ok (Y, cached, fp) /\
        (find (declares id) (product_sequence ctx) = Some Y ->
         cached = mkProject Y id pj cls)).
Proof.
  intros Hconn Hload.
  pose proof (Connected_coherent _ _ Hconn) as Hcoh.
  destruct (Context_load_returned _ _ Hload) as [cache [Hl ->]].
  assert (Hnd : Forall (fun pd => NoDup (dict_keys (pd_projects pd)))
                  (rev (product_sequence ctx))).
  { rewrite Forall_forall in Hcoh |- *. intros pd Hin.
    apply in_rev in Hin. now destruct (Hcoh pd Hin). }
  assert (Hfirst : forall id pd,
    find (declares id) (product_sequence ctx) = Some pd ->
    exists fp proto cls,
      dict_get id (pd_projects pd) = Some (fp, [proto]) /\
      import_protocol proto = Ok cls /\
      dict_get id cache = Some (mkProject pd id fp cls)).
  { intros id pd Hf.
    pose proof (load_products_returned _ Hnd _ _ Hl id) as Hg.
    rewrite rev_involutive, Hf in Hg. exact Hg. }
  split.
  - intros id pd Hf. destruct (Hfirst id pd Hf) as [fp [proto [cls [H1 [H2 H3]]]]].
    exists fp, proto, cls. repeat split; try assumption.
    unfold Context_project, dict_item. simpl. now rewrite H3.
  - intros before Y after qpath pj fp Hseq Hnone HY.
    assert (HinY : In Y (product_sequence ctx))
      by (rewrite Hseq; apply in_elt).
    rewrite Forall_forall in Hcoh. destruct (Hcoh Y HinY) as [HndY HlocY].
    pose proof (Product_split_registered _ _ _ _ HY) as Hreg.
    apply dict_mem_keys in Hreg. unfold dict_mem in Hreg.
    destruct (dict_get pj (pd_local Y)) as [[id rest]|] eqn:Eloc;
      [clear Hreg | discriminate].
    pose proof Eloc as Hprj. rewrite HlocY in Hprj.
    apply local_entry_registered in Hprj; [|exact HndY].
    destruct (load_products_items _ _ _ Hl Y id pj rest)
      as [proto [cls [-> Himp]]];
      [now apply -> in_rev | now apply dict_get_in|].
    assert (Hdecl : declares id Y = true)
      by (unfold declares, dict_mem; now rewrite Hprj).
    destruct (find_exists _ _ _ HinY Hdecl) as [pd0 Hf].
    destruct (Hfirst id pd0 Hf) as [fp0 [proto0 [cls0 [H1 [H2 H3]]]]].
    exists id, proto, cls, (mkProject pd0 id fp0 cls0).
    repeat split; try assumption.
    + unfold Context_project, dict_item. simpl. now rewrite H3.
    + unfold Context_split. simpl. rewrite Hseq.
      rewrite (first_split_app before Y after qpath (pj, fp) Hnone HY).
      unfold identifier_by_factor, dict_item. rewrite Eloc. simpl.
      rewrite Himp. simpl. unfold Context_project, dict_item. simpl.
      now rewrite H3.
    + intros HfY. rewrite HfY in Hf. injection Hf as <-.
      rewrite Hprj in H1. injection H1 as <- <-.
      rewrite Himp in H2. now injection H2 as <-.
Qed.

Lemma Context_precedence_witness :
  Connected disk_example ctx_xy_connected /\
  Context_load ctx_xy_connected = (ctx_xy, Returned) /\
  find (declares "dup") (product_sequence ctx_xy_connected) = Some product_x /\
  exists fp proto cls,
    dict_get "dup" (pd_projects product_x) = Some (fp, [proto]) /\
    import_protocol proto = Ok cls /\
    Context_project ctx_xy "dup" = Ok (mkProject product_x "dup" fp cls).
Proof.
  assert (Hc : Connected disk_example ctx_xy_connected)
    by (repeat constructor).
  assert (Hl : Context_load ctx_xy_connected = (ctx_xy, Returned))
    by (vm_compute; reflexivity).
  assert (Hf : find (declares "dup") (product_sequence ctx_xy_connected)
               = Some product_x) by (vm_compute; reflexivity).
  split; [exact Hc | split; [exact Hl | split; [exact Hf|]]].
  destruct (Context_precedence disk_example ctx_xy_connected ctx_xy Hc Hl)
    as [Hfirst _].
  exact (Hfirst "dup" product_x Hf).
Defined.

(** C2 as stated fails: [/x] and [/y] both declare [dup], at the paths
    [x] and [y].  The path [y] is registered in [/y] only and [/x] does
    not match it, yet [Context.split] returns with the product [/y] the
    cached project of [dup], which is the one built from [/x]. *)
Lemma Context_split_returns_earlier_project :
  product_sequence ctx_xy = [product_x; product_y] /\
  dict_mem ["y"] (pd_local product_x) = false /\
  Product_split product_x (AsPath ["y"]) = None /\
  dict_mem ["y"] (pd_local product_y) = true /\
  exists cls,
    Context_split ctx_xy (AsPath ["y"])
      = Ok (product_y, mkProject product_x "dup" ["x"] cls, factor) /\
    mkProject product_x "dup" ["x"] cls <> mkProject product_y "dup" ["y"] cls.
Proof.
  repeat split; try (vm_compute; reflexivity).
  exists ("project.polynomial", "V1").
  split; [vm_compute; reflexivity | discriminate].
Qed.

(** ** Symbols and inheritance *)

(** C1 at the failing input: the project [a.p] and its context project
    [a.context] both define [sym].  [symbols] hands the maps to the
    [ChainMap] with the context first, so the lookup of [sym] gives the
    definition of the context, not the project's own. *)
Theorem symbols_context_shadows_project :
  Context_project ctx_nested "prj" = Ok project_a_p /\
  Context_project ctx_nested "ctx-a" = Ok project_a_context /\
  Context_symbols infrastructure_example ctx_nested project_a_p
    = Ok [infrastructure_example project_a_context;
          infrastructure_example project_a_p] /\
  dict_get "sym" (infrastructure_example project_a_p) = Some "of a.p" /\
  dict_get "sym" (infrastructure_example project_a_context)
    = Some "of a.context" /\
  ChainMap_get [infrastructure_example project_a_context;
                infrastructure_example project_a_p] "sym"
    = Some "of a.context".
Proof.
  split; [vm_compute; reflexivity|].
  split; [vm_compute; reflexivity|].
  split; [vm_compute; reflexivity|].
  split; [vm_compute; reflexivity|].
  split; vm_compute; reflexivity.
Qed.

(** C7 at the failing input: the product holds the one context [a], with
    its context project [a.context] and the project [a.p].  The first
    call of [inherit] that [configure] makes is for [a], and it hands the
    protocol instance of [a.context] itself to [inherit], not [None]:
    the context chain of [a.context] starts with [a.context]. *)
Theorem configure_outermost_context_inherits_itself :
  flat_map pd_contexts (product_sequence ctx_nested) = [["a"]] /\
  Context_project ctx_nested "ctx-a" = Ok project_a_context /\
  Project_itercontexts project_a_context = [["a"; "context"]] /\
  Context_configure infrastructure_example ctx_nested
    = (mkInheritCall (Some ["a"]) project_a_context (Some project_a_context)
         (infrastructure_example project_a_context)
       :: tl (fst (Context_configure infrastructure_example ctx_nested)),
       Returned).
Proof.
  split; [vm_compute; reflexivity|].
  split; [vm_compute; reflexivity|].
  split; vm_compute; reflexivity.
Qed.

(* ================================================================== *)
(** * Further properties of the code *)

(** ** The order of Context.configure *)

Lemma sort_insert_sorted {A} (le : A -> A -> bool) (x : A) (l : list A) :
  (forall a b, le a b = true \/ le b a = true) ->
  (forall a b c, le a b = true -> le b c = true -> le a c = true) ->
  StronglySorted (fun a b => le a b = true) l ->
  StronglySorted (fun a b => le a b = true) (sort_insert le x l).
Proof.
  intros Htot Htrans. induction l as [|y l IH]; intros Hs; simpl.
  - repeat constructor.
  - inversion Hs as [|? ? Hl Hy]; subst.
    destruct (le x y) eqn:E.
    + constructor; [exact Hs|]. constructor; [exact E|].
      rewrite Forall_forall in Hy |- *. intros z Hz. eauto.
    + constructor; [now apply IH|].
      assert (Hyx : le y x = true) by (destruct (Htot x y); congruence).
      rewrite Forall_forall in Hy |- *. intros z Hz.
      eapply Permutation_in in Hz; [|apply sort_insert_perm].
      destruct Hz as [<-|Hz]; auto.
Qed.

Lemma py_sort_sorted {A} (le : A -> A -> bool) (l : list A) :
  (forall a b, le a b = true \/ le b a = true) ->
  (forall a b c, le a b = true -> le b c = true -> le a c = true) ->
  StronglySorted (fun a b => le a b = true) (py_sort le l).
Proof.
  intros Htot Htrans. induction l as [|x l IH]; simpl.
  - constructor.
  - now apply sort_insert_sorted.
Qed.

Lemma StronglySorted_before {A} (R : A -> A -> Prop) (l1 l2 l3 : list A) b a :
  StronglySorted R (l1 ++ b :: l2 ++ a :: l3) -> R b a.
Proof.
  induction l1 as [|x l1 IH]; simpl; intros Hs.
  - inversion Hs as [|? ? _ Hb]; subst.
    rewrite Forall_forall in Hb. apply Hb. apply in_elt.
  - inversion Hs; subst. auto.
Qed.

Lemma StronglySorted_prefix {A} (R : A -> A -> Prop) (l1 l2 : list A) :
  StronglySorted R (l1 ++ l2) -> StronglySorted R l1.
Proof.
  induction l1 as [|x l1 IH]; simpl; intros Hs; [constructor|].
  inversion Hs as [|? ? Hl Hx]; subst.
  constructor; [auto|]. rewrite Forall_app in Hx. tauto.
Qed.

Lemma count_char_app (c : ascii) (a b : string) :
  count_char c (a ++ b) = count_char c a + count_char c b.
Proof.
  induction a as [|x a IH]; simpl; [reflexivity|]. rewrite IH. lia.
Qed.

Lemma count_char_absent (c : ascii) (s : string) :
  contains c s = false -> count_char c s = 0.
Proof.
  induction s as [|x s IH]; simpl; [reflexivity|].
  intros H. apply orb_false_iff in H as [Hx Hs]. now rewrite Hx, IH.
Qed.

(** The depth that [configure] sorts by is the number of segments less
    one. *)
Lemma context_depth_length (p : FactorPath) :
  wf_path p = true -> context_depth p = List.length p - 1.
Proof.
  unfold context_depth, fp_str.
  induction p as [|a p IH]; intros Hwf; [reflexivity|].
  simpl in Hwf. apply andb_true_iff in Hwf as [Ha Hwf].
  apply segment_ok_inv in Ha as [_ Ha].
  destruct p as [|b p].
  - simpl. now rewrite count_char_absent.
  - rewrite join_cons by congruence.
    rewrite !count_char_app, (count_char_absent _ _ Ha), (IH Hwf).
    simpl. lia.
Qed.

Lemma depth_le_total (a b : FactorPath) :
  depth_le a b = true \/ depth_le b a = true.
Proof.
  unfold depth_le. rewrite !Nat.leb_le. lia.
Qed.

Lemma depth_le_trans (a b c : FactorPath) :
  depth_le a b = true -> depth_le b c = true -> depth_le a c = true.
Proof.
  unfold depth_le. rewrite !Nat.leb_le. lia.
Qed.

Section ConfigureOrder.
Variable Value : Type.
Variable infrastructure : Project -> dict string Value.

Lemma inherit_leading_name ctx name pj call :
  inherit_leading infrastructure ctx name pj = Ok call ->
  call_ctxname call = name.
Proof.
  unfold inherit_leading.
  destruct (first_of (Context_itercontexts ctx pj)); simpl; [|discriminate].
  now intros [= <-].
Qed.

Lemma configure_contexts_names ctx ctxlist :
  forall calls e,
    configure_contexts infrastructure ctx ctxlist = (calls, e) ->
    exists rest,
      ctxlist = call_names calls ++ rest /\ (e = Returned -> rest = []).
Proof.
  induction ctxlist as [|name ctxlist IH]; intros calls e; simpl.
  - intros [= <- <-]. exists []. auto.
  - destruct (Context_split ctx _) as [[[pd pj] fp]|e0].
    2:{ intros [= <- <-]. exists (name :: ctxlist). split; [reflexivity|].
        discriminate. }
    destruct (inherit_leading infrastructure ctx (Some name) pj)
      as [call|e0] eqn:Ei.
    2:{ intros [= <- <-]. exists (name :: ctxlist). split; [reflexivity|].
        discriminate. }
    destruct (configure_contexts infrastructure ctx ctxlist)
      as [calls' e'] eqn:Ec.
    intros [= <- <-]. destruct (IH _ _ eq_refl) as [rest [Hl He]].
    exists rest. split; [|exact He].
    unfold call_names in *. simpl.
    rewrite (inherit_leading_name _ _ _ _ Ei). simpl. now f_equal.
Qed.

Lemma configure_projects_names ctx pjs :
  forall calls e,
    configure_projects infrastructure ctx pjs = (calls, e) ->
    call_names calls = [].
Proof.
  induction pjs as [|pj pjs IH]; intros calls e; simpl.
  - now intros [= <- <-].
  - destruct (inherit_leading infrastructure ctx None pj) as [call|e0] eqn:Ei.
    2:{ now intros [= <- <-]. }
    destruct (configure_projects infrastructure ctx pjs) as [calls' e'] eqn:Ec.
    intros [= <- <-]. unfold call_names in *. simpl.
    rewrite (inherit_leading_name _ _ _ _ Ei). simpl. eapply IH. reflexivity.
Qed.

(** X1.  [configure] calls [inherit] for the registered context paths in
    the order of their sorted list, a prefix of it when a call raises and
    the whole list when [configure] returns; the list holds every context
    of every connected product, in ascending depth.  So the call for a
    context [a.b] never comes before the call for a context [a] that
    encloses it. *)
Theorem configure_contexts_in_depth_order (ctx : Context) :
  let run := Context_configure infrastructure ctx in
  let names := call_names (fst run) in
  (exists rest,
      configure_ctxlist ctx = names ++ rest /\
      (snd run = Returned -> rest = []))
  /\ Permutation (configure_ctxlist ctx)
       (flat_map pd_contexts (product_sequence ctx))
  /\ (forall a b l1 l2 l3,
        wf_path b = true -> a <> [] -> encloses a b ->
        names <> l1 ++ b :: l2 ++ a :: l3).
Proof.
  intros run names.
  assert (Hpre : exists rest,
             configure_ctxlist ctx = names ++ rest /\
             (snd run = Returned -> rest = [])).
  { subst names run. unfold Context_configure.
    destruct (configure_contexts infrastructure ctx (configure_ctxlist ctx))
      as [calls e] eqn:Ec.
    destruct (configure_contexts_names _ _ _ _ Ec) as [rest [Hl He]].
    destruct e as [|e].
    - destruct (configure_projects infrastructure ctx
                  (map snd (cached_projects ctx))) as [calls' e'] eqn:Ep.
      simpl. exists rest. split; [|intros _; now apply He].
      unfold call_names in *. rewrite flat_map_app.
      fold (call_names calls').
      rewrite (configure_projects_names _ _ _ _ Ep), app_nil_r. exact Hl.
    - simpl. exists rest. split; [exact Hl | discriminate]. }
  split; [exact Hpre | split].
  - unfold configure_ctxlist.
    rewrite py_sort_perm.
    induction (product_sequence ctx) as [|pd pds IH]; [reflexivity|].
    simpl. rewrite flat_map_app. simpl. rewrite app_nil_r.
    rewrite Permutation_app_comm. now apply Permutation_app_head.
  - intros a b l1 l2 l3 Hb Ha [r [Hr ->]] Hn.
    destruct Hpre as [rest [Hl _]].
    assert (Hs : StronglySorted (fun x y => depth_le x y = true)
                   (configure_ctxlist ctx)).
    { apply py_sort_sorted; [apply depth_le_total | apply depth_le_trans]. }
    rewrite Hl, Hn in Hs. apply StronglySorted_prefix in Hs.
    apply StronglySorted_before in Hs.
    unfold depth_le in Hs. apply Nat.leb_le in Hs.
    pose proof Hb as Hb'. unfold wf_path in Hb'. rewrite forallb_app in Hb'.
    apply andb_true_iff in Hb' as [Hwa _].
    rewrite (context_depth_length _ Hb), (context_depth_length _ Hwa) in Hs.
    rewrite length_app in Hs.
    destruct a; [congruence|]. destruct r; [congruence|].
    simpl in Hs. lia.
Qed.

End ConfigureOrder.

(** ** Product.select and the lookups by path and by identifier *)

Lemma set_mem_in {K} `{EqKey K} (x : K) (s : list K) :
  set_mem x s = true <-> In x s.
Proof.
  unfold set_mem. rewrite existsb_exists. split.
  - intros [y [Hin Hy]]. apply keq_eq in Hy. now subst.
  - intros Hin. exists x. split; [exact Hin | apply keq_refl].
Qed.

(** X2.  [Product.select] yields registered project paths only.  For a
    constraint that is a registered context it yields, among well-formed
    paths, exactly the registered paths that continue the constraint by
    at least one segment ([a.bc] is not selected under the context [a.b],
    and the empty path as a context selects nothing); otherwise a
    registered constraint selects itself, the empty path selects every
    project and any other constraint selects nothing. *)
Theorem Product_select_registered (pd : Product) (constraint : FactorPath) :
  wf_path constraint = true ->
  forallb wf_path (dict_keys (pd_local pd)) = true ->
  (forall p, In p (Product_select pd constraint) ->
             In p (dict_keys (pd_local pd)))
  /\ (In constraint (pd_contexts pd) ->
      forall p, In p (Product_select pd constraint) <->
                In p (dict_keys (pd_local pd)) /\ constraint <> [] /\
                encloses constraint p)
  /\ (~ In constraint (pd_contexts pd) ->
      In constraint (dict_keys (pd_local pd)) ->
      Product_select pd constraint = [constraint])
  /\ (~ In constraint (pd_contexts pd) ->
      ~ In constraint (dict_keys (pd_local pd)) ->
      Product_select pd constraint
      = if is_nil constraint then dict_keys (pd_local pd) else []).
Proof.
  intros Hc Hkeys. rewrite forallb_forall in Hkeys.
  unfold Product_select.
  destruct (set_mem constraint (pd_contexts pd)) eqn:Ectx.
  - apply set_mem_in in Ectx.
    split; [|split; [|split]]; try tauto.
    + intros p Hp. now apply filter_In in Hp.
    + intros _ p. rewrite filter_In. split.
      * intros [Hin Hs]. split; [exact Hin|].
        destruct (startswith_dotted_inv constraint p Hc (Hkeys p Hin) Hs)
          as [r [Hr [-> [Hne _]]]].
        split; [exact Hne | now exists r].
      * intros [Hin [Hne [r [Hr ->]]]]. split; [exact Hin|].
        now apply startswith_dotted_intro.
  - assert (Hnctx : ~ In constraint (pd_contexts pd)).
    { intros Hin. apply set_mem_in in Hin. congruence. }
    destruct (dict_mem constraint (pd_local pd)) eqn:Em.
    + apply dict_mem_keys in Em.
      split; [|split; [|split]]; try tauto.
      intros p [<-|[]]. exact Em.
    + assert (Hnreg : ~ In constraint (dict_keys (pd_local pd))).
      { intros Hin. apply dict_mem_keys in Hin. congruence. }
      split; [|split; [|split]]; try tauto.
      * destruct constraint; simpl; [tauto | intros p []].
      * intros _ _. now destruct constraint.
Qed.

Lemma Product_select_registered_witness :
  let pd := mkProduct "/pd" 4096
              [(["a"; "b"; "p"], ("id1", ["factors/polynomial-1"]));
               (["a"; "bc"], ("id2", ["factors/polynomial-1"]))]
              [("id1", (["a"; "b"; "p"], ["factors/polynomial-1"]));
               ("id2", (["a"; "bc"], ["factors/polynomial-1"]))]
              [["a"; "b"]] [] in
  In ["a"; "b"; "p"] (Product_select pd ["a"; "b"]) /\
  ~ In ["a"; "bc"] (Product_select pd ["a"; "b"]).
Proof.
  intros pd.
  destruct (Product_select_registered pd ["a"; "b"] eq_refl eq_refl)
    as [_ [Hctx _]].
  specialize (Hctx (or_introl eq_refl)). split.
  - apply Hctx. split; [now left|]. split; [discriminate|].
    exists ["p"]. split; [discriminate | reflexivity].
  - intros Hin. apply Hctx in Hin as [_ [_ [r [_ Hr]]]]. discriminate Hr.
Defined.

(** X3.  After [update] the two lookups of a product are inverse to each
    other: [identifier_by_factor] gives the identifier and protocol of a
    path exactly when [factor_by_identifier] gives the path and protocol
    of that identifier. *)
Theorem update_lookups_inverse (fs : Filesystem) (pd pd' : Product)
  (path : FactorPath) (id : string) (cls : string * string) :
  Product_update fs pd = (pd', Returned) ->
  (identifier_by_factor pd' path = Ok (id, cls) <->
   factor_by_identifier pd' id = Ok (path, cls)).
Proof.
  intros Hu.
  destruct (Product_update_tables _ _ _ Hu) as [evs [_ [Hp [Hloc _]]]].
  assert (Hnd : NoDup (dict_keys (pd_projects pd')))
    by (rewrite Hp; apply dict_of_list_nodup).
  assert (Hinv : forall path id rest,
             dict_get path (pd_local pd') = Some (id, rest) <->
             dict_get id (pd_projects pd') = Some (path, rest)).
  { clear path id. intros path id rest. rewrite Hloc. split.
    - now apply local_entry_registered.
    - intros Hg. apply projects_entry_local; [exact Hg | | exact Hnd].
      intros id' rest' Hg'.
      now destruct (Product_update_path_unique _ _ _ _ _ _ _ _ Hu Hg Hg'). }
  unfold identifier_by_factor, factor_by_identifier, dict_item. split.
  - destruct (dict_get path (pd_local pd')) as [[id0 rest]|] eqn:El;
      simpl; [|discriminate].
    destruct rest as [|proto [|more rest]]; try discriminate.
    destruct (import_protocol proto) as [cls0|] eqn:Ei; simpl; [|discriminate].
    intros [= -> ->]. apply Hinv in El. rewrite El. simpl. now rewrite Ei.
  - destruct (dict_get id (pd_projects pd')) as [[path0 rest]|] eqn:Eg;
      simpl; [|discriminate].
    destruct rest as [|proto [|more rest]]; try discriminate.
    destruct (import_protocol proto) as [cls0|] eqn:Ei; simpl; [|discriminate].
    intros [= -> ->]. apply Hinv in Eg. rewrite Eg. simpl. now rewrite Ei.
Qed.

Lemma update_lookups_inverse_witness :
  let pd := Product_new "/pd" 4096 in
  let pd' := fst (Product_update fs_one_project pd) in
  identifier_by_factor pd' ["p"]
    = Ok ("http://fault.io/p", ("project.polynomial", "V1")) <->
  factor_by_identifier pd' "http://fault.io/p"
    = Ok (["p"], ("project.polynomial", "V1")).
Proof.
  intros pd pd'.
  apply (update_lookups_inverse fs_one_project pd pd').
  vm_compute. reflexivity.
Defined.

(** X4.  The lookups take an entry of exactly two fields.  A project
    whose marker holds further fields is kept by [update] with them, and
    both lookups raise [ValueError] for it; so they do for a marker of
    the identifier alone. *)
Theorem update_lookups_extra_fields (fs : Filesystem) (pd pd' : Product)
  (path : FactorPath) (id : string) (rest : list string) :
  Product_update fs pd = (pd', Returned) ->
  dict_get id (pd_projects pd') = Some (path, rest) ->
  List.length rest <> 1 ->
  identifier_by_factor pd' path = Raise ValueError /\
  factor_by_identifier pd' id = Raise ValueError.
Proof.
  intros Hu Hg Hlen.
  destruct (Product_update_tables _ _ _ Hu) as [evs [_ [Hp [Hloc _]]]].
  assert (Hnd : NoDup (dict_keys (pd_projects pd')))
    by (rewrite Hp; apply dict_of_list_nodup).
  assert (Hl : dict_get path (pd_local pd') = Some (id, rest)).
  { rewrite Hloc. apply projects_entry_local; [exact Hg | | exact Hnd].
    intros id' rest' Hg'.
    now destruct (Product_update_path_unique _ _ _ _ _ _ _ _ Hu Hg Hg'). }
  unfold identifier_by_factor, factor_by_identifier, dict_item.
  rewrite Hl, Hg. simpl.
  destruct rest as [|proto [|more rest]]; simpl in *; try tauto; lia.
Qed.

Lemma update_lookups_extra_fields_witness :
  let pd' := fst (Product_update fs_extra_fields (Product_new "/pd" 4096)) in
  dict_get "http://fault.io/p" (pd_projects pd')
    = Some (["p"], ["factors/polynomial-1"; "more"; "fields"]) /\
  identifier_by_factor pd' ["p"] = Raise ValueError /\
  factor_by_identifier pd' "http://fault.io/p" = Raise ValueError.
Proof.
  intros pd'.
  assert (Hg : dict_get "http://fault.io/p" (pd_projects pd')
               = Some (["p"], ["factors/polynomial-1"; "more"; "fields"]))
    by (vm_compute; reflexivity).
  split; [exact Hg|].
  apply (update_lookups_extra_fields fs_extra_fields
           (Product_new "/pd" 4096) pd' ["p"] "http://fault.io/p"
           ["factors/polynomial-1"; "more"; "fields"]).
  - vm_compute. reflexivity.
  - exact Hg.
  - simpl. lia.
Defined.

(** ** Further properties of the scan *)

Section ScanMore.
Variable iscontext : list string -> bool.
Variable read_protocol : list string -> option (list string).
Variable fs : Filesystem.

(** How a loop over a directory ends, given a counter within the limit. *)
Lemma scan_directory_ends L as_root parent names :
  forall i stack, i <= L ->
    match scan_directory iscontext read_protocol L as_root parent names i stack with
    | Continue _ i' _ => i' <= L
    | Abort _ e c =>
        (e = RuntimeError_scan_limit /\ c = L + 1) \/
        (e = IndexError /\ c <= L)
    end.
Proof.
  induction names as [|name names IH]; intros i stack Hi; simpl; [exact Hi|].
  destruct (Nat.ltb L (i + 1)) eqn:El.
  - apply Nat.ltb_lt in El. left. split; [reflexivity | lia].
  - apply Nat.ltb_ge in El.
    destruct (contains dot name); [now apply IH|].
    destruct (iscontext (parent ++ [name])).
    { specialize (IH (i + 1) (stack ++ [parent ++ [name]]) El).
      now destruct (scan_directory _ _ _ _ _ names _ _). }
    destruct (read_protocol (parent ++ [name])) as [p|]; [|now apply IH].
    destruct (project_item (parent ++ [name]) p) eqn:Ep.
    + specialize (IH (i + 1) stack El).
      now destruct (scan_directory _ _ _ _ _ names _ _).
    + right. split; [eapply project_item_raise; eassumption | exact El].
Qed.

Lemma scan_stack_ends L :
  forall fuel i stack,
    i <= L -> List.length stack + (L - i) <= fuel ->
    let run := scan_stack iscontext read_protocol fs L fuel i stack in
    (ending run = Returned /\ inspected run <= L) \/
    (ending run = Raised RuntimeError_scan_limit /\ inspected run = L + 1) \/
    (ending run = Raised IndexError /\ inspected run <= L).
Proof.
  induction fuel as [|fuel IH]; intros i stack Hi Hf.
  - destruct stack; simpl in *; [auto | lia].
  - destruct stack as [|current stack]; simpl; [auto|].
    pose proof (scan_directory_ends L false current
                  (fs_iterfiles fs current) i stack Hi) as He.
    destruct (scan_directory _ _ _ _ _ _ _ _) as [evs i' st|evs e c] eqn:Hd;
      simpl.
    + destruct (scan_directory_continue _ _ _ _ _ _ _ _ _ _ _ Hd Hi) as [_ H2].
      apply IH; [exact He|]. simpl in Hf. lia.
    + destruct He as [[-> ->]|[-> Hc]]; auto.
Qed.

(** X5.  The scan ends on every filesystem, one with cycles included:
    it returns, having counted at most [limit] directories, or raises
    the scan limit error at the count [limit + 1], or raises
    [IndexError] (a marker without a field); nothing else. *)
Theorem scan_product_directory_ends (limit : nat) (roots : list FactorPath) :
  let run := scan_product_directory iscontext read_protocol fs limit roots in
  (ending run = Returned /\ inspected run <= limit) \/
  (ending run = Raised RuntimeError_scan_limit /\ inspected run = limit + 1) \/
  (ending run = Raised IndexError /\ inspected run <= limit).
Proof.
  unfold scan_product_directory.
  destruct roots as [|fp roots].
  - pose proof (scan_directory_ends limit true [] (fs_iterfiles fs []) 0 []
                  (Nat.le_0_l limit)) as He.
    destruct (scan_directory _ _ _ _ _ _ _ _) as [evs i st|evs e c] eqn:Hd.
    + simpl. apply scan_stack_ends; [exact He | lia].
    + simpl. destruct He as [[-> ->]|[-> Hc]]; auto.
  - pose proof (scan_roots_counter iscontext read_protocol (fp :: roots) [])
      as Hc.
    destruct (scan_roots _ _ _ _) as [evs i st|evs e c] eqn:Hd;
      simpl in Hc; subst.
    + simpl. apply scan_stack_ends; lia.
    + simpl. apply scan_roots_abort in Hd as ->. right. right.
      split; [reflexivity | lia].
Qed.

Lemma scan_stack_limit_ge L L' :
  forall fuel i stack,
    i <= L -> L <= L' ->
    ending (scan_stack iscontext read_protocol fs L fuel i stack) = Returned ->
    scan_stack iscontext read_protocol fs L' fuel i stack
    = scan_stack iscontext read_protocol fs L fuel i stack.
Proof.
  induction fuel as [|fuel IH]; intros i stack Hi HL Hret.
  - now destruct stack.
  - destruct stack as [|current stack]; simpl in *; [reflexivity|].
    assert (Hi' : i <= L') by lia.
    destruct (scan_directory_limits iscontext read_protocol L L' false current
                (fs_iterfiles fs current) i stack Hi') as [_ H2].
    pose proof (scan_directory_ends L false current
                  (fs_iterfiles fs current) i stack Hi) as He.
    destruct (scan_directory _ _ L _ _ _ _ _) as [evs i' st|evs e c] eqn:Hd;
      simpl in *; [|discriminate].
    rewrite H2 by (lia || reflexivity). simpl.
    rewrite IH; auto.
Qed.

(** X6.  A larger limit changes nothing for a scan that returns: under
    every limit above one it returned under, the scan yields the same
    pairs and counts the same directories. *)
Theorem scan_limit_only_fails (L L' : nat) (roots : list FactorPath) :
  ending (scan_product_directory iscontext read_protocol fs L roots)
    = Returned ->
  L <= L' ->
  scan_product_directory iscontext read_protocol fs L' roots
  = scan_product_directory iscontext read_protocol fs L roots.
Proof.
  intros Hret HL.
  assert (Hstack : forall i st,
    i <= L ->
    ending (scan_stack iscontext read_protocol fs L (List.length st + L) i st)
      = Returned ->
    scan_stack iscontext read_protocol fs L' (List.length st + L') i st
    = scan_stack iscontext read_protocol fs L (List.length st + L) i st).
  { intros i st Hi Hr.
    rewrite <- (scan_stack_limit_ge L L' _ i st Hi HL Hr).
    apply scan_stack_fuel_mono; [|lia].
    rewrite (scan_stack_limit_ge L L' _ i st Hi HL Hr), Hr. discriminate. }
  unfold scan_product_directory in *.
  destruct roots as [|fp roots].
  - destruct (scan_directory_limits iscontext read_protocol L L' true []
                (fs_iterfiles fs []) 0 [] (Nat.le_0_l L')) as [_ H2].
    pose proof (scan_directory_ends L true [] (fs_iterfiles fs []) 0 []
                  (Nat.le_0_l L)) as He.
    destruct (scan_directory _ _ L _ _ _ _ _) as [evs i st|evs e c] eqn:Hd;
      simpl in *; [|discriminate].
    rewrite H2 by (lia || reflexivity).
    unfold yield_then in *. simpl in Hret. now rewrite Hstack.
  - pose proof (scan_roots_counter iscontext read_protocol (fp :: roots) [])
      as Hc.
    destruct (scan_roots _ _ _ _) as [evs i st|evs e c] eqn:Hd;
      simpl in Hc; subst; [|discriminate].
    unfold yield_then in *. simpl in Hret. rewrite Hstack; auto. lia.
Qed.

End ScanMore.

Lemma scan_limit_only_fails_witness :
  scan_product_directory (check_context_status fs_one_project)
    (read_protocol fs_one_project) fs_one_project 4096 []
  = scan_product_directory (check_context_status fs_one_project)
      (read_protocol fs_one_project) fs_one_project 3 [].
Proof.
  apply (scan_limit_only_fails (check_context_status fs_one_project)
           (read_protocol fs_one_project) fs_one_project 3 4096 []).
  - vm_compute. reflexivity.
  - lia.
Defined.

(** ** What the scan yields *)

Section ScanInvariant.
Variable iscontext : list string -> bool.
Variable read_protocol : list string -> option (list string).
Variable fs : Filesystem.
Variable P : Event -> Prop.
Variable Q : list string -> Prop.

Lemma loop_stack_all_yield_first evs l :
  loop_stack_all Q (yield_first evs l) = loop_stack_all Q l.
Proof. now destruct l. Qed.

Lemma yield_first_invariant evs l :
  Forall P evs ->
  Forall P (loop_events l) /\ loop_stack_all Q l ->
  Forall P (loop_events (yield_first evs l)) /\
  loop_stack_all Q (yield_first evs l).
Proof.
  intros He [H1 H2].
  rewrite loop_events_yield_first, loop_stack_all_yield_first, Forall_app.
  auto.
Qed.

Lemma scan_directory_invariant L as_root parent names :
  (forall name, In name names -> contains dot name = false ->
     classified iscontext read_protocol P Q as_root (parent ++ [name])) ->
  forall i stack, Forall Q stack ->
    let r := scan_directory iscontext read_protocol L as_root parent names i stack in
    Forall P (loop_events r) /\ loop_stack_all Q r.
Proof.
  induction names as [|name names IH]; intros Hstep i stack HQ; simpl.
  - split; [constructor | exact HQ].
  - assert (Hrest : forall n, In n names -> contains dot n = false ->
              classified iscontext read_protocol P Q as_root (parent ++ [n])).
    { intros n Hn. apply Hstep. now right. }
    specialize (IH Hrest).
    destruct (Nat.ltb L (i + 1)); [split; [constructor | exact I]|].
    destruct (contains dot name) eqn:Edot; [now apply IH|].
    destruct (Hstep name (or_introl eq_refl) Edot) as [Hroot [Hctx Hprj]].
    assert (Hrootev : iscontext (parent ++ [name]) = true \/
                      read_protocol (parent ++ [name]) <> None ->
                      Forall P (if as_root then [Ev_root (parent ++ [name])]
                                else [])).
    { intros Hc. destruct as_root; constructor; auto. }
    destruct (iscontext (parent ++ [name])) eqn:Ec.
    { destruct (Hctx eq_refl) as [HP HQd].
      apply yield_first_invariant.
      - apply Forall_app. split; [apply Hrootev; now left | now constructor].
      - apply IH. apply Forall_app. split; [exact HQ | now constructor]. }
    destruct (read_protocol (parent ++ [name])) as [p|] eqn:Er;
      [|now apply IH].
    assert (Hsome : Forall P (if as_root then [Ev_root (parent ++ [name])]
                              else []))
      by (apply Hrootev; right; congruence).
    destruct p as [|id rest]; simpl.
    + split; [exact Hsome | exact I].
    + apply yield_first_invariant.
      * apply Forall_app. split; [exact Hsome|]. constructor; [|constructor].
        now apply Hprj.
      * now apply IH.
Qed.

Lemma scan_roots_invariant roots :
  (forall fp, In fp roots ->
     P (Ev_root fp) /\ classified iscontext read_protocol P Q false fp) ->
  forall stack, Forall Q stack ->
    let r := scan_roots iscontext read_protocol roots stack in
    Forall P (loop_events r) /\ loop_stack_all Q r.
Proof.
  induction roots as [|fp roots IH]; intros Hstep stack HQ; simpl.
  - split; [constructor | exact HQ].
  - assert (Hrest : forall p, In p roots ->
              P (Ev_root p) /\ classified iscontext read_protocol P Q false p).
    { intros p Hp. apply Hstep. now right. }
    specialize (IH Hrest).
    destruct (Hstep fp (or_introl eq_refl)) as [HPr [_ [Hctx Hprj]]].
    destruct (iscontext fp) eqn:Ec.
    { destruct (Hctx eq_refl) as [HP HQd].
      apply yield_first_invariant; [repeat constructor; assumption|].
      apply IH. apply Forall_app. split; [exact HQ | now constructor]. }
    destruct (read_protocol fp) as [p|] eqn:Er.
    + destruct p as [|id rest]; simpl.
      * split; [repeat constructor; exact HPr | exact I].
      * apply yield_first_invariant; [|now apply IH].
        repeat constructor; [exact HPr | now apply Hprj].
    + apply yield_first_invariant; [repeat constructor; exact HPr|].
      now apply IH.
Qed.

Lemma scan_stack_invariant L :
  (forall parent name, Q parent -> In name (fs_iterfiles fs parent) ->
     contains dot name = false ->
     classified iscontext read_protocol P Q false (parent ++ [name])) ->
  forall fuel i stack, Forall Q stack ->
    Forall P (yielded (scan_stack iscontext read_protocol fs L fuel i stack)).
Proof.
  intros Hstep. induction fuel as [|fuel IH]; intros i stack HQ.
  - destruct stack; constructor.
  - destruct stack as [|current stack]; simpl; [constructor|].
    inversion HQ as [|? ? Hcur HQ']; subst.
    destruct (scan_directory_invariant L false current
                (fs_iterfiles fs current)
                (fun name Hn Hd => Hstep current name Hcur Hn Hd) i stack HQ')
      as [H1 H2].
    destruct (scan_directory _ _ _ _ _ _ _ _) as [evs i' st|evs e c];
      simpl in *; [|exact H1].
    apply Forall_app. split; [exact H1 | now apply IH].
Qed.

(** The invariant through the whole scan. *)
Lemma scan_product_directory_invariant L roots :
  (forall fp, In fp roots ->
     P (Ev_root fp) /\ classified iscontext read_protocol P Q false fp) ->
  (roots = [] -> forall name, In name (fs_iterfiles fs []) ->
     contains dot name = false ->
     classified iscontext read_protocol P Q true [name]) ->
  (forall parent name, Q parent -> In name (fs_iterfiles fs parent) ->
     contains dot name = false ->
     classified iscontext read_protocol P Q false (parent ++ [name])) ->
  Forall P (yielded (scan_product_directory iscontext read_protocol fs L roots)).
Proof.
  intros Hroots Htop Hstep. unfold scan_product_directory.
  destruct roots as [|fp roots].
  - destruct (scan_directory_invariant L true [] (fs_iterfiles fs [])
                (Htop eq_refl) 0 [] (Forall_nil Q)) as [H1 H2].
    destruct (scan_directory _ _ _ _ _ _ _ _) as [evs i st|evs e c];
      simpl in *; [|exact H1].
    apply Forall_app. split; [exact H1 | now apply scan_stack_invariant].
  - destruct (scan_roots_invariant (fp :: roots) Hroots [] (Forall_nil Q))
      as [H1 H2].
    destruct (scan_roots _ _ _ _) as [evs i st|evs e c];
      simpl in *; [|exact H1].
    apply Forall_app. split; [exact H1 | now apply scan_stack_invariant].
Qed.

End ScanInvariant.

(** X7.  Every pair the scan yields is classified as the code reads the
    directory: a context has the context status; a project has not, and
    its identifier and further fields are the fields of its marker; a
    root is one of the explicit roots or, without explicit roots, a
    directory of the product directory that is a context or has a
    marker.  The scan descends into contexts only: what it yields below
    the roots lies directly inside a directory with the context status. *)
Theorem scan_yields_classified
  (iscontext : list string -> bool)
  (read_protocol : list string -> option (list string))
  (fs : Filesystem) (limit : nat) (roots : list FactorPath) :
  Forall (event_classified iscontext read_protocol roots)
    (yielded (scan_product_directory iscontext read_protocol fs limit roots)).
Proof.
  apply scan_product_directory_invariant
    with (Q := fun d => iscontext d = true).
  - intros fp Hin. split; [now left|].
    split; [discriminate|]. split.
    + intros Hc. simpl. auto.
    + intros Hc id rest Hr. simpl. auto.
  - intros -> name Hin Hdot. split; [|split].
    + intros _ Hc. simpl. right. auto.
    + intros Hc. simpl. split; [|exact Hc]. split; [exact Hc|]. right. left. auto.
    + intros Hc id rest Hr. simpl. repeat split; auto.
  - intros parent name Hq Hin Hdot. split; [discriminate|]. split.
    + intros Hc. simpl. split; [|exact Hc]. split; [exact Hc|].
      right. right. now rewrite removelast_last.
    + intros Hc id rest Hr. simpl. repeat split; auto.
      right. right. now rewrite removelast_last.
Qed.

Lemma period_free_app (p : FactorPath) (name : string) :
  period_free p = true -> contains dot name = false ->
  period_free (p ++ [name]) = true.
Proof.
  unfold period_free. intros Hp Hn. rewrite forallb_app, Hp. simpl.
  now rewrite Hn.
Qed.

(** X8.  The scan passes over directories whose name holds a period: when
    no segment of an explicit root holds one, no segment of any yielded
    path does. *)
Theorem scan_yields_period_free
  (iscontext : list string -> bool)
  (read_protocol : list string -> option (list string))
  (fs : Filesystem) (limit : nat) (roots : list FactorPath) :
  forallb period_free roots = true ->
  Forall (fun ev => period_free (event_path ev) = true)
    (yielded (scan_product_directory iscontext read_protocol fs limit roots)).
Proof.
  intros Hroots. rewrite forallb_forall in Hroots.
  apply scan_product_directory_invariant
    with (Q := fun d => period_free d = true).
  - intros fp Hin. specialize (Hroots fp Hin).
    split; [exact Hroots|]. split; [discriminate|]. split; simpl; auto.
  - intros _ name Hin Hdot.
    assert (Hn : period_free [name] = true)
      by (apply (period_free_app [] name); [reflexivity | exact Hdot]).
    split; [|split]; simpl; auto.
  - intros parent name Hq Hin Hdot.
    pose proof (period_free_app parent name Hq Hdot) as Hn.
    split; [discriminate|]. split; simpl; auto.
Qed.

Lemma scan_yields_period_free_witness :
  Forall (fun ev => period_free (event_path ev) = true)
    (yielded (scan_product_directory (check_context_status fs_one_project)
                (read_protocol fs_one_project) fs_one_project 4096 [["p"]])).
Proof.
  apply (scan_yields_period_free (check_context_status fs_one_project)
           (read_protocol fs_one_project) fs_one_project 4096 [["p"]]).
  reflexivity.
Defined.

(** ** The roots and the fields after update *)

Lemma slot_root_app evs1 evs2 :
  slot_root (evs1 ++ evs2) = slot_root evs1 ++ slot_root evs2.
Proof. unfold slot_root. apply flat_map_app. Qed.

Lemma slot_root_none evs :
  Forall (fun ev => is_root_event ev = false) evs -> slot_root evs = [].
Proof.
  induction 1 as [|ev evs Hev _ IH]; [reflexivity|].
  unfold slot_root in *. simpl. rewrite IH.
  destruct ev; simpl in *; congruence.
Qed.

Lemma scan_roots_slot_root iscontext read_protocol roots :
  forall stack evs i st,
    scan_roots iscontext read_protocol roots stack = Continue evs i st ->
    slot_root evs = roots.
Proof.
  induction roots as [|fp roots IH]; intros stack evs i st; simpl.
  - now intros [= <- _ _].
  - destruct (iscontext fp).
    { destruct (scan_roots _ _ roots _) eqn:Hr; simpl; [|discriminate].
      intros [= <- _ _]. simpl. f_equal. eapply IH; eassumption. }
    destruct (read_protocol fp) as [p|].
    + destruct (project_item fp p) as [ev|] eqn:Ep; [|discriminate].
      destruct (scan_roots _ _ roots _) eqn:Hr; simpl; [|discriminate].
      intros [= <- _ _]. destruct p; simpl in Ep; [discriminate|].
      injection Ep as <-. simpl. f_equal. eapply IH; eassumption.
    + destruct (scan_roots _ _ roots _) eqn:Hr; simpl; [|discriminate].
      intros [= <- _ _]. simpl. f_equal. eapply IH; eassumption.
Qed.

Lemma scan_stack_no_root iscontext read_protocol fs L fuel i stack :
  slot_root (yielded (scan_stack iscontext read_protocol fs L fuel i stack))
  = [].
Proof.
  apply slot_root_none.
  apply scan_stack_invariant with (Q := fun _ => True).
  - intros parent name _ _ _. split; [discriminate|]. split; simpl; auto.
  - apply Forall_forall. auto.
Qed.

(** X9.  [update] with explicit roots keeps them: the roots it assigns
    are the roots it was run with, and nothing found below them becomes a
    root. *)
Theorem update_keeps_explicit_roots (fs : Filesystem) (pd pd' : Product) :
  pd_roots pd <> [] ->
  Product_update fs pd = (pd', Returned) ->
  pd_roots pd' = set_of_list (pd_roots pd) /\
  set_equiv (pd_roots pd') (pd_roots pd).
Proof.
  intros Hne Hu.
  assert (Hr : pd_roots pd' = set_of_list (pd_roots pd)).
  { unfold Product_update, scan_product_directory in Hu.
    destruct (pd_roots pd) as [|fp roots] eqn:Er; [congruence|].
    destruct (scan_roots _ _ (fp :: roots) []) as [evs i st|evs e c] eqn:Hs.
    - cbn [ending yielded yield_then] in Hu.
      destruct (ending (scan_stack _ _ _ _ _ _ _)); [|discriminate].
      injection Hu as <-. cbn [pd_roots].
      rewrite slot_root_app, scan_stack_no_root, app_nil_r.
      now rewrite (scan_roots_slot_root _ _ _ _ _ _ _ Hs).
    - simpl in Hu. discriminate. }
  split; [exact Hr|]. intros x. rewrite Hr. apply set_of_list_in.
Qed.

Lemma update_keeps_explicit_roots_witness :
  let pd := mkProduct "/pd" 4096 [] [] [] [["p"]] in
  set_equiv (pd_roots (fst (Product_update fs_one_project pd))) (pd_roots pd).
Proof.
  intros pd.
  apply (update_keeps_explicit_roots fs_one_project pd
           (fst (Product_update fs_one_project pd))).
  - discriminate.
  - vm_compute. reflexivity.
Defined.

(** X10.  After [update] every identifier and every further field of a
    project entry is a field of a marker as [split] cuts it: not empty
    and free of whitespace, so that it is one field of a PROJECTS line. *)
Theorem update_fields_are_words (fs : Filesystem) (pd pd' : Product)
  (id : string) (path : FactorPath) (rest : list string) :
  Product_update fs pd = (pd', Returned) ->
  dict_get id (pd_projects pd') = Some (path, rest) ->
  word id = true /\ forallb word rest = true.
Proof.
  intros Hu Hg.
  destruct (Product_update_tables _ _ _ Hu) as [evs [Hread [Hp _]]].
  rewrite Hp in Hg. apply dict_of_list_get_in, slot_project_in in Hg.
  rewrite Forall_forall in Hread. apply Hread in Hg. simpl in Hg.
  apply read_protocol_words in Hg. simpl in Hg.
  now apply andb_true_iff in Hg.
Qed.

Lemma update_fields_are_words_witness :
  word "http://fault.io/p" = true /\
  forallb word ["factors/polynomial-1"; "more"; "fields"] = true.
Proof.
  apply (update_fields_are_words fs_extra_fields (Product_new "/pd" 4096)
           (fst (Product_update fs_extra_fields (Product_new "/pd" 4096)))
           "http://fault.io/p" ["p"]).
  - vm_compute. reflexivity.
  - vm_compute. reflexivity.
Defined.

(** ** connect, load and split of a Context *)

Lemma Product_load_route cache pd0 :
  pd_route (fst (Product_load cache pd0)) = pd_route pd0.
Proof.
  unfold Product_load.
  destruct (fs_open_read (PROJECTS cache)); simpl; [|reflexivity].
  destruct (parse_project_index _); simpl; [|reflexivity].
  destruct (fs_open_read (CONTEXTS cache)); simpl; [|reflexivity].
  destruct (fs_open_read (ROOTS cache)); reflexivity.
Qed.

(** X11.  [connect] is idempotent: a second [connect] of the same route
    leaves the context as the first left it and returns the same
    product.  A [connect] whose [load] raises leaves the context as it
    was, and a [connect] never changes the products already in the search
    path: it adds at most one, at the end. *)
Theorem Context_connect_idempotent (disk : string -> Cache) (ctx : Context)
  (route : string) :
  let c1 := fst (Context_connect disk ctx route) in
  Context_connect disk c1 route = (c1, snd (Context_connect disk ctx route))
  /\ (forall e, snd (Context_connect disk ctx route) = Raise e -> c1 = ctx)
  /\ (exists added,
        product_sequence c1 = product_sequence ctx ++ added /\
        List.length added <= 1 /\
        cached_projects c1 = cached_projects ctx).
Proof.
  unfold Context_connect.
  destruct (dict_get route (cached_products ctx)) as [pd|] eqn:Eg.
  - simpl. rewrite Eg.
    split; [reflexivity | split; [reflexivity|]].
    exists []. rewrite app_nil_r. simpl. auto with arith.
  - destruct (Product_load (disk route) (Product_new route 4096))
      as [pd e] eqn:El.
    destruct e as [|e]; simpl.
    + rewrite dict_get_set, keq_refl.
      split; [reflexivity | split; [discriminate|]].
      exists [pd]. simpl. auto with arith.
    + rewrite Eg.
      split; [reflexivity | split; [reflexivity|]].
      exists []. rewrite app_nil_r. simpl. auto with arith.
Qed.

(** X12.  For a context made by calls of [connect] and [load], the
    products of the search path have distinct routes, the product cache
    holds them under their routes in the order of the search path, and
    each is what [Product.load] reads at its route. *)
Theorem Connected_products (disk : string -> Cache) (ctx : Context) :
  Connected disk ctx ->
  dict_keys (cached_products ctx) = map pd_route (product_sequence ctx)
  /\ NoDup (map pd_route (product_sequence ctx))
  /\ (forall pd, In pd (product_sequence ctx) ->
        dict_get (pd_route pd) (cached_products ctx) = Some pd /\
        Product_load (disk (pd_route pd)) (Product_new (pd_route pd) 4096)
          = (pd, Returned)).
Proof.
  induction 1 as [|ctx route Hc IH|ctx Hc IH].
  - simpl. split; [reflexivity | split; [constructor | intros pd []]].
  - destruct IH as [Hk [Hnd Hall]].
    unfold Context_connect.
    destruct (dict_get route (cached_products ctx)) as [pd0|] eqn:Eg;
      [simpl; auto|].
    destruct (Product_load (disk route) (Product_new route 4096))
      as [pd e] eqn:El.
    destruct e as [|e]; [|simpl; auto].
    assert (Hroute : pd_route pd = route).
    { change pd with (fst (pd, Returned)). rewrite <- El.
      apply Product_load_route. }
    assert (Hfresh : ~ In route (map pd_route (product_sequence ctx))).
    { rewrite <- Hk. now apply dict_get_none. }
    simpl. split; [|split].
    + rewrite dict_keys_set. unfold dict_mem. rewrite Eg.
      rewrite map_app, Hk. simpl. now rewrite Hroute.
    + rewrite map_app. simpl. rewrite Hroute.
      apply NoDup_app; [exact Hnd | repeat constructor; simpl; tauto|].
      intros x Hx [<-|[]]. contradiction.
    + intros pd1 Hin1. rewrite dict_get_set.
      apply in_app_or in Hin1 as [Hin|[<-|[]]].
      * destruct (Hall _ Hin) as [H1 H2]. split; [|exact H2].
        destruct (keq_spec route (pd_route pd1)) as [->|_]; [|exact H1].
        exfalso. apply Hfresh. now apply in_map.
      * rewrite Hroute, keq_refl. split; [reflexivity | exact El].
  - unfold Context_load. destruct (load_products _ _). exact IH.
Qed.

Lemma Connected_products_witness :
  NoDup (map pd_route (product_sequence ctx_xy_connected)).
Proof.
  apply (Connected_products disk_example ctx_xy_connected).
  repeat constructor.
Defined.

Lemma load_projects_error pd items :
  forall cache cache' e,
    load_projects pd items cache = (cache', Raised e) ->
    e = ValueError \/ e = KeyError.
Proof.
  induction items as [|[id [fp rest]] items IH]; intros cache cache' e; simpl.
  - discriminate.
  - destruct rest as [|proto [|more rest]];
      try (intros [= _ <-]; now left).
    unfold import_protocol, dict_item.
    destruct (dict_get proto protocols) as [cls|]; simpl.
    + apply IH.
    + intros [= _ <-]. now right.
Qed.

Lemma load_projects_complete pd items :
  Forall (fun kv => exists proto cls,
            snd (snd kv) = [proto] /\ import_protocol proto = Ok cls) items ->
  forall cache, snd (load_projects pd items cache) = Returned.
Proof.
  induction 1 as [|[id [fp rest]] items [proto [cls [Hr Hi]]] _ IH];
    intros cache; simpl; [reflexivity|].
  simpl in Hr. subst rest. rewrite Hi. apply IH.
Qed.

(** X13.  [Context.load] returns exactly when every entry of every
    connected product has a single further field that names a registered
    protocol; otherwise it raises [ValueError] (an entry of another
    length) or [KeyError] (an unknown protocol).  It never changes the
    search path or the cached products. *)
Theorem Context_load_outcome (ctx : Context) :
  product_sequence (fst (Context_load ctx)) = product_sequence ctx
  /\ cached_products (fst (Context_load ctx)) = cached_products ctx
  /\ (snd (Context_load ctx) = Returned <->
      forall pd id fp rest,
        In pd (product_sequence ctx) ->
        In (id, (fp, rest)) (pd_projects pd) ->
        exists proto cls, rest = [proto] /\ import_protocol proto = Ok cls)
  /\ (forall e, snd (Context_load ctx) = Raised e ->
                e = ValueError \/ e = KeyError).
Proof.
  unfold Context_load.
  destruct (load_products (rev (product_sequence ctx)) (cached_projects ctx))
    as [cache e] eqn:El.
  simpl. split; [reflexivity|]. split; [reflexivity|]. split; [split|].
  - intros ->. intros pd id fp rest Hin Hitem.
    apply (load_products_items _ _ _ El pd id fp rest);
      [now apply -> in_rev | exact Hitem].
  - intros Hall.
    assert (Hgen : forall pds cache0,
              (forall pd, In pd pds -> In pd (product_sequence ctx)) ->
              snd (load_products pds cache0) = Returned).
    { induction pds as [|pd pds IH]; intros cache0 Hsub; simpl; [reflexivity|].
      pose proof (load_projects_complete pd (pd_projects pd)) as Hc.
      destruct (load_projects pd (pd_projects pd) cache0) as [c1 e1] eqn:E1.
      assert (He1 : e1 = Returned).
      { change e1 with (snd (c1, e1)). rewrite <- E1. apply Hc.
        apply Forall_forall. intros [id [fp rest]] Hitem. simpl.
        apply (Hall pd id fp rest); [apply Hsub; now left | exact Hitem]. }
      subst e1. apply IH. intros pd' Hin. apply Hsub. now right. }
    specialize (Hgen (rev (product_sequence ctx)) (cached_projects ctx)).
    rewrite El in Hgen. apply Hgen. intros pd Hin. now apply in_rev.
  - intros e0 ->. clear Hgen || idtac.
    revert cache El. generalize (cached_projects ctx).
    induction (rev (product_sequence ctx)) as [|pd pds IH];
      intros cache0 cache; simpl; [discriminate|].
    destruct (load_projects pd (pd_projects pd) cache0) as [c1 e1] eqn:E1.
    destruct e1 as [|e1]; [apply IH|].
    intros [= _ <-]. eapply load_projects_error; eassumption.
Qed.

Lemma first_split_none pds qpath :
  first_split pds qpath = None <->
  forall pd, In pd pds -> Product_split pd qpath = None.
Proof.
  induction pds as [|pd pds IH]; simpl.
  - split; [intros _ pd [] | reflexivity].
  - destruct (Product_split pd qpath) eqn:Es.
    + split; [discriminate|]. intros Hall.
      specialize (Hall pd (or_introl eq_refl)). congruence.
    + rewrite IH. split.
      * intros Hall pd' [<-|Hin]; auto.
      * intros Hall pd' Hin. auto.
Qed.

Lemma first_split_some pds qpath pd parts :
  first_split pds qpath = Some (pd, parts) ->
  exists before after,
    pds = before ++ pd :: after /\
    (forall pd', In pd' before -> Product_split pd' qpath = None) /\
    Product_split pd qpath = Some parts.
Proof.
  induction pds as [|pd0 pds IH]; simpl; [discriminate|].
  destruct (Product_split pd0 qpath) as [parts0|] eqn:Es.
  - intros [= <- <-]. exists [], pds. repeat split; [intros pd' []|exact Es].
  - intros Hf. destruct (IH Hf) as [before [after [-> [Hnone Hs]]]].
    exists (pd0 :: before), after. repeat split; [|exact Hs].
    intros pd' [<-|Hin]; auto.
Qed.

(** X14.  [Context.split] raises the lookup error ("no such project in
    context") exactly when no product of the search path matches the
    path.  When it returns, the product is the first of the search path
    that matches, the remainder is the one of that product's [split], and
    the project is the cached project of the identifier that the product
    registers for the matched project path. *)
Theorem Context_split_first_match (ctx : Context) (qpath : PathArg) :
  (Context_split ctx qpath = Raise LookupError_no_project <->
   forall pd, In pd (product_sequence ctx) -> Product_split pd qpath = None)
  /\ (forall pd pj fp,
        Context_split ctx qpath = Ok (pd, pj, fp) ->
        exists before after path id cls,
          product_sequence ctx = before ++ pd :: after /\
          (forall pd', In pd' before -> Product_split pd' qpath = None) /\
          Product_split pd qpath = Some (path, fp) /\
          identifier_by_factor pd path = Ok (id, cls) /\
          Context_project ctx id = Ok pj).
Proof.
  unfold Context_split. split.
  - rewrite <- first_split_none.
    destruct (first_split (product_sequence ctx) qpath)
      as [[pd [path fp]]|] eqn:Ef.
    + split; [|discriminate].
      unfold identifier_by_factor, Context_project, dict_item.
      destruct (dict_get path (pd_local pd)) as [[id rest]|]; simpl;
        [|discriminate].
      destruct rest as [|proto [|more rest]]; try discriminate.
      destruct (import_protocol proto) as [cls|e] eqn:Ei; simpl.
      * destruct (dict_get id (cached_projects ctx)); simpl; discriminate.
      * unfold import_protocol, dict_item in Ei.
        destruct (dict_get proto protocols); [discriminate|].
        injection Ei as <-. discriminate.
    + split; reflexivity.
  - intros pd pj fp.
    destruct (first_split (product_sequence ctx) qpath)
      as [[pd0 [path fp0]]|] eqn:Ef; [|discriminate].
    destruct (identifier_by_factor pd0 path) as [[id cls]|] eqn:Ei; simpl;
      [|discriminate].
    destruct (Context_project ctx id) as [pj0|] eqn:Ep; simpl; [|discriminate].
    intros [= <- <- <-].
    destruct (first_split_some _ _ _ _ Ef) as [before [after [Hs [Hn Hp]]]].
    exists before, after, path, id, cls. auto.
Qed.

(** ** The layers of Context.symbols *)

Section SymbolsLayers.
Variable Value : Type.
Variable infrastructure : Project -> dict string Value.

Lemma ChainMap_get_app (maps1 maps2 : list (dict string Value)) key :
  ChainMap_get (maps1 ++ maps2) key
  = match ChainMap_get maps1 key with
    | Some v => Some v
    | None => ChainMap_get maps2 key
    end.
Proof.
  induction maps1 as [|m maps1 IH]; simpl; [reflexivity|].
  destruct (dict_get key m); [reflexivity | exact IH].
Qed.

Lemma consume_length {A} (g : list (result A)) (l : list A) :
  consume g = Ok l -> List.length l = List.length g.
Proof.
  revert l; induction g as [|r g IH]; intros l; simpl.
  - now intros [= <-].
  - destruct r as [a|]; simpl; [|discriminate].
    destruct (consume g) as [l'|]; simpl; [|discriminate].
    intros [= <-]. simpl. f_equal. now apply IH.
Qed.

(** X15.  The maps of [symbols] are the infrastructures of the context
    projects of the project, the farthest first, and the project's own
    last; the [ChainMap] asks them in that order, so a lookup gives the
    project's own definition of a key only when no context project of
    its chain defines the key.  A project at the top of its product has
    no context and sees its own definitions; and [symbols] raises
    [KeyError] when the nearest context path of the project is not
    registered in its product. *)
Theorem Context_symbols_layers (ctx : Context) (pj : Project) :
  (forall maps,
      Context_symbols infrastructure ctx pj = Ok maps ->
      exists chain,
        consume (Context_itercontexts ctx pj) = Ok chain /\
        List.length chain = List.length (Project_itercontexts pj) /\
        maps = map infrastructure (rev chain) ++ [infrastructure pj] /\
        forall key,
          ChainMap_get maps key
          = match ChainMap_get (map infrastructure (rev chain)) key with
            | Some v => Some v
            | None => dict_get key (infrastructure pj)
            end)
  /\ (List.length (pj_factor pj) <= 1 ->
      Context_symbols infrastructure ctx pj = Ok [infrastructure pj])
  /\ (forall path rest,
        Project_itercontexts pj = path :: rest ->
        dict_get path (pd_local (pj_product pj)) = None ->
        Context_symbols infrastructure ctx pj = Raise KeyError).
Proof.
  unfold Context_symbols. split; [|split].
  - intros maps.
    destruct (consume (Context_itercontexts ctx pj)) as [chain|] eqn:Ec;
      simpl; [|discriminate].
    intros [= <-]. exists chain. split; [reflexivity|]. split.
    + rewrite (consume_length _ _ Ec). unfold Context_itercontexts.
      apply length_map.
    + rewrite map_app. split; [reflexivity|].
      intros key. rewrite ChainMap_get_app. simpl.
      now destruct (dict_get key (infrastructure pj)).
  - intros Hlen. unfold Context_itercontexts, Project_itercontexts, container.
    destruct (pj_factor pj) as [|a [|b p]]; simpl in *; try reflexivity; lia.
  - intros path rest Hp Hg. unfold Context_itercontexts. rewrite Hp. simpl.
    unfold identifier_by_factor, dict_item. now rewrite Hg.
Qed.

End SymbolsLayers.

(** ** The order of the lines that store writes *)

Lemma ascii_compare_lt_trans (a b c : ascii) :
  Ascii.compare a b = Lt -> Ascii.compare b c = Lt -> Ascii.compare a c = Lt.
Proof.
  unfold Ascii.compare. rewrite !N.compare_lt_iff. apply N.lt_trans.
Qed.

Lemma ascii_compare_refl (a : ascii) : Ascii.compare a a = Eq.
Proof. unfold Ascii.compare. apply N.compare_refl. Qed.

Lemma string_compare_lt_trans (s1 s2 s3 : string) :
  String.compare s1 s2 = Lt -> String.compare s2 s3 = Lt ->
  String.compare s1 s3 = Lt.
Proof.
  revert s2 s3; induction s1 as [|a s1 IH]; intros [|b s2] [|c s3]; simpl;
    try discriminate; try reflexivity.
  destruct (Ascii.compare a b) eqn:Eab; try discriminate.
  - apply Ascii.compare_eq_iff in Eab as ->.
    destruct (Ascii.compare b c); try discriminate; [apply IH | reflexivity].
  - intros _. destruct (Ascii.compare b c) eqn:Ebc; try discriminate.
    + apply Ascii.compare_eq_iff in Ebc as <-. now rewrite Eab.
    + now rewrite (ascii_compare_lt_trans _ _ _ Eab Ebc).
Qed.

Lemma string_compare_refl (s : string) : String.compare s s = Eq.
Proof.
  induction s as [|a s IH]; simpl; [reflexivity|].
  now rewrite ascii_compare_refl.
Qed.

Lemma string_leb_trans (s1 s2 s3 : string) :
  String.leb s1 s2 = true -> String.leb s2 s3 = true ->
  String.leb s1 s3 = true.
Proof.
  unfold String.leb.
  destruct (String.compare s1 s2) eqn:E12; try discriminate; intros _;
    destruct (String.compare s2 s3) eqn:E23; try discriminate; intros _.
  - apply String.compare_eq_iff in E12 as ->.
    now rewrite E23.
  - apply String.compare_eq_iff in E12 as ->. now rewrite E23.
  - apply String.compare_eq_iff in E23 as <-. now rewrite E12.
  - now rewrite (string_compare_lt_trans _ _ _ E12 E23).
Qed.

Lemma string_leb_refl (s : string) : String.leb s s = true.
Proof. unfold String.leb. now rewrite string_compare_refl. Qed.

(** Two sorted listings of the same elements are the same list, when the
    order separates the elements. *)
Lemma sorted_perm_unique {A} (R : A -> A -> Prop) (l1 l2 : list A) :
  (forall x y, In x l1 -> In y l1 -> R x y -> R y x -> x = y) ->
  StronglySorted R l1 -> StronglySorted R l2 -> Permutation l1 l2 ->
  l1 = l2.
Proof.
  revert l2; induction l1 as [|x l1 IH]; intros l2 Hanti Hs1 Hs2 Hp.
  - apply Permutation_nil in Hp. now subst.
  - destruct l2 as [|y l2];
      [apply Permutation_sym, Permutation_nil in Hp; discriminate|].
    inversion Hs1 as [|? ? Hs1' Hx]; subst.
    inversion Hs2 as [|? ? Hs2' Hy]; subst.
    rewrite Forall_forall in Hx, Hy.
    assert (Exy : x = y).
    { assert (Hyin : In y (x :: l1))
        by (eapply Permutation_in; [apply Permutation_sym; exact Hp | now left]).
      assert (Hxin : In x (y :: l2))
        by (eapply Permutation_in; [exact Hp | now left]).
      destruct Hyin as [E|Hyin]; [exact E|].
      destruct Hxin as [E|Hxin]; [now symmetry|].
      apply Hanti; [now left | now right | now apply Hx | now apply Hy]. }
    subst y. f_equal.
    apply IH; try assumption.
    + intros a b Ha Hb. apply Hanti; now right.
    + eapply Permutation_cons_inv; exact Hp.
Qed.

Lemma path_le_total (p q : FactorPath) :
  path_le p q = true \/ path_le q p = true.
Proof.
  revert q; induction p as [|a p IH]; intros [|b q]; simpl; auto.
  rewrite (String.eqb_sym b a).
  destruct (String.eqb a b); [apply IH | apply String.leb_total].
Qed.

Lemma path_le_antisym (p q : FactorPath) :
  path_le p q = true -> path_le q p = true -> p = q.
Proof.
  revert q; induction p as [|a p IH]; intros [|b q]; simpl;
    try discriminate; try reflexivity.
  rewrite (String.eqb_sym b a).
  destruct (String.eqb_spec a b) as [->|Hne].
  - intros H1 H2. f_equal. now apply IH.
  - intros H1 H2. exfalso. apply Hne. now apply String.leb_antisym.
Qed.

Lemma path_le_trans (p q r : FactorPath) :
  path_le p q = true -> path_le q r = true -> path_le p r = true.
Proof.
  revert q r; induction p as [|a p IH]; intros [|b q] [|c r]; simpl;
    try discriminate; try reflexivity.
  destruct (String.eqb_spec a b) as [->|Hab].
  - destruct (String.eqb_spec b c) as [->|Hbc]; [apply IH | auto].
  - destruct (String.eqb_spec b c) as [->|Hbc].
    + intros H1 _. destruct (String.eqb_spec a c); [congruence | exact H1].
    + intros H1 H2. destruct (String.eqb_spec a c) as [->|Hac].
      * exfalso. apply Hab. now apply String.leb_antisym.
      * now apply string_leb_trans with b.
Qed.

(** X16.  The PROJECTS file that [store] writes is fixed by the contents
    of the [projects] table: whatever the insertion order of the
    dictionary, the lines are the same and stand in ascending order of
    the identifiers.  The ROOTS file is fixed by the set of roots in the
    same way, in the order of the paths. *)
Theorem store_projects_roots_deterministic (pd1 pd2 : Product)
  (cache1 cache2 : Cache) :
  NoDup (dict_keys (pd_projects pd1)) ->
  Permutation (pd_projects pd1) (pd_projects pd2) ->
  Permutation (pd_roots pd1) (pd_roots pd2) ->
  PROJECTS (fst (Product_store pd1 cache1))
    = PROJECTS (fst (Product_store pd2 cache2))
  /\ PROJECTS (fst (Product_store pd1 cache1))
     = Some (writelines
               (map project_line (py_sort project_le (pd_projects pd1))))
  /\ StronglySorted (fun x y => String.leb (fst x) (fst y) = true)
       (py_sort project_le (pd_projects pd1))
  /\ (snd (Product_store pd1 cache1) = Returned ->
      snd (Product_store pd2 cache2) = Returned ->
      ROOTS (fst (Product_store pd1 cache1))
        = ROOTS (fst (Product_store pd2 cache2))).
Proof.
  intros Hnd Hperm Hroots.
  assert (Hsorted : forall l,
    StronglySorted (fun x y : string * (FactorPath * list string) =>
                      String.leb (fst x) (fst y) = true)
      (py_sort project_le l)).
  { intros l. apply (py_sort_sorted project_le).
    - intros a b. apply String.leb_total.
    - intros a b c. apply string_leb_trans. }
  assert (Hprj : py_sort project_le (pd_projects pd1)
                 = py_sort project_le (pd_projects pd2)).
  { apply sorted_perm_unique
      with (R := fun x y : string * (FactorPath * list string) =>
                   String.leb (fst x) (fst y) = true).
    - intros [k1 v1] [k2 v2] H1 H2 Hle1 Hle2. simpl in *.
      pose proof (String.leb_antisym _ _ Hle1 Hle2) as ->.
      assert (Hnd' : NoDup (dict_keys (py_sort project_le (pd_projects pd1)))).
      { eapply Permutation_NoDup; [|exact Hnd].
        apply Permutation_map, Permutation_sym, py_sort_perm. }
      apply dict_in_get in H1, H2; try exact Hnd'. congruence.
    - apply Hsorted.
    - apply Hsorted.
    - rewrite !py_sort_perm. exact Hperm. }
  assert (Hrt : py_sort path_le (pd_roots pd1) = py_sort path_le (pd_roots pd2)).
  { apply sorted_perm_unique with (R := fun x y => path_le x y = true).
    - intros x y _ _. apply path_le_antisym.
    - apply py_sort_sorted; [apply path_le_total | apply path_le_trans].
    - apply py_sort_sorted; [apply path_le_total | apply path_le_trans].
    - rewrite !py_sort_perm. exact Hroots. }
  assert (Hfst : forall pd cache,
    PROJECTS (fst (Product_store pd cache))
    = Some (writelines (map project_line (py_sort project_le (pd_projects pd))))).
  { intros pd cache. unfold Product_store.
    now destruct (sort_contexts (pd_contexts pd)). }
  split; [now rewrite !Hfst, Hprj|]. split; [apply Hfst|].
  split; [apply Hsorted|].
  unfold Product_store.
  destruct (sort_contexts (pd_contexts pd1)); [|discriminate].
  destruct (sort_contexts (pd_contexts pd2)); [|discriminate].
  intros _ _. simpl. now rewrite Hrt.
Qed.

Lemma store_projects_roots_deterministic_witness :
  let pd1 := mkProduct "/pd" 4096 []
               [("b", (["q"], ["factors/polynomial-1"]));
                ("a", (["p"], ["factors/polynomial-1"]))] [] [["q"]; ["p"]] in
  let pd2 := mkProduct "/pd" 4096 []
               [("a", (["p"], ["factors/polynomial-1"]));
                ("b", (["q"], ["factors/polynomial-1"]))] [] [["p"]; ["q"]] in
  PROJECTS (fst (Product_store pd1 Cache_empty))
    = PROJECTS (fst (Product_store pd2 Cache_empty)).
Proof.
  intros pd1 pd2.
  apply (store_projects_roots_deterministic pd1 pd2 Cache_empty Cache_empty).
  - repeat constructor; simpl; intuition discriminate.
  - apply perm_swap.
  - apply perm_swap.
Defined.

(** ** The outcome of Product.load *)



(** ** The corpus and the name of a project *)

Lemma rsplit_once_some (c : ascii) (s h t : string) :
  rsplit_once c s = Some (h, t) ->
  s = (h ++ String c t)%string /\ contains c t = false.
Proof.
  revert h t; induction s as [|a s IH]; intros h t; simpl; [discriminate|].
  destruct (rsplit_once c s) as [[h' t']|] eqn:Er.
  - intros [= <- <-]. destruct (IH _ _ eq_refl) as [-> Ht]. auto.
  - destruct (Ascii.eqb_spec a c) as [->|Hne]; [|discriminate].
    intros [= <- <-]. split; [reflexivity|].
    clear IH. induction s as [|b s IHs]; simpl in *; [reflexivity|].
    destruct (rsplit_once c s) as [[h' t']|]; [discriminate|].
    destruct (Ascii.eqb b c); [discriminate|]. simpl. now apply IHs.
Qed.

Lemma rsplit_once_none (c : ascii) (s : string) :
  rsplit_once c s = None <-> contains c s = false.
Proof.
  induction s as [|a s IH]; simpl; [tauto|].
  destruct (rsplit_once c s) as [[h t]|].
  - split; [discriminate|]. intros H. apply orb_false_iff in H as [_ H].
    apply IH in H. discriminate.
  - destruct (Ascii.eqb a c); simpl; [split; discriminate|].
    split; intros _; [now apply IH | reflexivity].
Qed.

Lemma rstrip_char_end (c : ascii) (s h : string) :
  rstrip_char c s <> (h ++ String c "")%string.
Proof.
  revert h; induction s as [|a s IH]; intros h; simpl.
  - destruct h; discriminate.
  - destruct (rstrip_char c s) as [|b r] eqn:Er.
    + destruct (Ascii.eqb_spec a c) as [->|Hne].
      * destruct h; discriminate.
      * destruct h as [|x [|y h]]; simpl; try discriminate.
        intros [= ->]. congruence.
    + destruct h as [|x h]; simpl; [discriminate|].
      intros [= -> Hr]. now apply (IH h).
Qed.

Lemma rstrip_char_tail (c : ascii) (s : string) :
  exists n, s = (rstrip_char c s ++ repeat_char c n)%string.
Proof.
  induction s as [|a s [n IH]]; simpl.
  - now exists 0.
  - destruct (rstrip_char c s) as [|b r] eqn:Er.
    + destruct (Ascii.eqb_spec a c) as [->|Hne].
      * exists (S n). simpl in *. f_equal. exact IH.
      * exists n. simpl in *. f_equal. exact IH.
    + exists n. simpl in *. f_equal. exact IH.
Qed.

(** X18.  The corpus and the name of a project cut its identifier, less
    the slashes at its end, at the last slash: the name holds no slash;
    with a slash in the identifier the identifier is the corpus, a slash
    and the name, and the name is not empty; without one the corpus is
    empty and the name is the whole identifier. *)
Theorem Project_corpus_name (pj : Project) :
  let stripped := rstrip_char slash (pj_identifier pj) in
  contains slash (Project_name pj) = false
  /\ (contains slash stripped = true ->
      stripped = (Project_corpus pj ++ String slash (Project_name pj))%string
      /\ Project_name pj <> EmptyString)
  /\ (contains slash stripped = false ->
      Project_corpus pj = EmptyString /\ Project_name pj = stripped)
  /\ (exists n,
        pj_identifier pj = (stripped ++ repeat_char slash n)%string).
Proof.
  intros stripped. unfold Project_corpus, Project_name, iid_corpus_name_pair.
  fold stripped.
  destruct (rsplit_once slash stripped) as [[corpus name]|] eqn:Er; simpl.
  - destruct (rsplit_once_some _ _ _ _ Er) as [Hs Hn].
    split; [exact Hn|]. split; [|split].
    + intros _. split; [exact Hs|]. intros ->.
      apply (rstrip_char_end slash (pj_identifier pj) corpus). exact Hs.
    + intros Hc. apply rsplit_once_none in Hc. congruence.
    + apply rstrip_char_tail.
  - pose proof (proj1 (rsplit_once_none _ _) Er) as Hc.
    split; [exact Hc|]. split; [|split].
    + intros Ht. congruence.
    + auto.
    + apply rstrip_char_tail.
Qed.

(** ** Project.split *)

Lemma drop_all (n : nat) (s : string) :
  String.length s <= n -> drop n s = EmptyString.
Proof.
  revert s; induction n as [|n IH]; intros [|c s]; simpl; intros Hl;
    try reflexivity; try lia.
  apply IH. lia.
Qed.

Lemma ancestry_from_firstn (m : nat) (p q : FactorPath) :
  (forall j, j <= m -> firstn j p = firstn j q) ->
  ancestry_from m p = ancestry_from m q.
Proof.
  induction m as [|m IH]; intros Heq; [reflexivity|].
  change (ancestry_from (S m) p) with (firstn (S m) p :: ancestry_from m p).
  change (ancestry_from (S m) q) with (firstn (S m) q :: ancestry_from m q).
  rewrite (Heq (S m)) by lia. f_equal. apply IH. intros j Hj. apply Heq. lia.
Qed.

Lemma container_firstn (k : nat) (p : FactorPath) :
  S k <= List.length p -> container (firstn (S k) p) = firstn k p.
Proof.
  intros Hk. unfold container.
  rewrite removelast_firstn_len, firstn_firstn, length_firstn.
  f_equal. lia.
Qed.

Section ProjectSplit.
Variable FactorType : Type.
Variable FactorData : Type.
Variable iterfactors :
  Project -> FactorPath -> list ((FactorPath * FactorType) * FactorData).

Lemma select_find_some pj p last f t d :
  find (fun item => keq (fst (fst item)) last) (Project_select iterfactors pj p)
    = Some ((f, t), d) ->
  f = last /\
  exists item, In item (iterfactors pj p) /\ p ++ fst (fst item) = last.
Proof.
  intros Hf. apply find_some in Hf as [Hin Hk].
  change (keq f last = true) in Hk. apply keq_eq in Hk. subst f. split; [reflexivity|].
  unfold Project_select in Hin. apply in_map_iff in Hin as [item [Hi Hin]].
  exists item. split; [exact Hin|]. injection Hi as H1 _ _. exact H1.
Qed.

Lemma select_find_none pj p last :
  find (fun item => keq (fst (fst item)) last) (Project_select iterfactors pj p)
    = None ->
  forall item, In item (iterfactors pj p) -> p ++ fst (fst item) <> last.
Proof.
  intros Hf item Hin Heq.
  pose proof (find_none _ _ Hf
                ((p ++ fst (fst item), snd (fst item)), snd item)) as Hn.
  change (In ((p ++ fst (fst item), snd (fst item)), snd item)
            (Project_select iterfactors pj p) ->
          keq (p ++ fst (fst item)) last = false) in Hn.
  rewrite Heq, keq_refl in Hn.
  assert (In ((last, snd (fst item)), snd item)
            (Project_select iterfactors pj p)).
  { unfold Project_select. apply in_map_iff. exists item.
    split; [|exact Hin].
    apply f_equal2; [apply f_equal2; [exact Heq | reflexivity] | reflexivity]. }
  specialize (Hn H). discriminate.
Qed.

(** The loop from the prefix of [S m] segments downwards. *)
Lemma split_levels_prefix pj xstr (fp : FactorPath) :
  forall m, S m <= List.length fp ->
    match split_levels iterfactors pj xstr (ancestry_from m fp ++ [factor])
            (firstn (S m) fp) with
    | Some (f, rest) =>
        exists k, 1 <= k <= S m /\ f = firstn k fp /\
                  listed iterfactors pj f /\
                  rest = drop (String.length (fp_str f) + 1) xstr /\
                  forall j, k < j <= S m ->
                            ~ listed iterfactors pj (firstn j fp)
    | None =>
        forall j, 1 <= j <= S m -> ~ listed iterfactors pj (firstn j fp)
    end.
Proof.
  induction m as [|m IH]; intros Hm.
  - simpl ancestry_from. simpl app. cbn [split_levels].
    destruct (find _ _) as [[[f t] d]|] eqn:Ef.
    + apply select_find_some in Ef as [-> [item [Hin Heq]]].
      exists 1. split; [lia|]. split; [reflexivity|]. split.
      * exists item. rewrite container_firstn by lia. auto.
      * split; [reflexivity | intros j Hj; lia].
    + intros j Hj. assert (j = 1) by lia. subst j.
      intros [item [Hin Heq]]. rewrite container_firstn in Hin, Heq by lia.
      exact (select_find_none _ _ _ Ef item Hin Heq).
  - change (ancestry_from (S m) fp)
      with (firstn (S m) fp :: ancestry_from m fp).
    cbn [app split_levels].
    destruct (find _ _) as [[[f t] d]|] eqn:Ef.
    + apply select_find_some in Ef as [-> [item [Hin Heq]]].
      exists (S (S m)). split; [lia|]. split; [reflexivity|]. split.
      * exists item. rewrite container_firstn by lia. auto.
      * split; [reflexivity | intros j Hj; lia].
    + assert (Hno : ~ listed iterfactors pj (firstn (S (S m)) fp)).
      { intros [item [Hin Heq]]. rewrite container_firstn in Hin, Heq by lia.
        exact (select_find_none _ _ _ Ef item Hin Heq). }
      specialize (IH ltac:(lia)).
      destruct (split_levels iterfactors pj xstr
                  (ancestry_from m fp ++ [factor]) (firstn (S m) fp))
        as [[f rest]|].
      * destruct IH as [k [Hk [Hf [Hl [Hr Hmax]]]]].
        exists k. split; [lia|]. repeat split; try assumption.
        intros j Hj. destruct (Nat.eq_dec j (S (S m))) as [->|Hne];
          [exact Hno | apply Hmax; lia].
      * intros j Hj. destruct (Nat.eq_dec j (S (S m))) as [->|Hne];
          [exact Hno | apply IH; lia].
Qed.

Lemma drop_prefix_text (fp : FactorPath) (k : nat) :
  k <= List.length fp -> (fp <> [] -> 1 <= k) ->
  drop (String.length (fp_str (firstn k fp)) + 1) (fp_str fp)
  = fp_str (skipn k fp).
Proof.
  intros Hk Hpos.
  destruct (Nat.eq_dec k (List.length fp)) as [->|Hne].
  - rewrite firstn_all, skipn_all. apply drop_all. lia.
  - assert (Hf : firstn k fp <> []).
    { destruct fp; [simpl in *; lia|]. specialize (Hpos ltac:(discriminate)).
      destruct k; [lia | discriminate]. }
    assert (Hs : skipn k fp <> []).
    { intros E. apply (f_equal (@List.length _)) in E.
      rewrite length_skipn in E. simpl in E. lia. }
    rewrite <- (firstn_skipn k fp) at 2.
    unfold fp_str. rewrite join_app by assumption.
    rewrite <- string_app_assoc.
    replace (String.length (join "." (firstn k fp)) + 1)
      with (String.length (join "." (firstn k fp) ++ ".")%string)
      by (rewrite string_length_app; reflexivity).
    apply drop_app.
Qed.

(** X19.  [Project.split] returns the longest leading part of the path,
    of at least one segment, that the protocol lists among the factors of
    its container, with the text of the remaining segments; it returns
    [None] when no leading part is listed. *)
Theorem Project_split_longest_listed (pj : Project) (fp : FactorPath) :
  (forall f rest,
      Project_split iterfactors pj fp = Some (f, rest) ->
      exists k,
        k <= List.length fp /\ (fp <> [] -> 1 <= k) /\
        f = firstn k fp /\ listed iterfactors pj f /\
        rest = fp_str (skipn k fp) /\
        forall j, k < j <= List.length fp ->
                  ~ listed iterfactors pj (firstn j fp))
  /\ (Project_split iterfactors pj fp = None ->
      forall j, j <= List.length fp -> (fp <> [] -> 1 <= j) ->
                ~ listed iterfactors pj (firstn j fp)).
Proof.
  unfold Project_split.
  destruct fp as [|a fp'] eqn:Efp.
  - (* the empty path: one turn, for the empty path itself *)
    simpl. destruct (find _ _) as [[[f t] d]|] eqn:Ef.
    + split; [|discriminate]. intros f0 rest [= <- <-].
      apply select_find_some in Ef as [-> [item [Hin Heq]]].
      exists 0. repeat split; try lia; try reflexivity.
      * congruence.
      * exists item. auto.
    + split; [discriminate|]. intros _ j Hj _.
      assert (j = 0) by (simpl in Hj; lia). subst j. simpl.
      intros [item [Hin Heq]].
      exact (select_find_none _ _ _ Ef item Hin Heq).
  - rewrite <- Efp.
    assert (Hlen : S (List.length fp') = List.length fp)
      by (subst fp; reflexivity).
    assert (Hanc : ancestry (container fp) = ancestry_from (List.length fp') fp).
    { unfold ancestry, container.
      rewrite removelast_firstn_len, length_firstn.
      replace (Nat.min (Nat.pred (List.length fp)) (List.length fp))
        with (List.length fp') by lia.
      apply ancestry_from_firstn. intros j Hj.
      rewrite firstn_firstn. f_equal. lia. }
    rewrite Hanc.
    pose proof (split_levels_prefix pj (fp_str fp) fp (List.length fp')
                  ltac:(lia)) as Hsp.
    rewrite Hlen, firstn_all in Hsp.
    assert (Hne : fp <> []) by (subst fp; discriminate).
    destruct (split_levels iterfactors pj (fp_str fp)
                (ancestry_from (List.length fp') fp ++ [factor]) fp)
      as [[f rest]|].
    + split; [|discriminate]. intros f0 rest0 [= <- <-].
      destruct Hsp as [k [Hk [Hf [Hl [Hr Hmax]]]]].
      exists k. split; [lia|]. split; [intros _; lia|].
      split; [exact Hf|]. split; [exact Hl|]. split; [|exact Hmax].
      rewrite Hr, Hf. apply drop_prefix_text; [lia | intros _; lia].
    + split; [discriminate|]. intros _ j Hj Hpos.
      apply Hsp. specialize (Hpos Hne). lia.
Qed.

End ProjectSplit.

(** ** The live scans of a Product *)


Section LiveProps.
Variable fs : Filesystem.
Variable limit : nat.
Hypothesis no_period :
  forall parent name,
    In name (fs_iterfiles fs parent) -> contains dot name = false.




End LiveProps.


Section LiveProjects.
Variable fs : Filesystem.
Variable limit : nat.

Lemma projects_directory_plain parent before name after :
  forall i stack,
    i + List.length before < limit ->
    read_protocol fs (parent ++ [name]) = None ->
    check_context_status fs (parent ++ [name]) = false ->
    exists ys,
      projects_directory fs limit parent (before ++ name :: after) i stack
      = Walk_raise ys Live_TypeError.
Proof.
  induction before as [|b before IH]; intros i stack Hi Hp Hc; simpl.
  - simpl in Hi. destruct (Nat.ltb limit (i + 1)) eqn:El.
    + apply Nat.ltb_lt in El. lia.
    + rewrite Hp, Hc. eauto.
  - simpl in Hi. destruct (Nat.ltb limit (i + 1)) eqn:El.
    + apply Nat.ltb_lt in El. lia.
    + destruct (read_protocol fs (parent ++ [b])) as [p|].
      * destruct (IH (i + 1) stack ltac:(lia) Hp Hc) as [ys ->].
        simpl. eauto.
      * destruct (check_context_status fs (parent ++ [b])); [|eauto].
        apply IH; [lia | assumption | assumption].
Qed.

(** X21.  [Product.iterprojects] yields nothing when the start directory
    itself has a protocol.  Otherwise it builds [p + (d,)] for every
    directory that is no context without protocol, so a directory of the
    start directory that has neither a protocol nor the context status,
    met within the limit, ends the scan with a [TypeError]. *)
Theorem Product_iterprojects_plain_directory (prefix : FactorPath) :
  (read_protocol fs prefix <> None ->
   Product_iterprojects fs limit prefix = ([], Live_returned))
  /\ (forall before name after,
        read_protocol fs prefix = None ->
        fs_iterfiles fs prefix = before ++ name :: after ->
        List.length before < limit ->
        read_protocol fs (prefix ++ [name]) = None ->
        check_context_status fs (prefix ++ [name]) = false ->
        snd (Product_iterprojects fs limit prefix) = Live_TypeError).
Proof.
  unfold Product_iterprojects. split.
  - destruct (read_protocol fs prefix); [reflexivity | congruence].
  - intros before name after Hstart Hnames Hlen Hp Hc.
    rewrite Hstart. simpl. rewrite Hnames.
    destruct (projects_directory_plain prefix before name after 0 []
                ltac:(simpl; lia) Hp Hc) as [ys Hy].
    unfold FactorPath in *. rewrite Hy. reflexivity.
Qed.

End LiveProjects.

(** ** Failures of update, cached projects, and store after load *)

Lemma scan_product_directory_endings
  (iscontext : list string -> bool)
  (read_protocol : list string -> option (list string))
  (fs : Filesystem) (limit : nat) (roots : list FactorPath) e :
  ending (scan_product_directory iscontext read_protocol fs limit roots)
    = Raised e ->
  e = RuntimeError_scan_limit \/ e = IndexError.
Proof.
  unfold scan_product_directory.
  destruct roots as [|fp roots].
  - pose proof (scan_directory_ends iscontext read_protocol limit true []
                  (fs_iterfiles fs []) 0 [] (Nat.le_0_l limit)) as He.
    destruct (scan_directory _ _ _ _ _ _ _ _) as [evs i st|evs e0 c] eqn:Hd.
    + simpl.
      destruct (scan_directory_continue _ _ _ _ _ _ _ _ _ _ _ Hd
                  (Nat.le_0_l limit)) as [_ Hst].
      destruct (scan_stack_ends iscontext read_protocol fs limit
                  (List.length st + limit) i st He ltac:(lia))
        as [[Hr _]|[[Hr _]|[Hr _]]]; rewrite Hr; intros [= <-]; auto.
    + simpl. intros [= <-]. destruct He as [[-> _]|[-> _]]; auto.
  - pose proof (scan_roots_counter iscontext read_protocol (fp :: roots) [])
      as Hc.
    destruct (scan_roots _ _ _ _) as [evs i st|evs e0 c] eqn:Hd;
      simpl in Hc; subst.
    + simpl.
      destruct (scan_stack_ends iscontext read_protocol fs limit
                  (List.length st + limit) 0 st (Nat.le_0_l limit) ltac:(lia))
        as [[Hr _]|[[Hr _]|[Hr _]]]; rewrite Hr; intros [= <-]; auto.
    + simpl. intros [= <-]. apply scan_roots_abort in Hd. auto.
Qed.

(** X22.  [update] is all or nothing: when it raises, which it does with
    the scan limit error or with [IndexError] only, the product is left
    as it was; when it returns, the route and the limit are kept, the
    identifiers of [projects] are distinct and [local] is built from
    [projects]. *)
Theorem Product_update_outcome (fs : Filesystem) (pd : Product) :
  (forall e, snd (Product_update fs pd) = Raised e ->
     fst (Product_update fs pd) = pd /\
     (e = RuntimeError_scan_limit \/ e = IndexError))
  /\ (snd (Product_update fs pd) = Returned ->
      pd_route (fst (Product_update fs pd)) = pd_route pd /\
      pd_limit (fst (Product_update fs pd)) = pd_limit pd /\
      NoDup (dict_keys (pd_projects (fst (Product_update fs pd)))) /\
      pd_local (fst (Product_update fs pd))
        = local_of_projects (pd_projects (fst (Product_update fs pd)))).
Proof.
  unfold Product_update.
  pose proof (scan_product_directory_endings (check_context_status fs)
                (read_protocol fs) fs (pd_limit pd) (pd_roots pd)) as He.
  destruct (ending (scan_product_directory _ _ _ _ _)) as [|e0]; simpl.
  - split; [discriminate|]. intros _.
    repeat split. apply dict_of_list_nodup.
  - split; [|discriminate]. intros e [= <-]. split; [reflexivity|].
    now apply He.
Qed.

(** X23.  After [load] on a context made by [connect], [project(id)]
    raises [KeyError] exactly when no connected product declares the
    identifier and the cache did not hold it before. *)
Theorem Context_project_after_load (disk : string -> Cache)
  (ctx ctx' : Context) (id : string) :
  Connected disk ctx ->
  Context_load ctx = (ctx', Returned) ->
  (Context_project ctx' id = Raise KeyError <->
   (forall pd, In pd (product_sequence ctx) -> declares id pd = false) /\
   dict_get id (cached_projects ctx) = None).
Proof.
  intros Hconn Hload.
  pose proof (Connected_coherent _ _ Hconn) as Hcoh.
  destruct (Context_load_returned _ _ Hload) as [cache [Hl ->]].
  assert (Hnd : Forall (fun pd => NoDup (dict_keys (pd_projects pd)))
                  (rev (product_sequence ctx))).
  { rewrite Forall_forall in Hcoh |- *. intros pd Hin.
    apply in_rev in Hin. now destruct (Hcoh pd Hin). }
  pose proof (load_products_returned _ Hnd _ _ Hl id) as Hg.
  rewrite rev_involutive in Hg.
  unfold Context_project, dict_item. simpl.
  destruct (find (declares id) (product_sequence ctx)) as [pd|] eqn:Ef.
  - destruct Hg as [fp [proto [cls [_ [_ Hg]]]]]. rewrite Hg.
    split; [discriminate|]. intros [Hall _].
    apply find_some in Ef as [Hin Hd]. rewrite (Hall pd Hin) in Hd.
    discriminate.
  - rewrite Hg. split.
    + intros Hk. split.
      * intros pd Hin. pose proof (find_none _ _ Ef pd Hin) as Hn. exact Hn.
      * now destruct (dict_get id (cached_projects ctx)).
    + intros [_ ->]. reflexivity.
Qed.

Lemma Context_project_after_load_witness :
  Context_project ctx_xy "absent" = Raise KeyError.
Proof.
  apply (Context_project_after_load disk_example ctx_xy_connected ctx_xy).
  - repeat constructor.
  - vm_compute. reflexivity.
  - split; [|reflexivity].
    intros pd [<-|[<-|[]]]; vm_compute; reflexivity.
Defined.








(** ** index and iterprojects of a Context *)

Lemma index_from_found pds product : forall i j,
  index_from i pds product = Some j ->
  exists k pd,
    j = i + k /\ nth_error pds k = Some pd /\ pd_route pd = product /\
    (forall k' pd', k' < k -> nth_error pds k' = Some pd' ->
       pd_route pd' <> product).
Proof.
  induction pds as [|x pds IH]; intros i j; simpl; [discriminate|].
  destruct (String.eqb_spec (pd_route x) product) as [He|Hne].
  - intros [= <-]. exists 0, x.
    split; [lia|]. split; [reflexivity|]. split; [exact He|].
    intros k' pd' Hlt. lia.
  - intros Hf. destruct (IH _ _ Hf) as (k & pd & -> & Hn & Hr & Hfirst).
    exists (S k), pd.
    split; [lia|]. split; [exact Hn|]. split; [exact Hr|].
    intros [|k'] pd' Hlt; simpl.
    + intros [= <-]. exact Hne.
    + intros Hn'. apply (Hfirst k' pd'); [lia | exact Hn'].
Qed.

Lemma index_from_none pds product : forall i,
  index_from i pds product = None ->
  forall pd, In pd pds -> pd_route pd <> product.
Proof.
  induction pds as [|x pds IH]; intros i; simpl; [intros _ pd []|].
  destruct (String.eqb_spec (pd_route x) product) as [He|Hne];
    [discriminate|].
  intros Hf pd [<-|Hin]; [exact Hne | exact (IH _ Hf pd Hin)].
Qed.

Lemma Connected_cache disk ctx :
  Connected disk ctx ->
  dict_keys (cached_products ctx) = map pd_route (product_sequence ctx) /\
  (forall pd, In pd (product_sequence ctx) ->
     dict_get (pd_route pd) (cached_products ctx) = Some pd).
Proof.
  induction 1 as [|ctx route Hc IH|ctx Hc IH].
  - simpl. split; [reflexivity | intros pd []].
  - destruct IH as [Hk Hall].
    unfold Context_connect.
    destruct (dict_get route (cached_products ctx)) as [pd0|] eqn:Eg;
      [simpl; auto|].
    destruct (Product_load (disk route) (Product_new route 4096))
      as [pd e] eqn:El.
    destruct e as [|e]; [|simpl; auto].
    assert (Hroute : pd_route pd = route).
    { change pd with (fst (pd, Returned)). rewrite <- El.
      apply Product_load_route. }
    simpl. split.
    + rewrite dict_keys_set. unfold dict_mem. rewrite Eg.
      rewrite map_app, Hk. simpl. now rewrite Hroute.
    + intros pd1 Hin1. rewrite dict_get_set.
      apply in_app_or in Hin1 as [Hin|[<-|[]]].
      * destruct (keq_spec route (pd_route pd1)) as [->|_];
          [|exact (Hall _ Hin)].
        exfalso. apply dict_get_none in Eg. apply Eg. rewrite Hk.
        now apply in_map.
      * now rewrite Hroute, keq_refl.
  - unfold Context_load. destruct (load_products _ _). exact IH.
Qed.

(** X25.  In a context made by calls of [connect] and [load],
    [index(route)] is the position in the search path of the product that
    [connect(route)] gives, and [connect(route)] then changes nothing; it
    is [None] exactly when the route is not cached, that is when
    [connect(route)] would read the product from its files. *)
Theorem Context_index_connected (disk : string -> Cache) (ctx : Context)
  (route : string) :
  Connected disk ctx ->
  match Context_index ctx route with
  | Some i =>
      exists pd,
        nth_error (product_sequence ctx) i = Some pd /\
        pd_route pd = route /\
        Context_connect disk ctx route = (ctx, Ok pd)
  | None => dict_get route (cached_products ctx) = None
  end.
Proof.
  intros Hc. destruct (Connected_cache _ _ Hc) as [Hk Hget].
  unfold Context_index.
  destruct (index_from 0 (product_sequence ctx) route) as [i|] eqn:Ei.
  - apply index_from_found in Ei as (k & pd & -> & Hn & Hr & _).
    exists pd. simpl. split; [exact Hn|]. split; [exact Hr|].
    unfold Context_connect. subst route.
    now rewrite (Hget pd (nth_error_In _ _ Hn)).
  - apply dict_get_none. rewrite Hk. intros Hin.
    apply in_map_iff in Hin as (pd & Hr & Hin).
    exact (index_from_none _ _ _ Ei pd Hin Hr).
Qed.

Lemma Context_index_connected_witness :
  match Context_index ctx_xy_connected "/y" with
  | Some i =>
      exists pd,
        nth_error (product_sequence ctx_xy_connected) i = Some pd /\
        pd_route pd = "/y" /\
        Context_connect disk_example ctx_xy_connected "/y"
          = (ctx_xy_connected, Ok pd)
  | None => dict_get "/y" (cached_products ctx_xy_connected) = None
  end.
Proof.
  apply (Context_index_connected disk_example ctx_xy_connected "/y").
  repeat constructor.
Defined.

Lemma dict_set_In {K V} `{EqKey K} (k k0 : K) (v v0 : V) (d : dict K V) :
  In (k, v) (dict_set k0 v0 d) -> (k = k0 /\ v = v0) \/ In (k, v) d.
Proof.
  induction d as [|[k' v'] d IH]; simpl.
  - intros [[= <- <-]|[]]. left; auto.
  - destruct (keq_spec k' k0) as [->|Hne]; simpl.
    + intros [[= <- <-]|Hin]; [left; auto | right; right; exact Hin].
    + intros [Heq|Hin]; [right; left; exact Heq|].
      destruct (IH Hin); [left | right; right]; assumption.
Qed.

Lemma project_registered_incl seq seq' id pj :
  incl seq seq' -> project_registered seq id pj ->
  project_registered seq' id pj.
Proof.
  intros Hi (H1 & H2 & H3). split; [exact H1|]. split; [|exact H3].
  apply Hi, H2.
Qed.

Lemma load_projects_registered seq pd :
  In pd seq -> NoDup (dict_keys (pd_projects pd)) ->
  forall items cache,
    incl items (pd_projects pd) ->
    NoDup (dict_keys cache) ->
    (forall id pj, In (id, pj) cache -> project_registered seq id pj) ->
    NoDup (dict_keys (fst (load_projects pd items cache))) /\
    (forall id pj, In (id, pj) (fst (load_projects pd items cache)) ->
       project_registered seq id pj).
Proof.
  intros Hin Hnd.
  induction items as [|[id [fp rest]] items IH];
    intros cache Hincl Hndc Hreg; simpl; [auto|].
  destruct rest as [|proto_id [|x rest]]; simpl; auto.
  destruct (import_protocol proto_id) as [cls|e] eqn:Ei; simpl; auto.
  apply IH.
  - intros kv Hkv. apply Hincl. right. exact Hkv.
  - apply dict_set_nodup. exact Hndc.
  - intros id' pj' Hin'.
    apply dict_set_In in Hin' as [[-> ->]|Hin']; [|auto].
    split; [reflexivity|]. split; [exact Hin|].
    exists proto_id. simpl. split; [|exact Ei].
    apply dict_in_get; [exact Hnd|]. apply Hincl. left. reflexivity.
Qed.

Lemma load_products_registered seq :
  forall pds cache,
    incl pds seq ->
    Forall Product_coherent pds ->
    NoDup (dict_keys cache) ->
    (forall id pj, In (id, pj) cache -> project_registered seq id pj) ->
    NoDup (dict_keys (fst (load_products pds cache))) /\
    (forall id pj, In (id, pj) (fst (load_products pds cache)) ->
       project_registered seq id pj).
Proof.
  induction pds as [|pd pds IH]; intros cache Hincl Hcoh Hndc Hreg; simpl;
    [auto|].
  inversion Hcoh as [|? ? [Hnd _] Hcoh']; subst.
  destruct (load_projects_registered seq pd (Hincl pd (or_introl eq_refl))
              Hnd (pd_projects pd) cache (incl_refl _) Hndc Hreg)
    as [Hnd1 Hreg1].
  destruct (load_projects pd (pd_projects pd) cache) as [cache1 e].
  simpl in Hnd1, Hreg1.
  destruct e as [|e]; simpl; [|auto].
  apply IH; auto.
  intros x Hx. apply Hincl. right. exact Hx.
Qed.

Lemma Connected_registered disk ctx :
  Connected disk ctx ->
  NoDup (dict_keys (cached_projects ctx)) /\
  (forall id pj, In (id, pj) (cached_projects ctx) ->
     project_registered (product_sequence ctx) id pj).
Proof.
  induction 1 as [|ctx route Hc IH|ctx Hc IH].
  - simpl. split; [constructor | intros id pj []].
  - destruct IH as [Hnd Hreg].
    unfold Context_connect.
    destruct (dict_get route (cached_products ctx)); [simpl; auto|].
    destruct (Product_load (disk route) (Product_new route 4096))
      as [pd e].
    destruct e as [|e]; simpl; [|auto].
    split; [exact Hnd|]. intros id pj Hin.
    apply project_registered_incl with (seq := product_sequence ctx);
      [apply incl_appl, incl_refl | auto].
  - destruct IH as [Hnd Hreg].
    pose proof (Connected_coherent _ _ Hc) as Hcoh.
    assert (Hincl : incl (rev (product_sequence ctx)) (product_sequence ctx)).
    { intros x Hx. apply in_rev. exact Hx. }
    destruct (load_products_registered (product_sequence ctx)
                (rev (product_sequence ctx)) (cached_projects ctx)
                Hincl (Forall_rev Hcoh) Hnd Hreg) as [Hnd1 Hreg1].
    unfold Context_load.
    destruct (load_products (rev (product_sequence ctx))
                (cached_projects ctx)) as [cache e].
    simpl in *. auto.
Qed.

(** X26.  In a context made by calls of [connect] and [load], also when a
    [load] raised part of the way, the projects that [iterprojects]
    yields have pairwise distinct identifiers; each names a product of
    the search path whose [projects] table holds the project's identifier
    with its factor path and the name of its protocol, and [project] of
    its identifier gives the project back. *)
Theorem Context_iterprojects_registered (disk : string -> Cache)
  (ctx : Context) :
  Connected disk ctx ->
  NoDup (map pj_identifier (Context_iterprojects ctx)) /\
  (forall pj, In pj (Context_iterprojects ctx) ->
     In (pj_product pj) (product_sequence ctx) /\
     (exists proto_id,
        dict_get (pj_identifier pj) (pd_projects (pj_product pj))
          = Some (pj_factor pj, [proto_id]) /\
        import_protocol proto_id = Ok (pj_protocol pj)) /\
     Context_project ctx (pj_identifier pj) = Ok pj).
Proof.
  intros Hc. destruct (Connected_registered _ _ Hc) as [Hnd Hreg].
  unfold Context_iterprojects, Context_project, dict_item.
  split.
  - assert (He : map pj_identifier (map snd (cached_projects ctx))
                 = dict_keys (cached_projects ctx)).
    { unfold dict_keys. rewrite map_map. apply map_ext_in.
      intros [id pj] Hin. simpl. now destruct (Hreg id pj Hin). }
    rewrite He. exact Hnd.
  - intros pj Hin. apply in_map_iff in Hin as ([id pj'] & Hs & Hin).
    simpl in Hs. subst pj'.
    destruct (Hreg id pj Hin) as (Hid & Hp & Hex).
    subst id. split; [exact Hp|]. split; [exact Hex|].
    now rewrite (dict_in_get _ _ _ Hnd Hin).
Qed.

Lemma Context_iterprojects_registered_witness :
  NoDup (map pj_identifier (Context_iterprojects ctx_xy)).
Proof.
  assert (Hc : Connected disk_example ctx_xy).
  { apply Connected_load. do 2 apply Connected_connect.
    apply Connected_new. }
  destruct (Context_iterprojects_registered disk_example ctx_xy Hc)
    as [Hnd _].
  exact Hnd.
Defined.
